(** * hyperliquid-go, package [utils]: signing, hashing and wire conversion

    A shallow embedding of the Go sources (numeric wire converter, action
    hasher, phantom agent, typed-data assembly, signing flows, signature
    verifier, order shaping) together with the properties checked against
    them.  Go [string] and [[]byte] values are byte sequences; fallible
    functions return [result]; the process-wide decimal cache and the
    caller's action maps are threaded explicitly. *)

From Stdlib Require Import ZArith List Bool Lia ZifyBool.
From Stdlib Require Import Strings.String Strings.Ascii Strings.Byte.
From Stdlib Require Import SpecFloat DecimalString.
From stdpp Require Import base option list gmap strings.

Import ListNotations.
Local Open Scope string_scope.
Local Open Scope list_scope.
Local Open Scope Z_scope.

(* ===================================================================== *)
(** * Part I: definitions                                                 *)
(* ===================================================================== *)

(** ** Errors and results *)

(** [ErrInvalidOrderType], [ErrPrecisionLoss], [ErrInvalidAddress] and
    [ErrInvalidSignatureChain] are the sentinels of types.go; the other
    constructors stand for the [fmt.Errorf] and [errors.New] sites of the
    sources and for the library errors that they pass on.  Wrapping with
    [%w] keeps the cause, and the model keeps the cause only. *)
Inductive error : Type :=
| ErrInvalidOrderType
| ErrPrecisionLoss
| ErrInvalidAddress
| ErrInvalidSignatureChain
| ErrInvalidFloat            (* "invalid float value" *)
| ErrParseFloat              (* "parsing rounded float" *)
| ErrCreateDecimal           (* "creating decimal" *)
| ErrIntegerOverflow         (* "integer overflow converting ..." *)
| ErrMarshal                 (* msgpack: unsupported value *)
| ErrHex                     (* encoding/hex: odd length or invalid byte *)
| ErrInvalidR                (* "invalid R value" *)
| ErrInvalidS                (* "invalid S value" *)
| ErrRecover                 (* "recovering public key" *)
| ErrUnmarshalPubkey         (* "unmarshaling public key" *)
| ErrSizeNotPositive         (* "size must be positive" *)
| ErrPriceNotPositive        (* "limit price must be positive" *)
| ErrTriggerNotPositive      (* "trigger price must be positive" *)
| ErrWallet.                 (* an error returned by the wallet itself *)

Inductive result (A : Type) : Type :=
| Ok (a : A)
| Err (e : error).
Arguments Ok {A} a.
Arguments Err {A} e.

Definition bind {A B : Type} (r : result A) (k : A -> result B) : result B :=
  match r with
  | Ok a => k a
  | Err e => Err e
  end.

Notation "'let*' x ':=' r 'in' k" := (bind r (fun x => k))
  (at level 10, x name, r at level 100, k at level 200, only parsing).

(** The error classes of the specification's taxonomy.  The sources give
    them no types of their own: an address error is one that wraps the
    sentinel [ErrInvalidAddress]; a decode error is one of the four that
    the verifier raises for the bytes of a signature, two for the texts of
    R and S and two for the recovery of the key.  The error of
    [encoding/hex] on the text of an address, [ErrHex], is in neither
    class. *)
Definition AddressError (e : error) : Prop := e = ErrInvalidAddress.

Definition DecodeError (e : error) : Prop :=
  e = ErrInvalidR \/ e = ErrInvalidS \/ e = ErrRecover \/
  e = ErrUnmarshalPubkey.

(** ** Bytes *)

Definition bytes := list byte.

Definition byte_of_Z (z : Z) : byte :=
  match Byte.of_N (Z.to_N (z mod 256)) with
  | Some b => b
  | None => x00
  end.

Definition Z_of_byte (b : byte) : Z := Z.of_N (Byte.to_N b).

Definition bytes_of_string (s : string) : bytes := list_byte_of_string s.

(** Big-endian encoding of the low [8*n] bits of [z] on [n] bytes
    ([binary.BigEndian.PutUint64] for [n = 8]). *)
Fixpoint be_bytes (n : nat) (z : Z) : bytes :=
  match n with
  | O => []
  | S k => byte_of_Z (Z.shiftr z (8 * Z.of_nat k)) :: be_bytes k z
  end.

Definition PutUint64 (nonce : Z) : bytes := be_bytes 8 nonce.

(** Little-endian decoding and encoding of a 64-bit lane. *)
Fixpoint le_to_Z (b : bytes) : Z :=
  match b with
  | [] => 0
  | x :: r => Z_of_byte x + 256 * le_to_Z r
  end.

Definition lane_bytes (z : Z) : bytes :=
  [ byte_of_Z z; byte_of_Z (Z.shiftr z 8); byte_of_Z (Z.shiftr z 16);
    byte_of_Z (Z.shiftr z 24); byte_of_Z (Z.shiftr z 32);
    byte_of_Z (Z.shiftr z 40); byte_of_Z (Z.shiftr z 48);
    byte_of_Z (Z.shiftr z 56) ].

(** [bytes.Equal]. *)
Fixpoint bytes_eqb (a b : bytes) : bool :=
  match a, b with
  | [], [] => true
  | x :: a', y :: b' => Byte.eqb x y && bytes_eqb a' b'
  | _, _ => false
  end.

(** ** Hexadecimal text *)

Definition hex_digit (n : Z) : ascii :=
  ascii_of_nat (Z.to_nat (if n <? 10 then 48 + n else 87 + n)).

Definition hex_value (c : ascii) : option Z :=
  let n := Z.of_nat (nat_of_ascii c) in
  if (48 <=? n) && (n <=? 57) then Some (n - 48)
  else if (97 <=? n) && (n <=? 102) then Some (n - 87)
  else if (65 <=? n) && (n <=? 70) then Some (n - 55)
  else None.

(** [hex.EncodeToString]: two lower-case digits per byte. *)
Fixpoint EncodeToString (b : bytes) : string :=
  match b with
  | [] => EmptyString
  | x :: r =>
      String (hex_digit (Z_of_byte x / 16))
        (String (hex_digit (Z_of_byte x mod 16)) (EncodeToString r))
  end.

(** [hex.DecodeString]: fails on an odd length or on a byte that is not a
    hexadecimal digit; both cases accept upper and lower case digits. *)
Fixpoint DecodeString (s : string) : result bytes :=
  match s with
  | EmptyString => Ok []
  | String _ EmptyString => Err ErrHex
  | String a (String b r) =>
      match hex_value a, hex_value b with
      | Some h, Some l =>
          let* t := DecodeString r in Ok (byte_of_Z (16 * h + l) :: t)
      | _, _ => Err ErrHex
      end
  end.

Fixpoint isHex (s : string) : bool :=
  match s with
  | EmptyString => true
  | String c r => match hex_value c with Some _ => isHex r | None => false end
  end.

(** go-ethereum [common.has0xPrefix]: "0x" or "0X". *)
Definition has0xPrefix (s : string) : bool :=
  match s with
  | String "0" (String c _) => (Ascii.eqb c "x") || (Ascii.eqb c "X")
  | _ => false
  end.

Definition drop2 (s : string) : string :=
  match s with
  | String _ (String _ r) => r
  | _ => s
  end.

(** go-ethereum [common.IsHexAddress]: an optional "0x"/"0X" prefix and
    then exactly 40 hexadecimal digits. *)
Definition IsHexAddress (s : string) : bool :=
  let s := if has0xPrefix s then drop2 s else s in
  (Nat.eqb (String.length s) 40) && isHex s.

(** [strings.TrimPrefix(s, "0x")]: only the lower-case prefix. *)
Definition TrimPrefix0x (s : string) : string :=
  match s with
  | String "0" (String "x" r) => r
  | _ => s
  end.

(** go-ethereum [hexutil.Encode]: "0x" and the lower-case digits. *)
Definition hexutil_Encode (b : bytes) : string :=
  String.append "0x" (EncodeToString b).

(** go-ethereum [hexutil.Decode]: the text must be non-empty, start with
    "0x"/"0X" and continue with an even number of hexadecimal digits. *)
Definition hexutil_Decode (s : string) : result bytes :=
  if has0xPrefix s then DecodeString (drop2 s) else Err ErrHex.

(** ** Lower case: [strings.ToLower]

    A Go string is a byte sequence that is read as UTF-8 where runes are
    asked for. *)
Module Utf8.

Definition RuneError : Z := 0xFFFD.
Definition MaxRune : Z := 0x10FFFF.

(** The table [first] of [unicode/utf8] for a byte above the ASCII range:
    the width that the byte announces and the range accepted for the byte
    after it; [None] for a byte that starts no rune. *)
Definition first (b0 : Z) : option (nat * Z * Z) :=
  if b0 <? 0xC2 then None
  else if b0 <? 0xE0 then Some (2%nat, 0x80, 0xBF)
  else if b0 =? 0xE0 then Some (3%nat, 0xA0, 0xBF)
  else if b0 =? 0xED then Some (3%nat, 0x80, 0x9F)
  else if b0 <? 0xF0 then Some (3%nat, 0x80, 0xBF)
  else if b0 =? 0xF0 then Some (4%nat, 0x90, 0xBF)
  else if b0 <? 0xF4 then Some (4%nat, 0x80, 0xBF)
  else if b0 =? 0xF4 then Some (4%nat, 0x80, 0x8F)
  else None.

Definition continuation (b : Z) : bool := (0x80 <=? b) && (b <=? 0xBF).

(** [utf8.DecodeRune]: the first rune of [p] and its width in bytes; a
    byte sequence that is not the shortest encoding of a rune gives
    [(RuneError, 1)]. *)
Definition DecodeRune (p : bytes) : Z * nat :=
  match p with
  | [] => (RuneError, 0%nat)
  | p0 :: t =>
      let b0 := Z_of_byte p0 in
      if b0 <? 0x80 then (b0, 1%nat)
      else
        match first b0 with
        | None => (RuneError, 1%nat)
        | Some (sz, lo, hi) =>
            if (length p <? sz)%nat then (RuneError, 1%nat)
            else
              let b1 := Z_of_byte (nth 1 p x00) in
              let b2 := Z_of_byte (nth 2 p x00) in
              let b3 := Z_of_byte (nth 3 p x00) in
              if (b1 <? lo) || (hi <? b1) then (RuneError, 1%nat)
              else if (sz <=? 2)%nat then
                (Z.lor (Z.shiftl (Z.land b0 0x1F) 6) (Z.land b1 0x3F), 2%nat)
              else if negb (continuation b2) then (RuneError, 1%nat)
              else if (sz <=? 3)%nat then
                (Z.lor (Z.shiftl (Z.land b0 0x0F) 12)
                   (Z.lor (Z.shiftl (Z.land b1 0x3F) 6) (Z.land b2 0x3F)),
                 3%nat)
              else if negb (continuation b3) then (RuneError, 1%nat)
              else
                (Z.lor (Z.shiftl (Z.land b0 0x07) 18)
                   (Z.lor (Z.shiftl (Z.land b1 0x3F) 12)
                      (Z.lor (Z.shiftl (Z.land b2 0x3F) 6) (Z.land b3 0x3F))),
                 4%nat)
        end
  end.

(** [utf8.AppendRune]: a surrogate and a value past [MaxRune] are written
    as [RuneError]. *)
Definition AppendRune (r : Z) : bytes :=
  let three := fun r =>
    [ byte_of_Z (Z.lor 0xE0 (Z.shiftr r 12));
      byte_of_Z (Z.lor 0x80 (Z.land (Z.shiftr r 6) 0x3F));
      byte_of_Z (Z.lor 0x80 (Z.land r 0x3F)) ] in
  if (0 <=? r) && (r <=? 0x7F) then [byte_of_Z r]
  else if (0 <=? r) && (r <=? 0x7FF) then
    [ byte_of_Z (Z.lor 0xC0 (Z.shiftr r 6));
      byte_of_Z (Z.lor 0x80 (Z.land r 0x3F)) ]
  else if (r <? 0) || (MaxRune <? r) || ((0xD800 <=? r) && (r <=? 0xDFFF))
  then three RuneError
  else if r <=? 0xFFFF then three r
  else
    [ byte_of_Z (Z.lor 0xF0 (Z.shiftr r 18));
      byte_of_Z (Z.lor 0x80 (Z.land (Z.shiftr r 12) 0x3F));
      byte_of_Z (Z.lor 0x80 (Z.land (Z.shiftr r 6) 0x3F));
      byte_of_Z (Z.lor 0x80 (Z.land r 0x3F)) ].

(** [for _, c := range s]: the runes of a string, an invalid byte read as
    [RuneError]. *)
Fixpoint runes_of (fuel : nat) (p : bytes) : list Z :=
  match fuel, p with
  | S f, _ :: _ =>
      let '(c, width) := DecodeRune p in c :: runes_of f (skipn width p)
  | _, _ => []
  end.

Definition Runes (p : bytes) : list Z := runes_of (length p) p.

End Utf8.

(** [strings.Map]: every rune of [s] is replaced by its image, written
    in UTF-8, and dropped when the image is negative. *)
Definition strings_Map (mapping : Z -> Z) (s : string) : string :=
  string_of_list_byte
    (flat_map (fun c => let r := mapping c in
                        if 0 <=? r then Utf8.AppendRune r else [])
       (Utf8.Runes (list_byte_of_string s))).

(** The case tables of Go's [unicode] package, which the sources reach
    through [strings.ToLower] only: [unicode.To(unicode.LowerCase, r)]. *)
Class CaseTables : Type := {
  To_LowerCase : Z -> Z
}.

(** [unicode.ToLower]: the ASCII range is answered without the tables. *)
Definition unicode_ToLower `{CaseTables} (r : Z) : Z :=
  if r <=? 0x7F then
    if (65 <=? r) && (r <=? 90) then r + 32 else r
  else To_LowerCase r.

Definition lower_ascii (c : ascii) : ascii :=
  let n := nat_of_ascii c in
  if (Nat.leb 65 n) && (Nat.leb n 90) then ascii_of_nat (n + 32) else c.

(** Every byte of the string is below [utf8.RuneSelf]. *)
Fixpoint isASCII (s : string) : bool :=
  match s with
  | EmptyString => true
  | String c r => (nat_of_ascii c <? 128)%nat && isASCII r
  end.

(** The loop of [strings.ToLower] over a string of ASCII bytes. *)
Fixpoint lower (s : string) : string :=
  match s with
  | EmptyString => EmptyString
  | String c r => String (lower_ascii c) (lower r)
  end.

(** [strings.ToLower]: a string of ASCII bytes is lower-cased byte by
    byte; any other string goes through [strings.Map] with
    [unicode.ToLower]. *)
Definition ToLower `{CaseTables} (s : string) : string :=
  if isASCII s then lower s else strings_Map unicode_ToLower s.

(** ** Keccak-256 (go-ethereum [crypto.Keccak256])

    The sponge over Keccak-f[1600] with rate 136 bytes, capacity 512 bits
    and the original Keccak padding (domain byte 0x01, not SHA-3's 0x06).
    The state is the list of its 25 lanes, lane (x, y) at index x + 5y. *)
Module Keccak.

Definition mask64 : Z := 0xFFFFFFFFFFFFFFFF.

Definition rotl (z : Z) (n : Z) : Z :=
  Z.land (Z.lor (Z.shiftl z n) (Z.shiftr z (64 - n))) mask64.

Definition lane (st : list Z) (x y : nat) : Z :=
  nth ((x mod 5) + 5 * (y mod 5))%nat st 0.

Definition round_constants : list Z :=
  [ 0x0000000000000001; 0x0000000000008082; 0x800000000000808A;
    0x8000000080008000; 0x000000000000808B; 0x0000000080000001;
    0x8000000080008081; 0x8000000000008009; 0x000000000000008A;
    0x0000000000000088; 0x0000000080008009; 0x000000008000000A;
    0x000000008000808B; 0x800000000000008B; 0x8000000000008089;
    0x8000000000008003; 0x8000000000008002; 0x8000000000000080;
    0x000000000000800A; 0x800000008000000A; 0x8000000080008081;
    0x8000000000008080; 0x0000000080000001; 0x8000000080008008 ].

(** Rotation offsets, indexed like the state. *)
Definition rotation_offsets : list Z :=
  [ 0; 1; 62; 28; 27;
    36; 44; 6; 55; 20;
    3; 10; 43; 25; 39;
    41; 45; 15; 21; 8;
    18; 2; 61; 56; 14 ].

Definition coords : list (nat * nat) :=
  flat_map (fun y => List.map (fun x => (x, y)) (seq 0 5)) (seq 0 5).

Definition theta (st : list Z) : list Z :=
  let C := fun x =>
    Z.lxor (lane st x 0) (Z.lxor (lane st x 1) (Z.lxor (lane st x 2)
      (Z.lxor (lane st x 3) (lane st x 4)))) in
  let D := fun x => Z.lxor (C (x + 4)%nat) (rotl (C (x + 1)%nat) 1) in
  List.map (fun '(x, y) => Z.lxor (lane st x y) (D x)) coords.

(** rho and pi together: B[y, 2x+3y] = rotl(A[x, y], r[x, y]); read
    backwards, the lane at (X, Y) comes from x = X + 3Y, y = X. *)
Definition rho_pi (st : list Z) : list Z :=
  List.map (fun '(X, Y) =>
    let x := ((X + 3 * Y) mod 5)%nat in
    let y := X in
    rotl (lane st x y) (nth (x + 5 * y)%nat rotation_offsets 0)) coords.

Definition chi (st : list Z) : list Z :=
  List.map (fun '(x, y) =>
    Z.lxor (lane st x y)
      (Z.land (Z.lxor (lane st (x + 1) y) mask64) (lane st (x + 2) y)))
    coords.

Definition iota (rc : Z) (st : list Z) : list Z :=
  match st with
  | [] => []
  | a :: r => Z.lxor a rc :: r
  end.

Definition round (st : list Z) (rc : Z) : list Z :=
  iota rc (chi (rho_pi (theta st))).

Definition permute (st : list Z) : list Z :=
  fold_left round round_constants st.

Definition rate : nat := 136.

Fixpoint lanes_of (n : nat) (b : bytes) : list Z :=
  match n with
  | O => []
  | S k => le_to_Z (firstn 8 b) :: lanes_of k (skipn 8 b)
  end.

(** XOR one rate-sized block into the first 17 lanes and permute. *)
Definition absorb (st : list Z) (block : bytes) : list Z :=
  let ls := lanes_of 17 block ++ repeat 0 8 in
  permute (List.map (fun '(a, b) => Z.lxor a b) (combine st ls)).

(** pad10*1 with the Keccak domain bit: 0x01, zeros, and 0x80 on the
    last byte of the block (0x81 when both fall on the same byte). *)
Definition pad (tail : bytes) : bytes :=
  let k := (rate - length tail)%nat in
  match k with
  | 1%nat => tail ++ [x81]
  | _ => tail ++ [x01] ++ repeat x00 (k - 2) ++ [x80]
  end.

Fixpoint sponge (fuel : nat) (st : list Z) (msg : bytes) : list Z :=
  match fuel with
  | O => st
  | S f =>
      if (length msg <? rate)%nat then absorb st (pad msg)
      else sponge f (absorb st (firstn rate msg)) (skipn rate msg)
  end.

Definition squeeze (st : list Z) : bytes :=
  lane_bytes (nth 0 st 0) ++ lane_bytes (nth 1 st 0) ++
  lane_bytes (nth 2 st 0) ++ lane_bytes (nth 3 st 0).

Definition Keccak256 (data : bytes) : bytes :=
  squeeze (sponge (S (length data)) (repeat 0 25) data).

End Keccak.

Definition Keccak256 := Keccak.Keccak256.

(** ** float64

    Go's [float64] is IEEE 754 binary64.  It is modelled by the standard
    library's [spec_float] at precision 53 and maximal exponent 1024, whose
    operations round to nearest, ties to even, as the hardware does. *)
Module F64.

Definition prec : Z := 53.
Definition emax : Z := 1024.

Definition float64 := spec_float.

Definition mul : float64 -> float64 -> float64 := SFmul prec emax.
Definition div : float64 -> float64 -> float64 := SFdiv prec emax.
Definition sub : float64 -> float64 -> float64 := SFsub prec emax.
Definition abs : float64 -> float64 := SFabs.

(** The comparison operators of Go; all are false on NaN. *)
Definition eqb (x y : float64) : bool := SFeqb x y.
Definition ltb (x y : float64) : bool := SFltb x y.
Definition leb (x y : float64) : bool := SFleb x y.
Definition geb (x y : float64) : bool := SFleb y x.

Definition zero : float64 := S754_zero false.

(** [float64(n)] for an integer [n]. *)
Definition of_Z (n : Z) : float64 := binary_normalize prec emax n 0 false.

(** The float nearest to the rational [p / q]. *)
Definition of_ratio (neg : bool) (p q : positive) : float64 :=
  let '(mz, ez, lz) := SFdiv_core_binary prec emax (Zpos p) 0 (Zpos q) 0 in
  binary_round_aux prec emax neg mz ez lz.

(** The float denoted by the literal [m]e[e10], as the compiler rounds it. *)
Definition lit (m : positive) (e10 : Z) : float64 :=
  if 0 <=? e10 then of_Z (Zpos m * 10 ^ e10)
  else of_ratio false m (Z.to_pos (10 ^ (- e10))).

(** [math.IsNaN] and [math.IsInf(x, 0)]. *)
Definition IsNaN (x : float64) : bool :=
  match x with S754_nan => true | _ => false end.

Definition IsInf (x : float64) : bool :=
  match x with S754_infinity _ => true | _ => false end.

(** [math.Round]: nearest integer, halves away from zero; zeros,
    infinities and NaN are returned unchanged. *)
Definition Round (x : float64) : float64 :=
  match x with
  | S754_finite s m e =>
      if 0 <=? e then x
      else
        let d := 2 ^ (- e) in
        let q := Zpos m / d in
        let r := Zpos m mod d in
        let n := if d <=? 2 * r then q + 1 else q in
        binary_normalize prec emax (if s then - n else n) 0 s
  | _ => x
  end.

(** The integer part of a finite float, towards zero. *)
Definition trunc_Z (x : float64) : option Z :=
  match x with
  | S754_zero _ => Some 0
  | S754_finite s m e =>
      let a := if 0 <=? e then Zpos m * 2 ^ e else Zpos m / 2 ^ (- e) in
      Some (if s then - a else a)
  | _ => None
  end.

Definition MinInt64 : Z := - 2 ^ 63.
Definition MaxInt64 : Z := 2 ^ 63 - 1.

(** [int64(x)].  Go leaves the result unspecified when the value does not
    fit; the model takes the amd64 behaviour, where the conversion
    instruction yields the "integer indefinite" value [MinInt64]. *)
Definition to_int64 (x : float64) : Z :=
  match trunc_Z x with
  | Some n => if (MinInt64 <=? n) && (n <=? MaxInt64) then n else MinInt64
  | None => MinInt64
  end.

(** Go's [math.Pow10]: products and quotients of the tabulated powers. *)
Definition Pow10 (n : Z) : float64 :=
  if (0 <=? n) && (n <=? 308) then
    mul (lit 1 (32 * (n / 32))) (lit 1 (n mod 32))
  else if (-323 <=? n) && (n <=? 0) then
    div (lit 1 (- (32 * ((- n) / 32)))) (lit 1 ((- n) mod 32))
  else if 0 <? n then S754_infinity false
  else zero.

End F64.

Abbreviation float64 := F64.float64.

(** ** Decimal text: [fmt.Sprintf("%.*f")], [strconv.ParseFloat] *)

Definition string_of_N (n : N) : string :=
  DecimalString.NilZero.string_of_uint (N.to_uint n).

Definition digit_value (c : ascii) : option N :=
  let n := N_of_ascii c in
  if ((48 <=? n) && (n <=? 57))%N then Some (n - 48)%N else None.

(** The value of a non-empty run of decimal digits, with its length. *)
Fixpoint digits_value (acc : N) (s : string) : option N :=
  match s with
  | EmptyString => Some acc
  | String c r =>
      match digit_value c with
      | Some d => digits_value (10 * acc + d)%N r
      | None => None
      end
  end.

Fixpoint zeros (n : nat) : string :=
  match n with
  | O => EmptyString
  | S k => String "0" (zeros k)
  end.

Fixpoint split_at (n : nat) (s : string) : string * string :=
  match n, s with
  | S k, String c r => let '(a, b) := split_at k r in (String c a, b)
  | _, _ => (EmptyString, s)
  end.

(** The text of the non-negative integer [n] read as a number with
    [places] fractional digits: "ii.fff", without the point when
    [places = 0]. *)
Definition fixed_text (n : N) (places : nat) : string :=
  let ds := string_of_N n in
  let ds := String.append (zeros (S places - String.length ds)) ds in
  let '(ip, fp) := split_at (String.length ds - places) ds in
  match places with
  | O => ip
  | _ => String.append ip (String "." fp)
  end.

(** [m * 2^e * 10^places] rounded to the nearest integer, ties to even:
    the digits that [strconv.FormatFloat(x, 'f', places, 64)] prints. *)
Definition scaled_digits (m : positive) (e : Z) (places : nat) : N :=
  let num := Zpos m * 10 ^ Z.of_nat places in
  if 0 <=? e then Z.to_N (num * 2 ^ e)
  else
    let d := 2 ^ (- e) in
    let q := num / d in
    let r := num mod d in
    Z.to_N (if d <? 2 * r then q + 1
            else if (d =? 2 * r) && Z.odd q then q + 1
            else q).

(** The verb [%f] at precision [places]. *)
Definition format_f (places : nat) (x : float64) : string :=
  match x with
  | S754_nan => "NaN"
  | S754_infinity false => "+Inf"
  | S754_infinity true => "-Inf"
  | S754_zero s =>
      String.append (if s then "-" else "") (fixed_text 0 places)
  | S754_finite s m e =>
      String.append (if s then "-" else "")
        (fixed_text (scaled_digits m e places) places)
  end.

(** [fmt.Sprintf("%.*f", places, x)].  A precision taken from an argument
    that is negative or above 10^6 is refused by [fmt]: it prints the
    marker "%!(BADPREC)" and formats at the default precision 6. *)
Definition Sprintf_f (places : Z) (x : float64) : string :=
  if (0 <=? places) && (places <=? 1000000) then format_f (Z.to_nat places) x
  else String.append "%!(BADPREC)" (format_f 6 x).

(** Splits "ii.fff" or "ii" at the point. *)
Fixpoint split_point (s : string) : string * option string :=
  match s with
  | EmptyString => (EmptyString, None)
  | String c r =>
      if Ascii.eqb c "." then (EmptyString, Some r)
      else let '(a, b) := split_point r in (String c a, b)
  end.

(** A signed decimal numeral without exponent: the sign, the value of all
    its digits, and the number of fractional digits. *)
Definition parse_fixed (s : string) : option (bool * N * nat) :=
  let '(neg, body) :=
    match s with
    | String "-" r => (true, r)
    | String "+" r => (false, r)
    | _ => (false, s)
    end in
  let '(ip, fp) := split_point body in
  let fp := match fp with Some f => f | None => EmptyString end in
  match String.append ip fp with
  | EmptyString => None
  | ds =>
      match digits_value 0 ds with
      | Some n => Some (neg, n, String.length fp)
      | None => None
      end
  end.

(** [strconv.ParseFloat(s, 64)] on the texts that [%f] produces (the
    numerals without exponent and the three special names): the nearest
    float, and a range error when that is an infinity.  Other syntax that
    the Go parser accepts is not needed here and is refused. *)
Definition ParseFloat (s : string) : result float64 :=
  if String.eqb s "NaN" then Ok S754_nan
  else if String.eqb s "+Inf" then Ok (S754_infinity false)
  else if String.eqb s "-Inf" then Ok (S754_infinity true)
  else
    match parse_fixed s with
    | Some (neg, n, k) =>
        match n with
        | N0 => Ok (S754_zero neg)
        | Npos p =>
            let f := F64.of_ratio neg p (Z.to_pos (10 ^ Z.of_nat k)) in
            if F64.IsInf f then Err ErrParseFloat else Ok f
        end
    | None => Err ErrParseFloat
    end.

(** ** shopspring [decimal.Decimal]: [value * 10^exp] *)

Record Decimal : Type := mkDecimal { value : Z; exp : Z }.

(** [decimal.NewFromString] on numerals without exponent: every digit is
    kept, so "1.50" is 150 * 10^-2.  The special float names are not
    decimals. *)
Definition NewFromString (s : string) : result Decimal :=
  match parse_fixed s with
  | Some (neg, n, k) =>
      Ok (mkDecimal (if neg then - Z.of_N n else Z.of_N n) (- Z.of_nat k))
  | None => Err ErrCreateDecimal
  end.

Fixpoint trim_zeros_rev (s : list ascii) : list ascii :=
  match s with
  | c :: r => if Ascii.eqb c "0" then trim_zeros_rev r else s
  | [] => []
  end.

Definition trim_trailing_zeros (s : string) : string :=
  string_of_list_ascii (rev (trim_zeros_rev (rev (list_ascii_of_string s)))).

(** [Decimal.String]: plain notation with the trailing zeros of the
    fraction removed. *)
Definition Decimal_String (d : Decimal) : string :=
  if 0 <=? exp d then
    let v := value d * 10 ^ exp d in
    String.append (if v <? 0 then "-" else "") (string_of_N (Z.abs_N v))
  else
    let str := string_of_N (Z.abs_N (value d)) in
    let k := Z.to_nat (- exp d) in
    let '(intPart, fractionalPart) :=
      if (k <? String.length str)%nat
      then split_at (String.length str - k) str
      else ("0", String.append (zeros (k - String.length str)) str) in
    let fractionalPart := trim_trailing_zeros fractionalPart in
    let number :=
      match fractionalPart with
      | EmptyString => intPart
      | _ => String.append intPart (String "." fractionalPart)
      end in
    if value d <? 0 then String.append "-" number else number.
(** ** Numeric wire converter: FloatToWire, FloatToDecimal, FloatToInt *)

Definition PrecisionThreshold : float64 := F64.lit 1 (-12).
Definition DefaultDecimalPlaces : Z := 8.
Definition USDDecimalPlaces : Z := 6.

(** [decimalCache.values]: a Go map from [float64] to [decimal.Decimal].
    Keys are compared with the float equality of Go, under which the two
    zeros are one key and a NaN is equal to no key.  The entries are kept
    in insertion order; the lock around the map is not modelled, calls
    are taken one at a time. *)
Definition Cache : Type := list (float64 * Decimal).

Fixpoint cache_lookup (c : Cache) (x : float64) : option Decimal :=
  match c with
  | [] => None
  | (k, d) :: r => if F64.eqb k x then Some d else cache_lookup r x
  end.

(** [values[x] = d]. *)
Fixpoint cache_store (c : Cache) (x : float64) (d : Decimal) : Cache :=
  match c with
  | [] => [(x, d)]
  | (k, d') :: r =>
      if F64.eqb k x then (k, d) :: r else (k, d') :: cache_store r x d
  end.

(** Computations that read and write the cache and may fail. *)
Definition M (A : Type) : Type := Cache -> result A * Cache.

Definition ret {A : Type} (a : A) : M A := fun c => (Ok a, c).
Definition fail {A : Type} (e : error) : M A := fun c => (Err e, c).
Definition mbind' {A B : Type} (m : M A) (k : A -> M B) : M B :=
  fun c => match m c with
           | (Ok a, c') => k a c'
           | (Err e, c') => (Err e, c')
           end.

Notation "'do*' x '<-' m ';' k" := (mbind' m (fun x => k))
  (at level 10, x name, m at level 100, k at level 200, only parsing).

(** The body of [FloatToDecimal] below the cache lookup, up to and
    including [decimal.NewFromString]. *)
Definition convert (x : float64) (places : Z) : result Decimal :=
  let rounded := Sprintf_f places x in
  match ParseFloat rounded with
  | Err _ => Err ErrParseFloat
  | Ok roundedFloat =>
      if F64.geb (F64.abs (F64.sub roundedFloat x)) PrecisionThreshold
      then Err ErrPrecisionLoss
      else
        let rounded :=
          match rounded with
          | String "-" r => if F64.eqb roundedFloat F64.zero then r else rounded
          | _ => rounded
          end in
        match NewFromString rounded with
        | Err _ => Err ErrCreateDecimal
        | Ok d => Ok d
        end
  end.

(** [FloatToDecimal]: the cache is consulted first, under the key [x]
    alone; a fresh successful conversion is stored when the map has fewer
    than 1000 entries and |x| < 1000000. *)
Definition FloatToDecimal (x : float64) (places : Z) : M Decimal :=
  fun cache =>
    match cache_lookup cache x with
    | Some d => (Ok d, cache)
    | None =>
        match convert x places with
        | Err e => (Err e, cache)
        | Ok d =>
            if (length cache <? 1000)%nat
               && F64.ltb (F64.abs x) (F64.of_Z 1000000)
            then (Ok d, cache_store cache x d)
            else (Ok d, cache)
        end
    end.

Definition FloatToWire (x : float64) : M string :=
  if F64.IsNaN x || F64.IsInf x then fail ErrInvalidFloat
  else do* d <- FloatToDecimal x DefaultDecimalPlaces; ret (Decimal_String d).

Definition FloatToInt (x : float64) (places : Z) : result Z :=
  if F64.IsNaN x || F64.IsInf x then Err ErrInvalidFloat
  else
    let scale := F64.Pow10 places in
    let withDecimals := F64.mul x scale in
    if F64.geb (F64.abs (F64.sub (F64.Round withDecimals) withDecimals))
         (F64.lit 1 (-3))
    then Err ErrPrecisionLoss
    else
      let result := F64.to_int64 (F64.Round withDecimals) in
      if negb (F64.eqb (F64.of_Z result) (F64.Round withDecimals))
      then Err ErrIntegerOverflow
      else Ok result.

Definition FloatToIntForHashing (x : float64) : result Z :=
  FloatToInt x DefaultDecimalPlaces.

Definition FloatToUSDInt (x : float64) : result Z :=
  FloatToInt x USDDecimalPlaces.

(** ** Order shaping (types.go, orders.go)

    A Go pointer field is an [option]: [nil] is [None]. *)

Record LimitOrderType : Type := mkLimit { TIF : string }.

Record TriggerOrderType : Type := mkTrigger {
  TriggerPx : float64;
  IsMarket : bool;
  TPSL : string
}.

Record TriggerOrderTypeWire : Type := mkTriggerWire {
  wire_TriggerPx : string;
  wire_IsMarket : bool;
  wire_TPSL : string
}.

Record OrderType : Type := mkOrderType {
  Limit : option LimitOrderType;
  Trigger : option TriggerOrderType
}.

Record OrderTypeWire : Type := mkOrderTypeWire {
  wire_Limit : option LimitOrderType;
  wire_Trigger : option TriggerOrderTypeWire
}.

Record OrderRequest : Type := mkOrderRequest {
  Coin : string;
  IsBuy : bool;
  Size : float64;
  LimitPrice : float64;
  OrderType_ : OrderType;
  ReduceOnly : bool;
  Cloid : option string
}.

Record OrderWire : Type := mkOrderWire {
  wire_Asset : Z;
  wire_IsBuy : bool;
  wire_Price : string;
  wire_Size : string;
  wire_ReduceOnly : bool;
  wire_Type : OrderTypeWire;
  wire_Cloid : option string
}.

(** [OrderRequest.Validate]; [None] is the nil error. *)
Definition Validate (o : OrderRequest) : option error :=
  if F64.leb (Size o) F64.zero then Some ErrSizeNotPositive
  else if F64.leb (LimitPrice o) F64.zero then Some ErrPriceNotPositive
  else
    match Limit (OrderType_ o), Trigger (OrderType_ o) with
    | None, None => Some ErrInvalidOrderType
    | _, Some t =>
        if F64.leb (TriggerPx t) F64.zero then Some ErrTriggerNotPositive
        else None
    | _, None => None
    end.

Definition OrderTypeToWire (orderType : OrderType) : M OrderTypeWire :=
  match Limit orderType with
  | Some l => ret (mkOrderTypeWire (Some l) None)
  | None =>
      match Trigger orderType with
      | Some t =>
          do* wirePrice <- FloatToWire (TriggerPx t);
          ret (mkOrderTypeWire None
                 (Some (mkTriggerWire wirePrice (IsMarket t) (TPSL t))))
      | None => fail ErrInvalidOrderType
      end
  end.

Definition OrderRequestToOrderWire (order : OrderRequest) (asset : Z)
  : M OrderWire :=
  match Validate order with
  | Some e => fail e
  | None =>
      do* wireType <- OrderTypeToWire (OrderType_ order);
      do* wirePrice <- FloatToWire (LimitPrice order);
      do* wireSize <- FloatToWire (Size order);
      ret (mkOrderWire asset (IsBuy order) wirePrice wireSize
             (ReduceOnly order) wireType (Cloid order))
  end.

(** ** Multi-signature field types: AddMultiSigTypes *)

Record SignatureType : Type := mkSignatureType { Name : string; Type_ : string }.

(** The loop of [AddMultiSigTypes]: the slice built so far and the flag. *)
Fixpoint enrich (signTypes : list SignatureType)
    (enrichedSignTypes : list SignatureType) (enriched : bool)
  : list SignatureType * bool :=
  match signTypes with
  | [] => (enrichedSignTypes, enriched)
  | signType :: rest =>
      let enrichedSignTypes := enrichedSignTypes ++ [signType] in
      if String.eqb (Name signType) "hyperliquidChain" then
        enrich rest
          (enrichedSignTypes ++
             [ mkSignatureType "payloadMultiSigUser" "address";
               mkSignatureType "outerSigner" "address" ])
          true
      else enrich rest enrichedSignTypes enriched
  end.

Definition AddMultiSigTypes (signTypes : list SignatureType)
  : result (list SignatureType) :=
  let '(enrichedSignTypes, enriched) := enrich signTypes [] false in
  if negb enriched then Err ErrInvalidSignatureChain
  else Ok enrichedSignTypes.

Definition USDSendSignTypes : list SignatureType :=
  [ mkSignatureType "hyperliquidChain" "string";
    mkSignatureType "destination" "string";
    mkSignatureType "amount" "string";
    mkSignatureType "time" "uint64" ].

Definition MultiSigEnvelopeSignTypes : list SignatureType :=
  [ mkSignatureType "hyperliquidChain" "string";
    mkSignatureType "multiSigActionHash" "bytes32";
    mkSignatureType "nonce" "uint64" ].

Definition EIP712DomainFields : list SignatureType :=
  [ mkSignatureType "name" "string";
    mkSignatureType "version" "string";
    mkSignatureType "chainId" "uint256";
    mkSignatureType "verifyingContract" "address" ].
(** ** Values and their MessagePack encoding

    The dynamic values ([interface{}]) that the signing code builds and
    hands to [msgpack.Marshal] (vmihailenco/msgpack v5, default encoder:
    [int] and [uint] are written in the shortest form that holds them,
    the integers of a fixed width and the floats keep their width, map
    keys are not sorted).  A named type is its underlying type
    ([Cloid], [TIF] and [GroupingType] are strings).  The types that the
    package never hands to the encoder have no image: times, arrays,
    maps with keys that are not strings, types with an encoder of their
    own. *)

(** The Go number types that are written at their own width, each under
    its own code. *)
Inductive NumKind : Type :=
| Int8 | Int16 | Int32 | Int64
| Uint8 | Uint16 | Uint32 | Uint64
| Float32 | Float64.

#[local] Set Warnings "-register-all".
Inductive Value : Type :=
| VNil                                 (* nil: the nil interface, and a nil
                                          pointer, slice or map *)
| VBool (b : bool)
| VString (s : string)
| VInt (n : Z)                         (* a Go [int] *)
| VUint (n : Z)                        (* a Go [uint] *)
| VNum (k : NumKind) (n : Z)           (* a number of a fixed width; a float
                                          is held by its IEEE 754 bits
                                          ([math.Float64bits]) *)
| VBytes (b : bytes)                   (* a [[]byte] that is not nil *)
| VSlice (l : list Value)
| VMap (m : list (string * Value))     (* a Go map: its entries, unordered *)
| VStruct (fs : list (string * Value)) (* a struct: the tagged fields that
                                          are written, in declaration
                                          order *)
| VChan.                               (* a value msgpack cannot encode *)

Abbreviation VInt64 n := (VNum Int64 n).
Abbreviation VUint64 n := (VNum Uint64 n).

(** The order in which one [for k, v := range m] visits the entries of a
    map.  Go leaves it unspecified and randomises it; the model takes it
    as a parameter that rearranges the list of entries. *)
Definition RangeOrder : Type := forall A : Type, list A -> list A.

Definition range_fwd : RangeOrder := fun _ l => l.
Definition range_rev : RangeOrder := fun _ l => rev l.

(** A range visits every entry exactly once. *)
Definition is_range (ord : RangeOrder) : Prop :=
  forall (A : Type) (l : list A), Permutation (ord A l) l.

Module Msgpack.

Definition str_header (l : Z) : bytes :=
  if l <? 32 then [byte_of_Z (0xa0 + l)]
  else if l <? 256 then [xd9; byte_of_Z l]
  else if l <=? 0xffff then xda :: be_bytes 2 l
  else xdb :: be_bytes 4 l.

Definition map_header (l : Z) : bytes :=
  if l <? 16 then [byte_of_Z (0x80 + l)]
  else if l <=? 0xffff then xde :: be_bytes 2 l
  else xdf :: be_bytes 4 l.

Definition array_header (l : Z) : bytes :=
  if l <? 16 then [byte_of_Z (0x90 + l)]
  else if l <=? 0xffff then xdc :: be_bytes 2 l
  else xdd :: be_bytes 4 l.

Definition bin_header (l : Z) : bytes :=
  if l <? 256 then [xc4; byte_of_Z l]
  else if l <=? 0xffff then xc5 :: be_bytes 2 l
  else xc6 :: be_bytes 4 l.

Definition encode_string (s : string) : bytes :=
  str_header (Z.of_nat (String.length s)) ++ bytes_of_string s.

Definition num_code (k : NumKind) : byte :=
  match k with
  | Int8 => xd0 | Int16 => xd1 | Int32 => xd2 | Int64 => xd3
  | Uint8 => xcc | Uint16 => xcd | Uint32 => xce | Uint64 => xcf
  | Float32 => xca | Float64 => xcb
  end.

Definition num_width (k : NumKind) : nat :=
  match k with
  | Int8 | Uint8 => 1
  | Int16 | Uint16 => 2
  | Int32 | Uint32 | Float32 => 4
  | Int64 | Uint64 | Float64 => 8
  end.

(** [EncodeInt8] ... [EncodeUint64], [EncodeFloat32], [EncodeFloat64]: the
    code and the big-endian bytes of the number. *)
Definition encode_num (k : NumKind) (n : Z) : bytes :=
  num_code k :: be_bytes (num_width k) n.

(** [EncodeUint]: 1, 2, 3, 5 or 9 bytes. *)
Definition EncodeUint (n : Z) : bytes :=
  if n <=? 127 then [byte_of_Z n]
  else if n <=? 255 then encode_num Uint8 n
  else if n <=? 65535 then encode_num Uint16 n
  else if n <=? 4294967295 then encode_num Uint32 n
  else encode_num Uint64 n.

(** [EncodeInt]: 1, 2, 3, 5 or 9 bytes. *)
Definition EncodeInt (n : Z) : bytes :=
  if 0 <=? n then EncodeUint n
  else if -32 <=? n then [byte_of_Z n]
  else if -128 <=? n then encode_num Int8 n
  else if -32768 <=? n then encode_num Int16 n
  else if -2147483648 <=? n then encode_num Int32 n
  else encode_num Int64 n.

Fixpoint encode (ord : RangeOrder) (v : Value) : result bytes :=
  match v with
  | VNil => Ok [xc0]
  | VBool b => Ok [if b then xc3 else xc2]
  | VString s => Ok (encode_string s)
  | VInt n => Ok (EncodeInt n)
  | VUint n => Ok (EncodeUint n)
  | VNum k n => Ok (encode_num k n)
  | VBytes b => Ok (bin_header (Z.of_nat (length b)) ++ b)
  | VSlice l =>
      let* body :=
        (fix elems (l : list Value) : result bytes :=
           match l with
           | [] => Ok []
           | x :: r =>
               let* a := encode ord x in
               let* b := elems r in Ok (a ++ b)
           end) l in
      Ok (array_header (Z.of_nat (length l)) ++ body)
  | VMap m =>
      let* entries :=
        (fix elems (m : list (string * Value)) : result (list bytes) :=
           match m with
           | [] => Ok []
           | (k, x) :: r =>
               let* a := encode ord x in
               let* b := elems r in Ok ((encode_string k ++ a) :: b)
           end) m in
      Ok (map_header (Z.of_nat (length m)) ++ concat (ord _ entries))
  | VStruct fs =>
      let* entries :=
        (fix elems (m : list (string * Value)) : result (list bytes) :=
           match m with
           | [] => Ok []
           | (k, x) :: r =>
               let* a := encode ord x in
               let* b := elems r in Ok ((encode_string k ++ a) :: b)
           end) fs in
      Ok (map_header (Z.of_nat (length fs)) ++ concat entries)
  | VChan => Err ErrMarshal
  end.

(** [msgpack.Marshal]. *)
Definition Marshal (ord : RangeOrder) (v : Value) : result bytes :=
  match encode ord v with
  | Ok b => Ok b
  | Err _ => Err ErrMarshal
  end.

End Msgpack.

(** No Go map with two or more entries occurs in the value: its encoding
    then has no choice of order to make. *)
Fixpoint ordered (v : Value) : bool :=
  match v with
  | VSlice l => forallb ordered l
  | VMap m =>
      (length m <=? 1)%nat &&
      (fix all (m : list (string * Value)) : bool :=
         match m with
         | [] => true
         | (_, x) :: r => ordered x && all r
         end) m
  | VStruct fs =>
      (fix all (m : list (string * Value)) : bool :=
         match m with
         | [] => true
         | (_, x) :: r => ordered x && all r
         end) fs
  | _ => true
  end.

(** ** Action hashing: AddressToBytes, ActionHash *)

Definition AddressToBytes (address : string) : result bytes :=
  if negb (IsHexAddress address) then Err ErrInvalidAddress
  else DecodeString (TrimPrefix0x address).

(** The bytes that [ActionHash] hands to the hash function. *)
Definition ActionHash_data (ord : RangeOrder) (action : Value)
    (vaultAddress : string) (nonce : Z) : result bytes :=
  let* data := Msgpack.Marshal ord action in
  let nonceBytes := PutUint64 nonce in
  let data := data ++ nonceBytes in
  if String.eqb vaultAddress "" then Ok (data ++ [x00])
  else
    let data := data ++ [x01] in
    let* addrBytes := AddressToBytes vaultAddress in
    Ok (data ++ addrBytes).

Definition ActionHash (ord : RangeOrder) (action : Value)
    (vaultAddress : string) (nonce : Z) : result bytes :=
  let* data := ActionHash_data ord action vaultAddress nonce in
  Ok (Keccak256 data).

(** ** Phantom agent: ConstructPhantomAgent *)

Definition ConstructPhantomAgent (hash : bytes) (isMainnet : bool)
  : gmap string Value :=
  let source := "a" in
  let source := if negb isMainnet then "b" else source in
  {[ "source" := VString source;
     "connectionId" := VString (hexutil_Encode hash) ]}.

(** ** Signature verification: HashMessage, VerifySignature *)

(** The fields [R], [S] and [V] of the Go struct. *)
Record Signature : Type := mkSignature {
  sig_R : string;
  sig_S : string;
  sig_V : Z
}.

Definition HashMessage (message : bytes) : bytes :=
  let prefix :=
    String.append (String (ascii_of_nat 25) "Ethereum Signed Message:")
      (String (ascii_of_nat 10) (string_of_N (N.of_nat (length message)))) in
  Keccak256 (bytes_of_string prefix ++ message).

(** The elliptic-curve primitives of go-ethereum's [crypto] package, which
    the verifier only calls. *)
Class Secp256k1 : Type := {
  PublicKey : Type;
  Ecrecover : bytes -> bytes -> result bytes;
  UnmarshalPubkey : bytes -> result PublicKey;
  PubkeyToAddress : PublicKey -> bytes
}.

Section Verify.
Context `{Secp256k1}.

Definition VerifySignature (address : string) (message : bytes)
    (sig : Signature) : result bool :=
  if negb (IsHexAddress address) then Err ErrInvalidAddress
  else
    let* addrBytes := AddressToBytes address in
    match hexutil_Decode (sig_R sig) with
    | Err _ => Err ErrInvalidR
    | Ok r =>
        match hexutil_Decode (sig_S sig) with
        | Err _ => Err ErrInvalidS
        | Ok s =>
            let hash := HashMessage message in
            match Ecrecover hash ((r ++ s) ++ [byte_of_Z (sig_V sig)]) with
            | Err _ => Err ErrRecover
            | Ok pubKey =>
                match UnmarshalPubkey pubKey with
                | Err _ => Err ErrUnmarshalPubkey
                | Ok ecdsaPubKey =>
                    let recoveredAddr := PubkeyToAddress ecdsaPubKey in
                    Ok (bytes_eqb recoveredAddr addrBytes)
                end
            end
        end
    end.

End Verify.
(** ** Typed data: EIP712Domain, createEIP712TypedData *)

Record EIP712Domain : Type := mkDomain {
  Domain_Name : string;
  Domain_Version : string;
  ChainID : Z;
  VerifyingContract : string
}.

Definition ToMap (d : EIP712Domain) : gmap string Value :=
  {[ "name" := VString (Domain_Name d);
     "version" := VString (Domain_Version d);
     "chainId" := VInt64 (ChainID d);
     "verifyingContract" := VString (VerifyingContract d) ]}.

Definition DefaultExchangeDomain : EIP712Domain :=
  mkDomain "Exchange" "1" 1337 "0x0000000000000000000000000000000000000000".

Definition DefaultHyperliquidDomain : EIP712Domain :=
  mkDomain "HyperliquidSignTransaction" "1" 421614
    "0x0000000000000000000000000000000000000000".

Definition SignatureTypesToMap (types : list SignatureType) : Value :=
  VSlice (List.map
    (fun t => VMap [("name", VString (Name t)); ("type", VString (Type_ t))])
    types).

(** A Go map held in an [interface{}]: its current entries. *)
Definition map_value (m : gmap string Value) : Value := VMap (map_to_list m).

Definition createEIP712TypedData (domain : EIP712Domain) (primaryType : string)
    (message : gmap string Value) (types : gmap string (list SignatureType))
  : gmap string Value :=
  let typesMap : gmap string Value := SignatureTypesToMap <$> types in
  let typesMap := <["EIP712Domain" := SignatureTypesToMap EIP712DomainFields]> typesMap in
  {[ "domain" := map_value (ToMap domain);
     "primaryType" := VString primaryType;
     "types" := map_value typesMap;
     "message" := map_value message ]}.

(** ** The caller's maps and the wallet

    A Go map is a reference: the [action] argument of the signing
    functions names an object that the caller still holds after the call.
    The maps that matter for this are kept in a store, addressed by
    location; [signed] records, oldest first, every buffer that was handed
    to the wallet's [SignMessage]. *)

Definition loc : Type := positive.

Record World : Type := mkWorld {
  maps : gmap loc (gmap string Value);
  signed : list bytes
}.

(** The signing capability: the core sees the two methods only. *)
Record Wallet : Type := mkWallet {
  SignMessage : bytes -> result Signature;
  Address : bytes
}.

(** The entries of the map at [l]; a location that holds nothing reads as
    the nil map, which ranges like an empty one. *)
Definition entries (w : World) (l : loc) : gmap string Value :=
  default ∅ (maps w !! l).

(** [make(map[string]interface{}, n)]. *)
Definition make_map (w : World) : loc * World :=
  let l := fresh (dom (maps w)) in
  (l, mkWorld (<[l := ∅]> (maps w)) (signed w)).

(** [m[k] = v] for the map at [l]. *)
Definition map_assign (l : loc) (k : string) (v : Value) (w : World) : World :=
  mkWorld (<[l := <[k := v]> (entries w l)]> (maps w)) (signed w).

(** [for k, v := range src { dst[k] = v }]. *)
Definition range_copy (ord : RangeOrder) (src dst : loc) (w : World) : World :=
  foldl (fun w kv => map_assign dst (fst kv) (snd kv) w) w
    (ord _ (map_to_list (entries w src))).

(** [wallet.SignMessage(buf)], recorded. *)
Definition call_SignMessage (wallet : Wallet) (buf : bytes) (w : World)
  : result Signature * World :=
  (SignMessage wallet buf, mkWorld (maps w) (signed w ++ [buf])).

(** ** Multi-signature fields: AddMultiSigFields *)

Definition AddMultiSigFields `{CaseTables} (ord : RangeOrder) (action : loc)
    (payloadMultiSigUser outerSigner : string) (w : World) : loc * World :=
  let '(result, w) := make_map w in
  let w := range_copy ord action result w in
  let w := map_assign result "payloadMultiSigUser"
             (VString (ToLower payloadMultiSigUser)) w in
  let w := map_assign result "outerSigner" (VString (ToLower outerSigner)) w in
  (result, w).

(** ** User-signed actions: SignUserSignedAction *)

Definition SignUserSignedAction (ord : RangeOrder) (wallet : Wallet)
    (action : loc) (payloadTypes : list SignatureType) (primaryType : string)
    (isMainnet : bool) (w : World) : result Signature * World :=
  let '(actionCopy, w) := make_map w in
  let w := range_copy ord action actionCopy w in
  let w := map_assign actionCopy "signatureChainId" (VString "0x66eee") w in
  let w :=
    if isMainnet
    then map_assign actionCopy "hyperliquidChain" (VString "Mainnet") w
    else map_assign actionCopy "hyperliquidChain" (VString "Testnet") w in
  let types : gmap string (list SignatureType) := {[ primaryType := payloadTypes ]} in
  let typedData :=
    createEIP712TypedData DefaultHyperliquidDomain primaryType
      (entries w actionCopy) types in
  match Msgpack.Marshal ord (map_value typedData) with
  | Err _ => (Err ErrMarshal, w)
  | Ok encodedData => call_SignMessage wallet encodedData w
  end.

(** The check that the specification asks of the user-signed flow: every
    field of the action is named in the field-type list. *)
Definition fields_declared (action : gmap string Value)
    (payloadTypes : list SignatureType) : bool :=
  forallb (fun k => existsb (fun t => String.eqb (Name t) k) payloadTypes)
    (List.map fst (map_to_list action)).
(** ** Auxiliary definitions used in the statements *)

(** *** Multi-signature field types *)

Definition hyperliquidChain_type : SignatureType :=
  mkSignatureType "hyperliquidChain" "string".

Definition payloadMultiSigUser_type : SignatureType :=
  mkSignatureType "payloadMultiSigUser" "address".

Definition outerSigner_type : SignatureType :=
  mkSignatureType "outerSigner" "address".

Definition is_chain (t : SignatureType) : bool :=
  String.eqb (Name t) "hyperliquidChain".

(** What the loop of [AddMultiSigTypes] appends for one field. *)
Definition splice_one (t : SignatureType) : list SignatureType :=
  if is_chain t then [t; payloadMultiSigUser_type; outerSigner_type] else [t].

(** *** Numbers *)

Definition f_1_25 : float64 := F64.of_ratio false 5 4.   (* 1.25 *)

Definition f_1_5 : float64 := F64.of_ratio false 3 2.    (* 1.5 *)

Definition f_2_5 : float64 := F64.of_ratio false 5 2.    (* 2.5 *)


(** Every answer in the cache is the one that the conversion computes at
    [places]. *)
Definition cache_sound (places : Z) (cache : Cache) : Prop :=
  forall y d, cache_lookup cache y = Some d -> convert y places = Ok d.

(** *** Orders *)

(** An order with both arms of its type set. *)
Definition both_arms_order : OrderRequest :=
  mkOrderRequest "ETH" true (F64.of_Z 1) (F64.of_Z 2)
    (mkOrderType (Some (mkLimit "Gtc"))
                 (Some (mkTrigger (F64.of_Z 3) true "tp")))
    false None.

(** An order with neither arm set. *)
Definition no_arm_order : OrderRequest :=
  mkOrderRequest "ETH" true (F64.of_Z 1) (F64.of_Z 2)
    (mkOrderType None None) false None.

(** *** Maps, actions and wallets *)

(** One step of a copy loop on the entries themselves. *)
Definition assign (m : gmap string Value) (kv : string * Value)
  : gmap string Value := <[fst kv := snd kv]> m.

(** The action map with the two fields that [SignUserSignedAction]
    injects. *)
Definition injected (isMainnet : bool) (m : gmap string Value)
  : gmap string Value :=
  <["hyperliquidChain" := VString (if isMainnet then "Mainnet" else "Testnet")]>
    (<["signatureChainId" := VString "0x66eee"]> m).

(** The envelope that [SignUserSignedAction] serializes for an action
    with the entries [m]. *)
Definition user_signed_typed_data (primaryType : string)
    (payloadTypes : list SignatureType) (isMainnet : bool)
    (m : gmap string Value) : gmap string Value :=
  createEIP712TypedData DefaultHyperliquidDomain primaryType
    (injected isMainnet m) {[ primaryType := payloadTypes ]}.

(** A USD-send action with one field more than its type list names. *)
Definition usd_send_with_extra : gmap string Value :=
  {[ "destination" := VString "0xaaaaaaaaaaaaaaaaaaaaaaaaaaaaaaaaaaaaaaaa";
     "amount" := VString "1";
     "time" := VUint64 5;
     "extra" := VString "boo" ]}.

Definition one_action_world : World :=
  mkWorld {[ 1%positive := usd_send_with_extra ]} [].

(** A wallet that signs everything with the same signature. *)
Definition fixed_wallet : Wallet :=
  mkWallet (fun _ => Ok (mkSignature "0x01" "0x02" 27)) [].

(** A Go map with two entries. *)
Definition two_entry_map : Value :=
  VMap [("a", VString "x"); ("b", VString "y")].

(** The wire structs as msgpack sees them: a struct is written as a map
    from the tags of its fields, in declaration order; a nil pointer
    tagged [omitempty] is left out, and any other nil pointer is written
    as nil. *)
Definition LimitOrderType_value (l : LimitOrderType) : Value :=
  VStruct [("tif", VString (TIF l))].

Definition TriggerOrderTypeWire_value (t : TriggerOrderTypeWire) : Value :=
  VStruct [ ("triggerPx", VString (wire_TriggerPx t));
            ("isMarket", VBool (wire_IsMarket t));
            ("tpsl", VString (wire_TPSL t)) ].

Definition OrderTypeWire_value (t : OrderTypeWire) : Value :=
  VStruct
    (match wire_Limit t with
     | Some l => [("limit", LimitOrderType_value l)]
     | None => []
     end ++
     match wire_Trigger t with
     | Some g => [("trigger", TriggerOrderTypeWire_value g)]
     | None => []
     end).

Definition OrderWire_value (o : OrderWire) : Value :=
  VStruct [ ("a", VInt (wire_Asset o));
            ("b", VBool (wire_IsBuy o));
            ("p", VString (wire_Price o));
            ("s", VString (wire_Size o));
            ("r", VBool (wire_ReduceOnly o));
            ("t", OrderTypeWire_value (wire_Type o));
            ("c", match wire_Cloid o with
                  | Some c => VString c
                  | None => VNil
                  end) ].

(** A limit order in wire form: asset 4, buy, price 2, size 1. *)
Definition limit_wire : OrderWire :=
  mkOrderWire 4 true "2" "1" false
    (mkOrderTypeWire (Some (mkLimit "Gtc")) None) None.

(** A struct-valued action, the [OrderAction] of one limit order without
    builder: tagged fields in declaration order, slices and nested
    structs, and no Go map. *)
Definition struct_action : Value :=
  VStruct [ ("type", VString "order");
            ("orders", VSlice [OrderWire_value limit_wire]);
            ("grouping", VString "na") ].

(** The same action for a sell order. *)
Definition struct_action_sell : Value :=
  VStruct [ ("type", VString "order");
            ("orders",
             VSlice [OrderWire_value
                       (mkOrderWire 4 false "2" "1" false
                          (mkOrderTypeWire (Some (mkLimit "Gtc")) None) None)]);
            ("grouping", VString "na") ].

(** The case tables cut down to the runes below U+0100, for the
    examples, which use no others: the capital letters of Latin-1 lie 32
    below their small letters. *)
Definition latin1_tables : CaseTables :=
  {| To_LowerCase := fun r =>
       if (0xC0 <=? r) && (r <=? 0xDE) && negb (r =? 0xD7) then r + 32
       else r |}.

(** *** Addresses and curves *)

Definition vault_upper : string := "0xABCDEFABCDEFABCDEFABCDEFABCDEFABCDEFABCD".
Definition vault_lower : string := "0xabcdefabcdefabcdefabcdefabcdefabcdefabcd".
Definition vault_bare : string := "abcdefabcdefabcdefabcdefabcdefabcdefabcd".
Definition vault_0X : string := "0Xabcdefabcdefabcdefabcdefabcdefabcdefabcd".

(** An address that [IsHexAddress] accepts with the upper-case prefix. *)
Definition upper_prefix (s : string) : bool :=
  match s with
  | String "0" (String "X" _) => true
  | _ => false
  end.

(** The bytes that [ActionHash] appends for the vault address. *)
Definition vault_tag (vaultAddress : string) : result bytes :=
  if String.eqb vaultAddress "" then Ok [x00]
  else let* addrBytes := AddressToBytes vaultAddress in Ok (x01 :: addrBytes).

(** *** Reading the encoding back *)

(** The nested loops of [Msgpack.encode], by name. *)
Definition encode_slice (ord : RangeOrder) : list Value -> result bytes :=
  fix elems (l : list Value) : result bytes :=
    match l with
    | [] => Ok []
    | x :: r =>
        let* a := Msgpack.encode ord x in
        let* b := elems r in Ok (a ++ b)
    end.

Definition encode_entries (ord : RangeOrder)
  : list (string * Value) -> result (list bytes) :=
  fix elems (m : list (string * Value)) : result (list bytes) :=
    match m with
    | [] => Ok []
    | (k, x) :: r =>
        let* a := Msgpack.encode ord x in
        let* b := elems r in Ok ((Msgpack.encode_string k ++ a) :: b)
    end.

(** The value of a big-endian byte sequence. *)
Definition be_to_Z (b : bytes) : Z :=
  fold_left (fun acc x => acc * 256 + Z_of_byte x) b 0.

(** The values that the Go type of a number holds; a float is held by
    its bits. *)
Definition in_range (k : NumKind) (n : Z) : bool :=
  match k with
  | Int8 => (- 2 ^ 7 <=? n) && (n <? 2 ^ 7)
  | Int16 => (- 2 ^ 15 <=? n) && (n <? 2 ^ 15)
  | Int32 => (- 2 ^ 31 <=? n) && (n <? 2 ^ 31)
  | Int64 => (- 2 ^ 63 <=? n) && (n <? 2 ^ 63)
  | Uint8 => (0 <=? n) && (n <? 2 ^ 8)
  | Uint16 => (0 <=? n) && (n <? 2 ^ 16)
  | Uint32 | Float32 => (0 <=? n) && (n <? 2 ^ 32)
  | Uint64 | Float64 => (0 <=? n) && (n <? 2 ^ 64)
  end.

(** The value is one that a Go program can hold and MessagePack can
    frame: every number lies in the range of its type ([int] and [uint]
    have 64 bits), and no string, byte sequence, slice or map has 2^32 or
    more elements, the largest length that a header can carry. *)
Fixpoint sized (v : Value) : bool :=
  match v with
  | VString s => Z.of_nat (String.length s) <? 2 ^ 32
  | VInt n => in_range Int64 n
  | VUint n => in_range Uint64 n
  | VNum k n => in_range k n
  | VBytes b => Z.of_nat (length b) <? 2 ^ 32
  | VSlice l => (Z.of_nat (length l) <? 2 ^ 32) && forallb sized l
  | VMap m | VStruct m =>
      (Z.of_nat (length m) <? 2 ^ 32) &&
      (fix all (m : list (string * Value)) : bool :=
         match m with
         | [] => true
         | (k, x) :: r =>
             (Z.of_nat (String.length k) <? 2 ^ 32) && sized x && all r
         end) m
  | _ => true
  end.

(** What one position of a value holds: a scalar, or the length of a
    slice or of a map or struct.  An integer is held by its value,
    whatever the width of its Go type. *)
Inductive Scalar : Type :=
| SNil
| SBool (b : bool)
| SInt (n : Z)
| SFloat32 (bits : Z)
| SFloat64 (bits : Z)
| SStr (s : string)
| SBin (b : bytes)
| SArray (len : nat)
| SMap (len : nat).

(** The way from a value to a position in it: the index in a slice, the
    key in a map, the tag in a struct. *)
Inductive Step : Type :=
| Index (i : nat)
| Key (k : string).

(** A field: a position of a value and what it holds. *)
Definition Field : Type := list Step * Scalar.

Definition under (s : Step) (f : Field) : Field := (s :: fst f, snd f).

Definition num_scalar (k : NumKind) (n : Z) : Scalar :=
  match k with
  | Float32 => SFloat32 n
  | Float64 => SFloat64 n
  | _ => SInt n
  end.

(** The fields of consecutive elements, given element by element, the
    first at index [i]. *)
Fixpoint at_indices (i : nat) (gs : list (list Field)) : list Field :=
  match gs with
  | [] => []
  | g :: r => List.map (under (Index i)) g ++ at_indices (S i) r
  end.

(** Every field of a value, nested ones included; the fields of a map
    are listed in the order of its entries. *)
Fixpoint fields (v : Value) : list Field :=
  match v with
  | VNil => [([], SNil)]
  | VBool b => [([], SBool b)]
  | VString s => [([], SStr s)]
  | VInt n | VUint n => [([], SInt n)]
  | VNum k n => [([], num_scalar k n)]
  | VBytes b => [([], SBin b)]
  | VSlice l => ([], SArray (length l)) :: at_indices 0 (List.map fields l)
  | VMap m | VStruct m =>
      ([], SMap (length m)) ::
      concat (List.map (fun kv => List.map (under (Key (fst kv)))
                                    (fields (snd kv))) m)
  | VChan => []
  end.

(** A reader for the encoding: [read fuel b] reads the one value that
    starts [b] and returns its fields together with the bytes that follow
    it.  It looks at the bytes only, so two encodings that start the same
    byte sequence hold the same fields and end at the same place. *)
Definition Reader (A : Type) : Type := bytes -> option (A * bytes).

Definition take_bytes (n : Z) : Reader bytes :=
  fun b =>
    if n <=? Z.of_nat (length b)
    then Some (firstn (Z.to_nat n) b, skipn (Z.to_nat n) b)
    else None.

Definition with_length {A : Type} (k : nat) (b : bytes)
    (cont : Z -> Reader A) : option (A * bytes) :=
  if (k <=? length b)%nat then cont (be_to_Z (firstn k b)) (skipn k b)
  else None.

(** The two's complement reading of a number of [k] bytes. *)
Definition twos_complement (k : nat) (z : Z) : Z :=
  if z <? 2 ^ (8 * Z.of_nat k - 1) then z else z - 2 ^ (8 * Z.of_nat k).

Definition leaf (s : Scalar) : Reader (list Field) :=
  fun r => Some ([([], s)], r).

Definition read_text (n : Z) : Reader string :=
  fun b =>
    match take_bytes n b with
    | Some (s, r) => Some (string_of_list_byte s, r)
    | None => None
    end.

Definition read_string : Reader string :=
  fun b =>
    match b with
    | [] => None
    | h :: t =>
        let z := Z_of_byte h in
        if (0xa0 <=? z) && (z <? 0xc0) then read_text (z - 0xa0) t
        else if z =? 0xd9 then with_length 1 t read_text
        else if z =? 0xda then with_length 2 t read_text
        else if z =? 0xdb then with_length 4 t read_text
        else None
    end.

Fixpoint read_many (rd : Reader (list Field)) (i n : nat)
  : Reader (list Field) :=
  fun b =>
    match n with
    | O => Some ([], b)
    | S k =>
        match rd b with
        | Some (fs, r) =>
            match read_many rd (S i) k r with
            | Some (gs, r') => Some (List.map (under (Index i)) fs ++ gs, r')
            | None => None
            end
        | None => None
        end
    end.

Fixpoint read_entries (rd : Reader (list Field)) (n : nat)
  : Reader (list Field) :=
  fun b =>
    match n with
    | O => Some ([], b)
    | S k =>
        match read_string b with
        | Some (key, r) =>
            match rd r with
            | Some (fs, r') =>
                match read_entries rd k r' with
                | Some (gs, r'') =>
                    Some (List.map (under (Key key)) fs ++ gs, r'')
                | None => None
                end
            | None => None
            end
        | None => None
        end
    end.

Definition headed (s : Scalar) (body : Reader (list Field))
  : Reader (list Field) :=
  fun b =>
    match body b with
    | Some (fs, r) => Some (([], s) :: fs, r)
    | None => None
    end.

Fixpoint read (fuel : nat) (b : bytes) : option (list Field * bytes) :=
  match fuel with
  | O => None
  | S f =>
      match b with
      | [] => None
      | h :: t =>
          let z := Z_of_byte h in
          let unsigned := fun k => with_length k t (fun n => leaf (SInt n)) in
          let twos := fun k =>
            with_length k t (fun n => leaf (SInt (twos_complement k n))) in
          let text := fun b =>
            match read_string b with
            | Some (s, r) => leaf (SStr s) r
            | None => None
            end in
          let binary := fun n r =>
            match take_bytes n r with
            | Some (x, r') => leaf (SBin x) r'
            | None => None
            end in
          let array := fun n =>
            headed (SArray (Z.to_nat n)) (read_many (read f) 0 (Z.to_nat n)) in
          let map := fun n =>
            headed (SMap (Z.to_nat n)) (read_entries (read f) (Z.to_nat n)) in
          if z <? 0x80 then leaf (SInt z) t
          else if 0xe0 <=? z then leaf (SInt (z - 256)) t
          else if z =? 0xc0 then leaf SNil t
          else if z =? 0xc2 then leaf (SBool false) t
          else if z =? 0xc3 then leaf (SBool true) t
          else if z =? 0xcc then unsigned 1%nat
          else if z =? 0xcd then unsigned 2%nat
          else if z =? 0xce then unsigned 4%nat
          else if z =? 0xcf then unsigned 8%nat
          else if z =? 0xd0 then twos 1%nat
          else if z =? 0xd1 then twos 2%nat
          else if z =? 0xd2 then twos 4%nat
          else if z =? 0xd3 then twos 8%nat
          else if z =? 0xca then
            with_length 4 t (fun n => leaf (SFloat32 n))
          else if z =? 0xcb then
            with_length 8 t (fun n => leaf (SFloat64 n))
          else if (0xa0 <=? z) && (z <? 0xc0) || (z =? 0xd9) || (z =? 0xda)
                  || (z =? 0xdb) then text b
          else if z =? 0xc4 then with_length 1 t binary
          else if z =? 0xc5 then with_length 2 t binary
          else if z =? 0xc6 then with_length 4 t binary
          else if (0x90 <=? z) && (z <? 0xa0) then array (z - 0x90) t
          else if z =? 0xdc then with_length 2 t array
          else if z =? 0xdd then with_length 4 t array
          else if (0x80 <=? z) && (z <? 0x90) then map (z - 0x80) t
          else if z =? 0xde then with_length 2 t map
          else if z =? 0xdf then with_length 4 t map
          else None
      end
  end.

(** The reader reads the fields [g] off the byte sequence [c] and stops
    at its end, given enough fuel. *)
Definition reads (f : nat) (c : bytes) (g : list Field) : Prop :=
  forall r, (length (c ++ r) < f)%nat -> read f (c ++ r) = Some (g, r).

(** The same for one entry of a map: its key and its value. *)
Definition reads_entry (f : nat) (c : bytes) (g : list Field) : Prop :=
  forall r, (length (c ++ r) < f)%nat ->
    read_entries (read f) 1 (c ++ r) = Some (g, r).

(** *** The curve secp256k1

    The primitives that [VerifySignature] calls, after go-ethereum's
    [crypto] package and the recovery of libsecp256k1, over the integers;
    the examples run the verifier on them. *)
Module Secp.

Definition P : Z := 2 ^ 256 - 2 ^ 32 - 977.
Definition N : Z :=
  0xFFFFFFFFFFFFFFFFFFFFFFFFFFFFFFFEBAAEDCE6AF48A03BBFD25E8CD0364141.
Definition Gx : Z :=
  0x79BE667EF9DCBBAC55A06295CE870B07029BFCDB2DCE28D959F2815B16F81798.
Definition Gy : Z :=
  0x483ADA7726A3C4655DA4FBFC0E1108A8FD17B448A68554199C47D08FFB10D4B8.

(** Reduction modulo [2^256 - c]: the part of [x] above 2^256 is folded
    back onto the rest, [c] times itself, until nothing is left of it;
    a negative number is reduced through its opposite. *)
Definition fold (c x : Z) : Z :=
  Z.land x (Z.ones 256) + Z.shiftr x 256 * c.

Definition reduce_small (c x : Z) : Z :=
  let m := 2 ^ 256 - c in
  let y := fold c (fold c (fold c (fold c x))) in
  if m <=? y then y - m else y.

Definition reduce (c x : Z) : Z :=
  let m := 2 ^ 256 - c in
  if (0 <=? x) && (x <? 2 ^ 512) then reduce_small c x
  else if (- 2 ^ 512 <? x) && (x <? 0) then
    let y := reduce_small c (- x) in
    if y =? 0 then 0 else m - y
  else x mod m.

Definition modP (x : Z) : Z := reduce (2 ^ 256 - P) x.
Definition modN (x : Z) : Z := reduce (2 ^ 256 - N) x.

Fixpoint pow_pos (red : Z -> Z) (b : Z) (e : positive) : Z :=
  match e with
  | xH => red b
  | xO e' => let h := pow_pos red b e' in red (h * h)
  | xI e' => let h := pow_pos red b e' in red (red (h * h) * b)
  end.

Definition pow (red : Z -> Z) (b e : Z) : Z :=
  match e with
  | Zpos e' => pow_pos red b e'
  | _ => red 1
  end.

(** A point in Jacobian coordinates; the third coordinate of the point at
    infinity is zero. *)
Definition Jacobian : Type := Z * Z * Z.

Definition infinity : Jacobian := (1, 1, 0).

Definition double (p : Jacobian) : Jacobian :=
  let '(x1, y1, z1) := p in
  if (z1 =? 0) || (y1 =? 0) then infinity
  else
    let a := modP (x1 * x1) in
    let b := modP (y1 * y1) in
    let c := modP (b * b) in
    let d := modP (2 * ((x1 + b) * (x1 + b) - a - c)) in
    let e := modP (3 * a) in
    let x3 := modP (e * e - 2 * d) in
    (x3, modP (e * (d - x3) - 8 * c), modP (2 * y1 * z1)).

Definition add (p q : Jacobian) : Jacobian :=
  let '(x1, y1, z1) := p in
  let '(x2, y2, z2) := q in
  if z1 =? 0 then q
  else if z2 =? 0 then p
  else
    let z1z1 := modP (z1 * z1) in
    let z2z2 := modP (z2 * z2) in
    let u1 := modP (x1 * z2z2) in
    let u2 := modP (x2 * z1z1) in
    let s1 := modP (y1 * z2 * z2z2) in
    let s2 := modP (y2 * z1 * z1z1) in
    let h := modP (u2 - u1) in
    let r := modP (s2 - s1) in
    if h =? 0 then (if r =? 0 then double p else infinity)
    else
      let hh := modP (h * h) in
      let hhh := modP (h * hh) in
      let v := modP (u1 * hh) in
      let x3 := modP (r * r - hhh - 2 * v) in
      (x3, modP (r * (v - x3) - s1 * hhh), modP (h * z1 * z2)).

Fixpoint mul_pos (k : positive) (p : Jacobian) : Jacobian :=
  match k with
  | xH => p
  | xO k' => double (mul_pos k' p)
  | xI k' => add (double (mul_pos k' p)) p
  end.

Definition mul (k : Z) (p : Jacobian) : Jacobian :=
  match k with
  | Zpos k' => mul_pos k' p
  | _ => infinity
  end.

Definition to_affine (p : Jacobian) : option (Z * Z) :=
  let '(x, y, z) := p in
  if z =? 0 then None
  else
    let zi := pow modP z (P - 2) in
    let zi2 := modP (zi * zi) in
    Some (modP (x * zi2), modP (y * zi2 * zi)).

Definition on_curve (x y : Z) : bool :=
  modP (y * y) =? modP (x * x * x + 7).

(** [secp256k1.RecoverPubkey]: the checks of the Go wrapper, then the
    recovery of libsecp256k1. *)
Definition Ecrecover (hash sig : bytes) : result bytes :=
  if negb (length hash =? 32)%nat then Err ErrRecover
  else if negb (length sig =? 65)%nat then Err ErrRecover
  else
    let r := be_to_Z (firstn 32 sig) in
    let s := be_to_Z (firstn 32 (skipn 32 sig)) in
    let recid := Z_of_byte (nth 64 sig x00) in
    if 4 <=? recid then Err ErrRecover
    else if (N <=? r) || (N <=? s) then Err ErrRecover
    else if (r =? 0) || (s =? 0) then Err ErrRecover
    else if Z.testbit recid 1 && (P - N <=? r) then Err ErrRecover
    else
      let x := if Z.testbit recid 1 then r + N else r in
      let y2 := modP (x * x * x + 7) in
      let y := pow modP y2 ((P + 1) / 4) in
      if negb (modP (y * y) =? y2) then Err ErrRecover
      else
        let y := if Bool.eqb (Z.odd y) (Z.testbit recid 0) then y else P - y in
        let rn := pow modN r (N - 2) in
        let z := modN (be_to_Z hash) in
        let u1 := modN (- (rn * z)) in
        let u2 := modN (rn * s) in
        match to_affine (add (mul u1 (Gx, Gy, 1)) (mul u2 (x, y, 1))) with
        | None => Err ErrRecover
        | Some (qx, qy) => Ok (x04 :: be_bytes 32 qx ++ be_bytes 32 qy)
        end.

(** [crypto.UnmarshalPubkey]: the uncompressed form only, both coordinates
    below the field prime, and the point on the curve. *)
Definition UnmarshalPubkey (pub : bytes) : result (Z * Z) :=
  if negb (length pub =? 65)%nat then Err ErrUnmarshalPubkey
  else if negb (Z_of_byte (nth 0 pub x00) =? 4) then Err ErrUnmarshalPubkey
  else
    let x := be_to_Z (firstn 32 (skipn 1 pub)) in
    let y := be_to_Z (skipn 33 pub) in
    if (P <=? x) || (P <=? y) then Err ErrUnmarshalPubkey
    else if negb (on_curve x y) then Err ErrUnmarshalPubkey
    else Ok (x, y).

(** [crypto.PubkeyToAddress]: the last twenty bytes of the Keccak-256
    digest of the two coordinates. *)
Definition PubkeyToAddress (key : Z * Z) : bytes :=
  skipn 12 (Keccak256 (be_bytes 32 (fst key) ++ be_bytes 32 (snd key))).

End Secp.

(** The curve as the verifier sees it. *)
Definition secp256k1 : Secp256k1 :=
  {| PublicKey := Z * Z;
     Ecrecover := Secp.Ecrecover;
     UnmarshalPubkey := Secp.UnmarshalPubkey;
     PubkeyToAddress := Secp.PubkeyToAddress |}.

(** The address of the private key 1, whose public key is the base point
    of the curve; with the lower-case and with the upper-case prefix. *)
Definition key_one_address : string :=
  "0x7E5F4552091A69125d5DfCb7b8C2659029395Bdf".

Definition key_one_address_0X : string :=
  "0X7E5F4552091A69125d5DfCb7b8C2659029395Bdf".

(** The ECDSA signature of the private key 1 on the personal-message
    digest of [message], made with the nonce 1: R is the base point, so
    r is its first coordinate, s is digest + r modulo the group order,
    and the recovery identifier is 0, the second coordinate being even. *)
Definition key_one_signature (message : bytes) : Signature :=
  let z := be_to_Z (HashMessage message) in
  mkSignature (hexutil_Encode (be_bytes 32 Secp.Gx))
              (hexutil_Encode (be_bytes 32 ((z + Secp.Gx) mod Secp.N))) 0.

Definition hello : bytes := bytes_of_string "hello".

(** ** Rounding: RoundFloat64 *)

Definition RoundFloat64 (x : float64) (places : Z) : float64 :=
  let scale := F64.Pow10 places in
  F64.div (F64.Round (F64.mul x scale)) scale.

(** ** Client order identifiers: GenerateRandomCloid

    [rand_Read n] stands for [crypto/rand.Read] on a buffer of [n] bytes:
    the bytes it filled in, or its error. *)
Definition GenerateRandomCloid (rand_Read : nat -> result bytes) : result string :=
  match rand_Read 16%nat with
  | Err e => Err e
  | Ok randBytes => Ok (EncodeToString randBytes)
  end.

(** ** L1 actions: SignL1Action *)

Definition SignL1Action (ord : RangeOrder) (wallet : Wallet) (action : Value)
    (vaultAddress : string) (nonce : Z) (isMainnet : bool) (w : World)
  : result Signature * World :=
  match ActionHash ord action vaultAddress nonce with
  | Err e => (Err e, w)
  | Ok hash =>
      let agentMessage := ConstructPhantomAgent hash isMainnet in
      let agentType :=
        [ mkSignatureType "source" "string";
          mkSignatureType "connectionId" "bytes32" ] in
      let types : gmap string (list SignatureType) := {[ "Agent" := agentType ]} in
      let typedData :=
        createEIP712TypedData DefaultExchangeDomain "Agent" agentMessage types in
      match Msgpack.Marshal ord (map_value typedData) with
      | Err _ => (Err ErrMarshal, w)
      | Ok encodedData => call_SignMessage wallet encodedData w
      end
  end.

(** ** Multi-signature payloads and envelopes *)

Definition SignMultiSigUserSignedActionPayload `{CaseTables} (ord : RangeOrder)
    (wallet : Wallet) (action : loc) (isMainnet : bool)
    (signTypes : list SignatureType) (txType : string)
    (payloadMultiSigUser outerSigner : string) (w : World)
  : result Signature * World :=
  if negb (IsHexAddress payloadMultiSigUser) then (Err ErrInvalidAddress, w)
  else if negb (IsHexAddress outerSigner) then (Err ErrInvalidAddress, w)
  else
    let '(envelope, w) :=
      AddMultiSigFields ord action payloadMultiSigUser outerSigner w in
    match AddMultiSigTypes signTypes with
    | Err e => (Err e, w)
    | Ok enrichedSignTypes =>
        SignUserSignedAction ord wallet envelope enrichedSignTypes txType
          isMainnet w
    end.

Definition SignMultiSigL1ActionPayload `{CaseTables} (ord : RangeOrder) (wallet : Wallet)
    (action : Value) (isMainnet : bool) (vaultAddress : string)
    (timestamp : Z) (payloadMultiSigUser outerSigner : string) (w : World)
  : result Signature * World :=
  if negb (IsHexAddress payloadMultiSigUser) then (Err ErrInvalidAddress, w)
  else if negb (IsHexAddress outerSigner) then (Err ErrInvalidAddress, w)
  else if negb (String.eqb vaultAddress "") && negb (IsHexAddress vaultAddress)
  then (Err ErrInvalidAddress, w)
  else
    let envelope :=
      VSlice [ VString (ToLower payloadMultiSigUser);
               VString (ToLower outerSigner);
               action ] in
    SignL1Action ord wallet envelope vaultAddress timestamp isMainnet w.

(** [for k, v := range src { if k != "type" { dst[k] = v } }]. *)
Definition range_copy_without_type (ord : RangeOrder) (src dst : loc)
    (w : World) : World :=
  foldl (fun w kv =>
           if negb (String.eqb (fst kv) "type")
           then map_assign dst (fst kv) (snd kv) w
           else w)
    w (ord _ (map_to_list (entries w src))).

Definition SignMultiSigAction (ord : RangeOrder) (wallet : Wallet)
    (action : loc) (isMainnet : bool) (vaultAddress : string) (nonce : Z)
    (w : World) : result Signature * World :=
  if negb (String.eqb vaultAddress "") && negb (IsHexAddress vaultAddress)
  then (Err ErrInvalidAddress, w)
  else
    let '(actionWithoutTag, w) := make_map w in
    let w := range_copy_without_type ord action actionWithoutTag w in
    match ActionHash ord (map_value (entries w actionWithoutTag))
            vaultAddress nonce with
    | Err e => (Err e, w)
    | Ok multiSigActionHash =>
        let '(envelope, w) := make_map w in
        let w := map_assign envelope "multiSigActionHash"
                   (VString (hexutil_Encode multiSigActionHash)) w in
        let w := map_assign envelope "nonce" (VUint64 nonce) w in
        SignUserSignedAction ord wallet envelope MultiSigEnvelopeSignTypes
          "HyperliquidTransaction:SendMultiSig" isMainnet w
    end.

(** ** Requests (actions.go, orders.go, types.go)

    The [errors.New] and [fmt.Errorf] sites of the request layer, which the
    functions above do not reach; [Cause e] is an error of one of those
    functions, passed on. *)
Inductive request_error : Type :=
| Cause (e : error)
| ErrMissingField (field : string)   (* "missing required field: ..." *)
| ErrNoOrders                        (* "no orders provided" *)
| ErrUnknownAsset (coin : string)    (* "unknown asset: ..." *)
| ErrNoOrderIDOrCloid                (* "either OrderID or Cloid must be
                                        specified" *)
| ErrCloidNotImplemented.            (* "modification by Cloid not
                                        implemented" *)

Inductive outcome (A : Type) : Type :=
| Done (a : A)
| Failed (e : request_error).
Arguments Done {A} a.
Arguments Failed {A} e.

Definition lift {A : Type} (r : result A) : outcome A :=
  match r with
  | Ok a => Done a
  | Err e => Failed (Cause e)
  end.

Definition lift_call {A W : Type} (r : result A * W) : outcome A * W :=
  (lift (fst r), snd r).

(** *** The typed signing functions of actions.go *)

(** [_, ok := m[k]]. *)
Definition present (m : gmap string Value) (k : string) : bool :=
  match m !! k with
  | Some _ => true
  | None => false
  end.

(** [s, ok := m[k].(string)]: the empty string and [false] when the key is
    missing or holds a value of another type. *)
Definition string_at (m : gmap string Value) (k : string) : string * bool :=
  match m !! k with
  | Some (VString s) => (s, true)
  | _ => ("", false)
  end.

Definition SpotTransferSignTypes : list SignatureType :=
  [ mkSignatureType "hyperliquidChain" "string";
    mkSignatureType "destination" "string";
    mkSignatureType "token" "string";
    mkSignatureType "amount" "string";
    mkSignatureType "time" "uint64" ].

Definition WithdrawSignTypes : list SignatureType :=
  [ mkSignatureType "hyperliquidChain" "string";
    mkSignatureType "destination" "string";
    mkSignatureType "amount" "string";
    mkSignatureType "time" "uint64" ].

Definition USDClassTransferSignTypes : list SignatureType :=
  [ mkSignatureType "hyperliquidChain" "string";
    mkSignatureType "amount" "string";
    mkSignatureType "toPerp" "bool";
    mkSignatureType "nonce" "uint64" ].


Definition AgentSignTypes : list SignatureType :=
  [ mkSignatureType "hyperliquidChain" "string";
    mkSignatureType "agentAddress" "address";
    mkSignatureType "agentName" "string";
    mkSignatureType "nonce" "uint64" ].

Definition BuilderFeeSignTypes : list SignatureType :=
  [ mkSignatureType "hyperliquidChain" "string";
    mkSignatureType "maxFeeRate" "string";
    mkSignatureType "builder" "address";
    mkSignatureType "nonce" "uint64" ].

Definition SignUSDTransferAction (ord : RangeOrder) (wallet : Wallet)
    (action : loc) (isMainnet : bool) (w : World) : outcome Signature * World :=
  let m := entries w action in
  if negb (present m "destination")
  then (Failed (ErrMissingField "destination"), w)
  else if negb (present m "amount") then (Failed (ErrMissingField "amount"), w)
  else if negb (present m "time") then (Failed (ErrMissingField "time"), w)
  else
    let '(destination, ok) := string_at m "destination" in
    if ok && negb (IsHexAddress destination)
    then (Failed (Cause ErrInvalidAddress), w)
    else lift_call (SignUserSignedAction ord wallet action USDSendSignTypes
                      "HyperliquidTransaction:UsdSend" isMainnet w).

Definition SignSpotTransferAction (ord : RangeOrder) (wallet : Wallet)
    (action : loc) (isMainnet : bool) (w : World) : outcome Signature * World :=
  let m := entries w action in
  if negb (present m "destination")
  then (Failed (ErrMissingField "destination"), w)
  else if negb (present m "token") then (Failed (ErrMissingField "token"), w)
  else if negb (present m "amount") then (Failed (ErrMissingField "amount"), w)
  else if negb (present m "time") then (Failed (ErrMissingField "time"), w)
  else
    let '(destination, ok) := string_at m "destination" in
    if ok && negb (IsHexAddress destination)
    then (Failed (Cause ErrInvalidAddress), w)
    else lift_call (SignUserSignedAction ord wallet action SpotTransferSignTypes
                      "HyperliquidTransaction:SpotSend" isMainnet w).

Definition SignWithdrawFromBridgeAction (ord : RangeOrder) (wallet : Wallet)
    (action : loc) (isMainnet : bool) (w : World) : outcome Signature * World :=
  let m := entries w action in
  if negb (present m "destination")
  then (Failed (ErrMissingField "destination"), w)
  else if negb (present m "amount") then (Failed (ErrMissingField "amount"), w)
  else if negb (present m "time") then (Failed (ErrMissingField "time"), w)
  else
    let '(destination, ok) := string_at m "destination" in
    if ok && negb (IsHexAddress destination)
    then (Failed (Cause ErrInvalidAddress), w)
    else lift_call (SignUserSignedAction ord wallet action WithdrawSignTypes
                      "HyperliquidTransaction:Withdraw" isMainnet w).

Definition SignUSDClassTransferAction (ord : RangeOrder) (wallet : Wallet)
    (action : loc) (isMainnet : bool) (w : World) : outcome Signature * World :=
  let m := entries w action in
  if negb (present m "amount") then (Failed (ErrMissingField "amount"), w)
  else if negb (present m "toPerp") then (Failed (ErrMissingField "toPerp"), w)
  else if negb (present m "nonce") then (Failed (ErrMissingField "nonce"), w)
  else lift_call (SignUserSignedAction ord wallet action
                    USDClassTransferSignTypes
                    "HyperliquidTransaction:UsdClassTransfer" isMainnet w).


Definition SignAgentAction (ord : RangeOrder) (wallet : Wallet)
    (action : loc) (isMainnet : bool) (w : World) : outcome Signature * World :=
  let m := entries w action in
  if negb (present m "agentAddress")
  then (Failed (ErrMissingField "agentAddress"), w)
  else if negb (present m "agentName")
  then (Failed (ErrMissingField "agentName"), w)
  else if negb (present m "nonce") then (Failed (ErrMissingField "nonce"), w)
  else
    let '(agentAddress, ok) := string_at m "agentAddress" in
    if ok && negb (IsHexAddress agentAddress)
    then (Failed (Cause ErrInvalidAddress), w)
    else lift_call (SignUserSignedAction ord wallet action AgentSignTypes
                      "HyperliquidTransaction:ApproveAgent" isMainnet w).

Definition SignApproveBuilderFeeAction (ord : RangeOrder) (wallet : Wallet)
    (action : loc) (isMainnet : bool) (w : World) : outcome Signature * World :=
  let m := entries w action in
  if negb (present m "maxFeeRate")
  then (Failed (ErrMissingField "maxFeeRate"), w)
  else if negb (present m "builder") then (Failed (ErrMissingField "builder"), w)
  else if negb (present m "nonce") then (Failed (ErrMissingField "nonce"), w)
  else
    let '(builder, ok) := string_at m "builder" in
    if ok && negb (IsHexAddress builder)
    then (Failed (Cause ErrInvalidAddress), w)
    else lift_call (SignUserSignedAction ord wallet action BuilderFeeSignTypes
                      "HyperliquidTransaction:ApproveBuilderFee" isMainnet w).

(** *** The action constructors of actions.go: the entries of the map
    that each one returns *)

Definition CreateUSDTransferAction `{CaseTables} (destination amount : string)
    (timestamp : Z) : gmap string Value :=
  {[ "destination" := VString (ToLower destination);
     "amount" := VString amount;
     "time" := VUint64 timestamp ]}.

Definition CreateSpotTransferAction `{CaseTables} (destination token amount : string)
    (timestamp : Z) : gmap string Value :=
  {[ "destination" := VString (ToLower destination);
     "token" := VString token;
     "amount" := VString amount;
     "time" := VUint64 timestamp ]}.

Definition CreateWithdrawAction `{CaseTables} (destination amount : string)
    (timestamp : Z) : gmap string Value :=
  {[ "destination" := VString (ToLower destination);
     "amount" := VString amount;
     "time" := VUint64 timestamp ]}.

Definition CreateUSDClassTransferAction (amount : string) (toPerp : bool)
    (nonce : Z) : gmap string Value :=
  {[ "amount" := VString amount;
     "toPerp" := VBool toPerp;
     "nonce" := VUint64 nonce ]}.

Definition CreateAgentAction `{CaseTables} (agentAddress agentName : string) (nonce : Z)
  : gmap string Value :=
  {[ "agentAddress" := VString (ToLower agentAddress);
     "agentName" := VString agentName;
     "nonce" := VUint64 nonce ]}.

Definition CreateApproveBuilderFeeAction `{CaseTables} (maxFeeRate builder : string)
    (nonce : Z) : gmap string Value :=
  {[ "maxFeeRate" := VString maxFeeRate;
     "builder" := VString (ToLower builder);
     "nonce" := VUint64 nonce ]}.

(** *** Orders in batches and modifications (orders.go) *)

Definition CreateLimitOrder (coin : string) (isBuy : bool) (size price : float64)
    (tif : string) (reduceOnly : bool) (cloid : option string) : OrderRequest :=
  mkOrderRequest coin isBuy size price
    (mkOrderType (Some (mkLimit tif)) None) reduceOnly cloid.

Definition CreateTriggerOrder (coin : string) (isBuy : bool)
    (size limitPrice triggerPrice : float64) (isMarket : bool) (tpsl : string)
    (reduceOnly : bool) (cloid : option string) : OrderRequest :=
  mkOrderRequest coin isBuy size limitPrice
    (mkOrderType None (Some (mkTrigger triggerPrice isMarket tpsl)))
    reduceOnly cloid.

(** The loop of [BatchOrdersToWire]: the slice built so far. *)
Fixpoint batch_loop (orders : list OrderRequest) (assetMap : gmap string Z)
    (wireOrders : list OrderWire) (cache : Cache)
  : outcome (list OrderWire) * Cache :=
  match orders with
  | [] => (Done wireOrders, cache)
  | order :: rest =>
      match assetMap !! Coin order with
      | None => (Failed (ErrUnknownAsset (Coin order)), cache)
      | Some asset =>
          match OrderRequestToOrderWire order asset cache with
          | (Err e, cache) => (Failed (Cause e), cache)
          | (Ok wireOrder, cache) =>
              batch_loop rest assetMap (wireOrders ++ [wireOrder]) cache
          end
      end
  end.

Definition BatchOrdersToWire (orders : list OrderRequest)
    (assetMap : gmap string Z) (cache : Cache)
  : outcome (list OrderWire) * Cache :=
  if (length orders =? 0)%nat then (Failed ErrNoOrders, cache)
  else batch_loop orders assetMap [] cache.

Record ModifyRequest : Type := mkModifyRequest {
  OrderID : Z;
  Modify_Cloid : option string;
  Order : OrderRequest
}.

Record ModifyWire : Type := mkModifyWire {
  wire_OrderID : Z;
  wire_Order : OrderWire
}.

(** [ModifyRequest.Validate]. *)
Definition ModifyRequest_Validate (m : ModifyRequest) : option request_error :=
  if (OrderID m =? 0) && negb (bool_decide (is_Some (Modify_Cloid m)))
  then Some ErrNoOrderIDOrCloid
  else option_map Cause (Validate (Order m)).

Definition CreateModifyRequest (orderID : Z) (newOrder : OrderRequest)
  : ModifyRequest :=
  mkModifyRequest orderID None newOrder.

Definition CreateModifyRequestByCloid (cloid : string) (newOrder : OrderRequest)
  : ModifyRequest :=
  let cloidCopy := cloid in
  mkModifyRequest 0 (Some cloidCopy) newOrder.

Definition ModifyRequestToWire (req : ModifyRequest) (assetMap : gmap string Z)
    (cache : Cache) : outcome ModifyWire * Cache :=
  match ModifyRequest_Validate req with
  | Some e => (Failed e, cache)
  | None =>
      match assetMap !! Coin (Order req) with
      | None => (Failed (ErrUnknownAsset (Coin (Order req))), cache)
      | Some asset =>
          match OrderRequestToOrderWire (Order req) asset cache with
          | (Err e, cache) => (Failed (Cause e), cache)
          | (Ok wireOrder, cache) =>
              if OrderID req <=? 0 then (Failed ErrCloidNotImplemented, cache)
              else (Done (mkModifyWire (OrderID req) wireOrder), cache)
          end
      end
  end.
(** ** Auxiliary definitions for the request layer and the signing flows *)

(** *** Numbers and the cache *)

(** The float is a positive real number: not NaN, not an infinity, not a
    zero and not negative. *)
Definition positive_finite (x : float64) : bool :=
  match x with
  | S754_finite false _ _ => true
  | _ => false
  end.

(** The exponents for which [math.Pow10] consults its tables. *)
Definition in_range_places : list Z :=
  List.map (fun k => Z.of_nat k - 323) (seq 0 632).


(** *** Orders *)


Definition trigger_order : OrderRequest :=
  CreateTriggerOrder "ETH" true (F64.of_Z 1) (F64.of_Z 2) (F64.of_Z 3)
    true "tp" false None.

Definition trigger_wire : OrderWire :=
  mkOrderWire 4 true "2" "1" false
    (mkOrderTypeWire None (Some (mkTriggerWire "3" true "tp"))) None.

Definition eth_is_4 : gmap string Z := {[ "ETH" := 4 ]}.

(** *** Serialization *)

(** The twenty bytes that the addresses [vault_upper], [vault_lower] and
    [vault_bare] spell. *)
Definition vault_bytes : bytes :=
  concat (repeat [xab; xcd; xef] 6) ++ [xab; xcd].

(** No channel, the value that msgpack refuses, occurs in the value. *)
Fixpoint encodable (v : Value) : bool :=
  match v with
  | VChan => false
  | VSlice l => forallb encodable l
  | VMap m | VStruct m =>
      (fix all (m : list (string * Value)) : bool :=
         match m with
         | [] => true
         | (_, x) :: r => encodable x && all r
         end) m
  | _ => true
  end.

Definition all_encodable (m : gmap string Value) : Prop :=
  map_Forall (fun _ v => encodable v = true) m.

(** *** Signing flows *)

(** The typed data that [SignL1Action] serializes for a digest. *)
Definition agent_typed_data (hash : bytes) (isMainnet : bool)
  : gmap string Value :=
  createEIP712TypedData DefaultExchangeDomain "Agent"
    (ConstructPhantomAgent hash isMainnet)
    {[ "Agent" := [ mkSignatureType "source" "string";
                    mkSignatureType "connectionId" "bytes32" ] ]}.

(** The envelope that [SignMultiSigAction] signs. *)
Definition multisig_envelope (multiSigActionHash : bytes) (nonce : Z)
  : gmap string Value :=
  {[ "multiSigActionHash" := VString (hexutil_Encode multiSigActionHash);
     "nonce" := VUint64 nonce ]}.

(** The entries that [AddMultiSigFields] returns for the entries [m]. *)
Definition with_multisig_fields `{CaseTables} (payloadMultiSigUser outerSigner : string)
    (m : gmap string Value) : gmap string Value :=
  <["outerSigner" := VString (ToLower outerSigner)]>
    (<["payloadMultiSigUser" := VString (ToLower payloadMultiSigUser)]> m).

(** An action with a type tag, and a store that holds it. *)
Definition tagged_action : gmap string Value :=
  {[ "type" := VString "usdSend"; "amount" := VString "1" ]}.

Definition tagged_action_world : World :=
  mkWorld {[ 1%positive := tagged_action ]} [].

(** The signature shared by the typed signing functions of actions.go. *)
Definition ActionSigner : Type :=
  RangeOrder -> Wallet -> loc -> bool -> World -> outcome Signature * World.

(** The address check of those functions on the entries [m]: it refuses a
    string that is not an address and lets everything else through, a
    value of another type included. *)
Definition address_refused (m : gmap string Value) (field : option string)
  : bool :=
  match field with
  | Some k =>
      match m !! k with
      | Some (VString s) => negb (IsHexAddress s)
      | _ => false
      end
  | None => false
  end.

(** [f] tests that the [required] fields are present, in this order, then
    the [address] field, and hands the action to [SignUserSignedAction]
    with [types] and [primaryType]; when it refuses, nothing changes. *)
Definition checks_then_signs (f : ActionSigner) (required : list string)
    (address : option string) (types : list SignatureType)
    (primaryType : string) : Prop :=
  forall ord wallet action isMainnet w,
    f ord wallet action isMainnet w =
    match List.find (fun k => negb (present (entries w action) k)) required with
    | Some k => (Failed (ErrMissingField k), w)
    | None =>
        if address_refused (entries w action) address
        then (Failed (Cause ErrInvalidAddress), w)
        else lift_call (SignUserSignedAction ord wallet action types
                          primaryType isMainnet w)
    end.

(** A store whose only map is a USD transfer built by its constructor,
    from an address with the upper-case prefix. *)
Definition usd_transfer_world `{CaseTables} : World :=
  mkWorld {[ 1%positive := CreateUSDTransferAction vault_0X "1" 5 ]} [].
(* ===================================================================== *)
(** * Part II: properties                                                 *)
(* ===================================================================== *)

(** ** Library models against published test vectors *)

Example keccak_empty :
  EncodeToString (Keccak256 []) =
  "c5d2460186f7233c927e7db2dcc703c0e500b653ca82273b7bfad8045d85a470".
Proof. vm_compute. reflexivity. Qed.

Example keccak_abc :
  EncodeToString (Keccak256 (bytes_of_string "abc")) =
  "4e03657aea45a94fc7d47ba826c8d667c0d1e6e33a64a036ec44f58fa12d6c45".
Proof. vm_compute. reflexivity. Qed.

Example keccak_fox :
  EncodeToString
    (Keccak256 (bytes_of_string "The quick brown fox jumps over the lazy dog")) =
  "4d741b6f1eb29cb2a9b9911c82f56fa8d73b04959d3d9d222895df6c0b28aa15".
Proof. vm_compute. reflexivity. Qed.

(** The sponge absorbs one block per step, so any fuel above the length
    of the message gives the same state: [Keccak256] never stops early. *)
Lemma sponge_fuel (f f' : nat) (st : list Z) (msg : bytes) :
  (length msg < f)%nat -> (length msg < f')%nat ->
  Keccak.sponge f st msg = Keccak.sponge f' st msg.
Proof.
  revert f' st msg. induction f as [|f IH]; intros f' st msg Hf Hf'; [lia|].
  destruct f' as [|f']; [lia|]. cbn [Keccak.sponge].
  destruct (length msg <? Keccak.rate)%nat eqn:E; [reflexivity|].
  apply IH; rewrite length_skipn; unfold Keccak.rate in *; lia.
Qed.
(** ** Bytes and hexadecimal text *)

Lemma Z_of_byte_range (b : byte) : 0 <= Z_of_byte b < 256.
Proof.
  unfold Z_of_byte. pose proof (Byte.to_N_bounded b) as Hb. lia.
Qed.

Lemma Z_of_byte_of_Z (z : Z) : Z_of_byte (byte_of_Z z) = z mod 256.
Proof.
  unfold Z_of_byte, byte_of_Z.
  assert (Hr : 0 <= z mod 256 < 256) by (apply Z.mod_pos_bound; lia).
  destruct (Byte.of_N (Z.to_N (z mod 256))) as [b|] eqn:E.
  - apply Byte.to_of_N in E. rewrite E. rewrite Z2N.id; lia.
  - apply Byte.of_N_None_iff in E. lia.
Qed.

Lemma byte_of_Z_of_byte (b : byte) : byte_of_Z (Z_of_byte b) = b.
Proof. destruct b; reflexivity. Qed.

Lemma byte_of_Z_inj (a b : Z) :
  0 <= a < 256 -> 0 <= b < 256 -> byte_of_Z a = byte_of_Z b -> a = b.
Proof.
  intros Ha Hb E. apply (f_equal Z_of_byte) in E.
  rewrite !Z_of_byte_of_Z, !Z.mod_small in E; lia.
Qed.

Lemma bytes_eqb_eq (a b : bytes) : bytes_eqb a b = true <-> a = b.
Proof.
  revert b. induction a as [|x a IH]; intros [|y b]; simpl; try easy.
  rewrite andb_true_iff, IH. split.
  - intros [E ->]. apply Byte.byte_dec_bl in E. now subst.
  - intros [= -> ->]. split; [now apply Byte.byte_dec_lb | reflexivity].
Qed.

Lemma hex_digits_of_byte (x : byte) :
  hex_value (hex_digit (Z_of_byte x / 16)) = Some (Z_of_byte x / 16) /\
  hex_value (hex_digit (Z_of_byte x mod 16)) = Some (Z_of_byte x mod 16) /\
  byte_of_Z (16 * (Z_of_byte x / 16) + Z_of_byte x mod 16) = x.
Proof. destruct x; vm_compute; auto. Qed.

(** Decoding undoes encoding: the text really is the hexadecimal form of
    the bytes. *)
Lemma DecodeString_EncodeToString (b : bytes) :
  DecodeString (EncodeToString b) = Ok b.
Proof.
  induction b as [|x b IH]; [reflexivity|].
  destruct (hex_digits_of_byte x) as (H1 & H2 & H3).
  cbn [EncodeToString DecodeString]. rewrite H1, H2, IH. cbn [bind].
  now rewrite H3.
Qed.

Lemma hexutil_Decode_Encode (b : bytes) :
  hexutil_Decode (hexutil_Encode b) = Ok b.
Proof. cbn. apply DecodeString_EncodeToString. Qed.

Lemma length_be_bytes (n : nat) (z : Z) : length (be_bytes n z) = n.
Proof. induction n; simpl; congruence. Qed.

(** ** C9: the phantom agent *)

(** C9.  [ConstructPhantomAgent] is a total function without a failure
    path: for every digest and network flag the structure it returns has
    exactly the two fields "source" and "connectionId"; "source" is "a" on
    mainnet and "b" otherwise, and "connectionId" is the hexadecimal
    encoding of the digest (0x-prefixed text that decodes back to it). *)
Theorem ConstructPhantomAgent_spec (hash : bytes) (isMainnet : bool) :
  ConstructPhantomAgent hash isMainnet !! "source"
    = Some (VString (if isMainnet then "a" else "b")) /\
  ConstructPhantomAgent hash isMainnet !! "connectionId"
    = Some (VString (hexutil_Encode hash)) /\
  dom (ConstructPhantomAgent hash isMainnet)
    = ({[ "source"; "connectionId" ]} : gset string) /\
  hexutil_Decode (hexutil_Encode hash) = Ok hash.
Proof.
  unfold ConstructPhantomAgent. cbv zeta. split; [|split; [|split]].
  - destruct isMainnet; simpl; now rewrite lookup_insert_eq.
  - rewrite lookup_insert_ne by done. now rewrite lookup_singleton_eq.
  - now rewrite dom_insert_L, dom_singleton_L.
  - apply hexutil_Decode_Encode.
Qed.

Example ConstructPhantomAgent_mainnet :
  map_to_list (ConstructPhantomAgent (Keccak256 []) true) =
  [ ("source", VString "a");
    ("connectionId",
     VString "0xc5d2460186f7233c927e7db2dcc703c0e500b653ca82273b7bfad8045d85a470") ].
Proof. vm_compute. reflexivity. Qed.

(** ** C5: multi-signature field types *)

Lemma enrich_spec (l acc : list SignatureType) (e : bool) :
  enrich l acc e = (acc ++ flat_map splice_one l, e || existsb is_chain l).
Proof.
  revert acc e. induction l as [|t l IH]; intros acc e; simpl.
  - now rewrite app_nil_r, orb_false_r.
  - unfold splice_one at 1. unfold is_chain at 1 2.
    destruct (String.eqb (Name t) "hyperliquidChain"); rewrite IH.
    + simpl. rewrite orb_true_r. now rewrite <- !app_assoc.
    + simpl. now rewrite <- !app_assoc.
Qed.

Lemma AddMultiSigTypes_spec (l : list SignatureType) :
  AddMultiSigTypes l =
  if existsb is_chain l then Ok (flat_map splice_one l)
  else Err ErrInvalidSignatureChain.
Proof.
  unfold AddMultiSigTypes. rewrite enrich_spec. simpl.
  now destruct (existsb is_chain l).
Qed.

(** Without a field named hyperliquidChain the enrichment fails. *)
Lemma AddMultiSigTypes_missing (l : list SignatureType) :
  existsb is_chain l = false ->
  AddMultiSigTypes l = Err ErrInvalidSignatureChain.
Proof. intros H. now rewrite AddMultiSigTypes_spec, H. Qed.

Lemma flat_map_splice_no_chain (l : list SignatureType) :
  existsb is_chain l = false -> flat_map splice_one l = l.
Proof.
  induction l as [|t l IH]; simpl; [easy|].
  intros H. apply orb_false_iff in H as [H1 H2].
  unfold splice_one at 1. rewrite H1. simpl. now rewrite IH.
Qed.

(** The first field named hyperliquidChain, at position [length pre], is
    followed at once by the two new fields, and everything before it is
    kept; each later field of that name adds two more elements. *)
Lemma AddMultiSigTypes_first (pre post : list SignatureType) (t : SignatureType) :
  existsb is_chain pre = false -> is_chain t = true ->
  exists rest,
    AddMultiSigTypes (pre ++ t :: post)
      = Ok (pre ++ t :: payloadMultiSigUser_type :: outerSigner_type :: rest) /\
    length rest = (length post + 2 * length (List.filter is_chain post))%nat.
Proof.
  intros Hpre Ht. exists (flat_map splice_one post). split.
  - rewrite AddMultiSigTypes_spec, existsb_app. simpl. rewrite Ht, orb_true_r.
    rewrite flat_map_app, (flat_map_splice_no_chain pre Hpre). simpl.
    unfold splice_one at 1. now rewrite Ht.
  - clear. induction post as [|u post IH]; simpl; [easy|].
    rewrite length_app, IH. unfold splice_one.
    destruct (is_chain u) eqn:E; simpl; lia.
Qed.

(** With exactly one such field the result has two more elements. *)
Lemma AddMultiSigTypes_single (pre post : list SignatureType) (t : SignatureType) :
  existsb is_chain pre = false -> is_chain t = true ->
  existsb is_chain post = false ->
  AddMultiSigTypes (pre ++ t :: post)
    = Ok (pre ++ t :: payloadMultiSigUser_type :: outerSigner_type :: post).
Proof.
  intros Hpre Ht Hpost.
  rewrite AddMultiSigTypes_spec, existsb_app. simpl. rewrite Ht, orb_true_r.
  rewrite flat_map_app, (flat_map_splice_no_chain pre Hpre). simpl.
  unfold splice_one at 1. rewrite Ht.
  now rewrite (flat_map_splice_no_chain post Hpost).
Qed.

(** C5.  On a list with two fields named hyperliquidChain the loop splices
    the two new fields after each of them: the result has [len + 4]
    elements, not [len + 2], and the pair is not only after the first. *)
Theorem AddMultiSigTypes_splices_every_chain :
  AddMultiSigTypes [hyperliquidChain_type; hyperliquidChain_type]
    = Ok [ hyperliquidChain_type; payloadMultiSigUser_type; outerSigner_type;
           hyperliquidChain_type; payloadMultiSigUser_type; outerSigner_type ] /\
  (forall r, AddMultiSigTypes [hyperliquidChain_type; hyperliquidChain_type] = Ok r ->
             length r <> (length [hyperliquidChain_type; hyperliquidChain_type] + 2)%nat).
Proof.
  split; [reflexivity|]. intros r H. vm_compute in H.
  injection H as <-. simpl. lia.
Qed.

Example AddMultiSigTypes_USDSend :
  AddMultiSigTypes USDSendSignTypes =
  Ok [ mkSignatureType "hyperliquidChain" "string";
       mkSignatureType "payloadMultiSigUser" "address";
       mkSignatureType "outerSigner" "address";
       mkSignatureType "destination" "string";
       mkSignatureType "amount" "string";
       mkSignatureType "time" "uint64" ].
Proof. reflexivity. Qed.

Example AddMultiSigTypes_no_chain :
  AddMultiSigTypes EIP712DomainFields = Err ErrInvalidSignatureChain.
Proof. reflexivity. Qed.
(** ** Floats used in the examples *)

Example float_tenth :
  F64.of_ratio false 1 10 = S754_finite false 0x1999999999999A (-56).
Proof. reflexivity. Qed.

Example Round_halves :
  F64.Round f_1_5 = F64.of_Z 2 /\
  F64.Round f_2_5 = F64.of_Z 3 /\
  F64.Round (SFopp f_2_5) = F64.of_Z (-3) /\
  F64.Round (F64.of_ratio false 1 4) = S754_zero false.
Proof. repeat split; reflexivity. Qed.

Example Sprintf_f_examples :
  Sprintf_f 2 f_1_25 = "1.25" /\
  Sprintf_f 1 f_1_25 = "1.2" /\
  Sprintf_f 0 f_1_5 = "2" /\
  Sprintf_f 8 (F64.of_ratio true 1 1000000000000) = "-0.00000000" /\
  Sprintf_f (-1) f_1_25 = "%!(BADPREC)1.250000".
Proof. repeat split; reflexivity. Qed.

Example FloatToWire_examples :
  fst (FloatToWire (F64.of_ratio false 123456789 100000000) [])
    = Ok "1.23456789" /\
  fst (FloatToWire (F64.of_ratio false 1234567891 1000000000) [])
    = Err ErrPrecisionLoss /\
  fst (FloatToWire (F64.of_Z 1) []) = Ok "1" /\
  fst (FloatToWire S754_nan []) = Err ErrInvalidFloat.
Proof. repeat split; vm_compute; reflexivity. Qed.

(** ** C4: [FloatToInt] *)



(** Go's [==] on two finite non-zero floats holds only when they are the
    same float. *)
Lemma SFeqb_finite_inv (s1 s2 : bool) (m1 m2 : positive) (e1 e2 : Z) :
  SFeqb (S754_finite s1 m1 e1) (S754_finite s2 m2 e2) = true ->
  s1 = s2 /\ m1 = m2 /\ e1 = e2.
Proof.
  unfold SFeqb, SFcompare.
  destruct s1, s2; try discriminate;
    destruct (Z.compare_spec e1 e2) as [He|He|He]; try discriminate;
    destruct (Pos.compare_cont Eq m1 m2) eqn:Hm; try discriminate;
    apply Pos.compare_eq in Hm; now subst.
Qed.





Example FloatToInt_bounds :
  FloatToInt (F64.of_Z (- 2 ^ 63)) 0 = Ok (- 2 ^ 63) /\
  FloatToInt (F64.of_Z (2 ^ 63)) 0 = Err ErrIntegerOverflow /\
  FloatToInt (F64.of_Z (2 ^ 70)) 0 = Err ErrIntegerOverflow /\
  FloatToInt (F64.of_Z 1) 400 = Err ErrIntegerOverflow /\
  FloatToInt (S754_infinity false) 0 = Err ErrInvalidFloat.
Proof. repeat split; vm_compute; reflexivity. Qed.

(** ** C3: the decimal cache *)

(** Errors are never stored: a failing call leaves the cache as it was. *)
Lemma FloatToDecimal_error_not_cached (x : float64) (places : Z)
    (cache cache' : Cache) (e : error) :
  FloatToDecimal x places cache = (Err e, cache') -> cache' = cache.
Proof.
  unfold FloatToDecimal.
  destruct (cache_lookup cache x); [discriminate|].
  destruct (convert x places); [|now intros [= _ <-]].
  destruct ((length cache <? 1000)%nat && _); discriminate.
Qed.

(** A hit answers without looking at [places]. *)
Lemma FloatToDecimal_hit (x : float64) (places : Z) (cache : Cache) (d : Decimal) :
  cache_lookup cache x = Some d ->
  FloatToDecimal x places cache = (Ok d, cache).
Proof. intros H. unfold FloatToDecimal. now rewrite H. Qed.

(** On a miss the call returns what the conversion proper returns. *)
Lemma FloatToDecimal_miss (x : float64) (places : Z) (cache : Cache) :
  cache_lookup cache x = None ->
  fst (FloatToDecimal x places cache) = convert x places.
Proof.
  intros H. unfold FloatToDecimal. rewrite H.
  destruct (convert x places); [|reflexivity].
  now destruct ((length cache <? 1000)%nat && _).
Qed.

(** C3.  The cache is keyed by the float alone.  On a fresh cache
    [FloatToDecimal(1.25, 1)] fails with PrecisionLoss ("1.2" is not
    1.25); after [FloatToDecimal(1.25, 2)] has stored 1.25, the same call
    returns the decimal 1.25 instead. *)
Theorem FloatToDecimal_cache_not_transparent :
  FloatToDecimal f_1_25 1 [] = (Err ErrPrecisionLoss, []) /\
  FloatToDecimal f_1_25 2 [] = (Ok (mkDecimal 125 (-2)), [(f_1_25, mkDecimal 125 (-2))]) /\
  FloatToDecimal f_1_25 1 [(f_1_25, mkDecimal 125 (-2))]
    = (Ok (mkDecimal 125 (-2)), [(f_1_25, mkDecimal 125 (-2))]).
Proof. repeat split; vm_compute; reflexivity. Qed.

(** ** C7: order shaping *)

Lemma OrderRequestToOrderWire_invalid (o : OrderRequest) (asset : Z)
    (cache : Cache) (e : error) :
  Validate o = Some e ->
  OrderRequestToOrderWire o asset cache = (Err e, cache).
Proof. intros H. unfold OrderRequestToOrderWire. now rewrite H. Qed.

(** An order with both arms set and a positive trigger price passes
    validation as if the trigger arm were absent. *)
Lemma Validate_both_arms (o : OrderRequest) (l : LimitOrderType)
    (t : TriggerOrderType) :
  F64.leb (Size o) F64.zero = false ->
  F64.leb (LimitPrice o) F64.zero = false ->
  Limit (OrderType_ o) = Some l -> Trigger (OrderType_ o) = Some t ->
  F64.leb (TriggerPx t) F64.zero = false ->
  Validate o = None.
Proof.
  intros H1 H2 H3 H4 H5. unfold Validate. now rewrite H1, H2, H3, H4, H5.
Qed.

(** C7 as stated fails: an order with both the limit and the trigger arm
    set (and positive size and prices) is converted, not rejected. *)
Lemma OrderRequestToOrderWire_accepts_both_arms :
  Limit (OrderType_ both_arms_order) <> None /\
  Trigger (OrderType_ both_arms_order) <> None /\
  fst (OrderRequestToOrderWire both_arms_order 4 []) =
    Ok (mkOrderWire 4 true "2" "1" false
          (mkOrderTypeWire (Some (mkLimit "Gtc")) None) None).
Proof. repeat split; try discriminate. Qed.

(** The corrected C7.  Conversion to wire form fails when the size or the
    limit price is not positive; when both are positive it fails with
    InvalidOrderType if neither arm is set.  An order whose limit arm is
    set is not rejected for having the trigger arm set too: once it
    passes validation its wire type carries the limit arm only, and the
    conversion fails only if a price or the size cannot be converted. *)
Theorem OrderRequestToOrderWire_spec (o : OrderRequest) (asset : Z)
    (cache : Cache) :
  (F64.leb (Size o) F64.zero = true \/ F64.leb (LimitPrice o) F64.zero = true ->
     exists e, OrderRequestToOrderWire o asset cache = (Err e, cache)) /\
  (F64.leb (Size o) F64.zero = true ->
     OrderRequestToOrderWire o asset cache = (Err ErrSizeNotPositive, cache)) /\
  (F64.leb (Size o) F64.zero = false ->
   F64.leb (LimitPrice o) F64.zero = true ->
     OrderRequestToOrderWire o asset cache = (Err ErrPriceNotPositive, cache)) /\
  (F64.leb (Size o) F64.zero = false ->
   F64.leb (LimitPrice o) F64.zero = false ->
   Limit (OrderType_ o) = None -> Trigger (OrderType_ o) = None ->
     OrderRequestToOrderWire o asset cache = (Err ErrInvalidOrderType, cache)) /\
  (forall l, Limit (OrderType_ o) = Some l -> Validate o = None ->
     OrderRequestToOrderWire o asset cache =
       (do* wirePrice <- FloatToWire (LimitPrice o);
        do* wireSize <- FloatToWire (Size o);
        ret (mkOrderWire asset (IsBuy o) wirePrice wireSize (ReduceOnly o)
               (mkOrderTypeWire (Some l) None) (Cloid o))) cache).
Proof.
  split; [|split; [|split; [|split]]].
  - intros H.
    destruct (F64.leb (Size o) F64.zero) eqn:Hs.
    + exists ErrSizeNotPositive. apply OrderRequestToOrderWire_invalid.
      unfold Validate. now rewrite Hs.
    + destruct H as [H|H]; [discriminate|].
      exists ErrPriceNotPositive. apply OrderRequestToOrderWire_invalid.
      unfold Validate. now rewrite Hs, H.
  - intros H. apply OrderRequestToOrderWire_invalid.
    unfold Validate. now rewrite H.
  - intros H1 H2. apply OrderRequestToOrderWire_invalid.
    unfold Validate. now rewrite H1, H2.
  - intros H1 H2 H3 H4. apply OrderRequestToOrderWire_invalid.
    unfold Validate. now rewrite H1, H2, H3, H4.
  - intros l Hl Hv. unfold OrderRequestToOrderWire, OrderTypeToWire.
    rewrite Hv, Hl. reflexivity.
Qed.

Lemma OrderRequestToOrderWire_spec_witness :
  (exists e, OrderRequestToOrderWire
    (mkOrderRequest "ETH" true (F64.of_Z 1) F64.zero (mkOrderType None None) false None)
    4 [] = (Err e, [])) /\
  OrderRequestToOrderWire
    (mkOrderRequest "ETH" true F64.zero (F64.of_Z 2) (mkOrderType None None) false None)
    4 [] = (Err ErrSizeNotPositive, []) /\
  OrderRequestToOrderWire
    (mkOrderRequest "ETH" true (F64.of_Z 1) (F64.of_Z (-2)) (mkOrderType None None) false None)
    4 [] = (Err ErrPriceNotPositive, []) /\
  OrderRequestToOrderWire no_arm_order 4 [] = (Err ErrInvalidOrderType, []) /\
  OrderRequestToOrderWire both_arms_order 4 [] =
    (do* wirePrice <- FloatToWire (F64.of_Z 2);
     do* wireSize <- FloatToWire (F64.of_Z 1);
     ret (mkOrderWire 4 true wirePrice wireSize false
            (mkOrderTypeWire (Some (mkLimit "Gtc")) None) None)) [].
Proof.
  split; [|split; [|split; [|split]]].
  - apply (proj1 (OrderRequestToOrderWire_spec _ 4 [])). right. reflexivity.
  - apply (proj1 (proj2 (OrderRequestToOrderWire_spec _ 4 []))). reflexivity.
  - apply (proj1 (proj2 (proj2 (OrderRequestToOrderWire_spec _ 4 []))));
      reflexivity.
  - apply (proj1 (proj2 (proj2 (proj2
             (OrderRequestToOrderWire_spec no_arm_order 4 [])))));
      reflexivity.
  - apply (proj2 (proj2 (proj2 (proj2
             (OrderRequestToOrderWire_spec both_arms_order 4 []))))
             (mkLimit "Gtc")); reflexivity.
Defined.
(** ** The cache under one precision

    What remains true of the cache: as long as every call passes the same
    [places], as [FloatToWire] does, a cached answer is the answer that
    the conversion would compute. *)

Lemma length_zeros (n : nat) : String.length (zeros n) = n.
Proof. induction n; simpl; congruence. Qed.

Lemma zeros_snoc (n : nat) : String.append (zeros n) "0" = String "0" (zeros n).
Proof.
  induction n as [|n IH]; [reflexivity|].
  change (String.append (zeros (S n)) "0")
    with (String "0" (String.append (zeros n) "0")).
  now rewrite IH.
Qed.

Lemma split_point_zeros (n : nat) : split_point (zeros n) = (zeros n, None).
Proof. induction n; simpl; [reflexivity|now rewrite IHn]. Qed.

Lemma digits_value_zeros (n : nat) : digits_value 0 (zeros n) = Some 0%N.
Proof. induction n; simpl; [reflexivity|exact IHn]. Qed.

(** The text of zero at [n] places, and how it reads back. *)
Lemma fixed_text_zero (n : nat) :
  fixed_text 0 n =
  match n with
  | O => "0"
  | S _ => String "0" (String "." (zeros n))
  end.
Proof.
  unfold fixed_text. change (string_of_N 0) with "0".
  change (String.length "0") with 1%nat.
  replace (S n - 1)%nat with n by lia. rewrite zeros_snoc.
  cbn [String.length]. rewrite length_zeros.
  replace (S n - n)%nat with 1%nat by lia.
  destruct n; reflexivity.
Qed.

Lemma parse_fixed_zero (n : nat) (neg : bool) :
  parse_fixed (String.append (if neg then "-" else "") (fixed_text 0 n))
  = Some (neg, 0%N, n).
Proof.
  rewrite fixed_text_zero. destruct n as [|n]; [now destruct neg|].
  set (t := String "0" (String "." (zeros (S n)))).
  assert (H : forall neg' : bool,
    (let '(ip, fp) := split_point t in
     let fp := match fp with Some f => f | None => EmptyString end in
     match String.append ip fp with
     | EmptyString => None
     | ds => match digits_value 0 ds with
             | Some v => Some (neg', v, String.length fp)
             | None => None
             end
     end) = Some (neg', 0%N, S n)).
  { intros neg'. subst t. cbn [split_point Ascii.eqb Bool.eqb].
    rewrite ?length_zeros.
    change (String.append "0" (zeros (S n))) with (zeros (S (S n))).
    pose proof (digits_value_zeros (S (S n))) as Hd.
    cbn [zeros] in Hd |- *. now rewrite Hd. }
  unfold parse_fixed. destruct neg.
  - change (String.append "-" t) with (String "-" t). exact (H true).
  - change (String.append "" t) with t. exact (H false).
Qed.

Lemma convert_zero (s : bool) (places : Z) :
  convert (S754_zero s) places = convert (S754_zero false) places.
Proof.
  destruct s; [|reflexivity]. unfold convert, Sprintf_f.
  destruct ((0 <=? places) && (places <=? 1000000)).
  - cbn [format_f].
    assert (Hp : forall neg : bool,
      ParseFloat (String.append (if neg then "-" else "")
                    (fixed_text 0 (Z.to_nat places))) = Ok (S754_zero neg)).
    { intros neg. unfold ParseFloat.
      rewrite parse_fixed_zero. rewrite fixed_text_zero.
      destruct neg, (Z.to_nat places); reflexivity. }
    rewrite (Hp true), (Hp false). cbn [String.append].
    change (F64.geb (F64.abs (F64.sub (S754_zero true) (S754_zero true)))
              PrecisionThreshold) with false.
    change (F64.geb (F64.abs (F64.sub (S754_zero false) (S754_zero false)))
              PrecisionThreshold) with false.
    cbn match. change (F64.eqb (S754_zero true) F64.zero) with true.
    cbn match. rewrite fixed_text_zero.
    destruct (Z.to_nat places); reflexivity.
  - reflexivity.
Qed.

(** Two keys that Go's [==] identifies convert alike. *)
Lemma convert_eqb (k x : float64) (places : Z) :
  F64.eqb k x = true -> convert k places = convert x places.
Proof.
  unfold F64.eqb. intros H.
  destruct k as [s|s| |s m e], x as [s'|s'| |s' m' e'];
    try discriminate H;
    try (destruct s, s'; discriminate H).
  - now rewrite (convert_zero s), (convert_zero s').
  - now destruct s, s'; try discriminate H.
  - apply SFeqb_finite_inv in H as (-> & -> & ->). reflexivity.
Qed.

Lemma cache_lookup_store (c : Cache) (x y : float64) (d d' : Decimal) :
  cache_lookup (cache_store c x d) y = Some d' ->
  cache_lookup c y = Some d' \/
  (d' = d /\ exists k, F64.eqb k x = true /\ F64.eqb k y = true) \/
  (d' = d /\ F64.eqb x y = true).
Proof.
  induction c as [|[k dk] c IH]; cbn [cache_store cache_lookup].
  - destruct (F64.eqb x y) eqn:E; [|discriminate].
    intros [= <-]. right. right. now split.
  - destruct (F64.eqb k x) eqn:Ekx; cbn [cache_lookup].
    + destruct (F64.eqb k y) eqn:Eky; [|now left].
      intros [= <-]. right. left. split; [reflexivity|]. now exists k.
    + destruct (F64.eqb k y) eqn:Eky; [now left|]. exact IH.
Qed.

(** Transparency under one precision: if every answer in the cache is the
    one that the conversion computes at [places], then a call at [places]
    returns what the conversion computes, and leaves such a cache. *)
Lemma FloatToDecimal_transparent_at (places : Z) (x : float64) (cache : Cache) :
  cache_sound places cache ->
  fst (FloatToDecimal x places cache) = convert x places /\
  cache_sound places (snd (FloatToDecimal x places cache)).
Proof.
  intros Hc. unfold FloatToDecimal.
  destruct (cache_lookup cache x) as [d|] eqn:El.
  - split; [|exact Hc]. simpl. symmetry. now apply Hc.
  - destruct (convert x places) as [d|e] eqn:Ec; [|now split].
    destruct ((length cache <? 1000)%nat && _); [|now split].
    split; [reflexivity|]. simpl. intros y d' Hy.
    apply cache_lookup_store in Hy
      as [Hy|[(-> & k & Hkx & Hky)|(-> & Hxy)]].
    + now apply Hc.
    + now rewrite <- (convert_eqb k y places Hky), (convert_eqb k x places Hkx).
    + now rewrite <- (convert_eqb x y places Hxy).
Qed.

Lemma cache_sound_empty (places : Z) : cache_sound places [].
Proof. intros y d H. discriminate H. Qed.

(** [FloatToWire] always converts at eight places: on a cache filled by
    it alone, it answers as it does on an empty cache. *)
Lemma FloatToWire_transparent (x : float64) (cache : Cache) :
  cache_sound DefaultDecimalPlaces cache ->
  fst (FloatToWire x cache) = fst (FloatToWire x []) /\
  cache_sound DefaultDecimalPlaces (snd (FloatToWire x cache)).
Proof.
  intros Hc. unfold FloatToWire.
  destruct (F64.IsNaN x || F64.IsInf x); [now split|].
  unfold mbind', ret.
  destruct (FloatToDecimal_transparent_at DefaultDecimalPlaces x cache Hc)
    as [H1 H2].
  destruct (FloatToDecimal_transparent_at DefaultDecimalPlaces x []
              (cache_sound_empty _)) as [H3 _].
  destruct (FloatToDecimal x DefaultDecimalPlaces cache) as [r c'].
  destruct (FloatToDecimal x DefaultDecimalPlaces []) as [r0 c0].
  simpl in *. subst r r0. split; [|now destruct (convert x DefaultDecimalPlaces)].
  now destruct (convert x DefaultDecimalPlaces).
Qed.
(** ** Ranging over a map and copying it *)

Lemma is_range_fwd : is_range range_fwd.
Proof. intros A l. reflexivity. Qed.

Lemma is_range_rev : is_range range_rev.
Proof. intros A l. unfold range_rev. symmetry. apply Permutation_rev. Qed.

Lemma foldl_assign_fresh (l : list (string * Value)) (m0 : gmap string Value) :
  NoDup (l.*1) ->
  (forall k, k ∈ l.*1 -> m0 !! k = None) ->
  foldl assign m0 l = list_to_map l ∪ m0.
Proof.
  revert m0. induction l as [|[k v] l IH]; intros m0 Hnd Hfresh; simpl.
  - now rewrite (left_id_L ∅ (∪)).
  - apply NoDup_cons in Hnd as [Hk Hnd'].
    unfold assign at 2. simpl. rewrite IH; [|assumption|].
    + rewrite <- insert_union_r, insert_union_l; [reflexivity|].
      now apply not_elem_of_list_to_map_1.
    + intros k' Hk'. rewrite lookup_insert_ne.
      * apply Hfresh. simpl. rewrite elem_of_cons. now right.
      * intros ->. contradiction.
Qed.

(** Whatever order the range takes, the copy has the entries of the
    source. *)
Lemma foldl_assign_range (ord : RangeOrder) (m : gmap string Value) :
  is_range ord -> foldl assign ∅ (ord _ (map_to_list m)) = m.
Proof.
  intros Hord. pose proof (Hord _ (map_to_list m)) as Hp.
  assert (Hnd : NoDup ((ord _ (map_to_list m)).*1)).
  { rewrite Hp. apply NoDup_fst_map_to_list. }
  rewrite foldl_assign_fresh; [|assumption|intros; apply lookup_empty].
  rewrite (right_id_L ∅ (∪)).
  rewrite (list_to_map_proper _ _ Hnd Hp).
  apply list_to_map_to_list.
Qed.

Lemma foldl_map_assign (dst : loc) (l : list (string * Value)) (w : World)
    (m0 : gmap string Value) :
  maps w !! dst = Some m0 ->
  foldl (fun w kv => map_assign dst (fst kv) (snd kv) w) w l =
  mkWorld (<[dst := foldl assign m0 l]> (maps w)) (signed w).
Proof.
  revert w m0. induction l as [|[k v] l IH]; intros w m0 H; simpl.
  - rewrite insert_id by assumption. now destruct w.
  - erewrite IH.
    + unfold map_assign, entries. simpl. rewrite H. simpl.
      now rewrite insert_insert_eq.
    + unfold map_assign, entries. simpl. rewrite H. simpl.
      apply lookup_insert_eq.
Qed.

Lemma fresh_not_allocated (w : World) : maps w !! fresh (dom (maps w)) = None.
Proof. apply not_elem_of_dom. apply is_fresh. Qed.

(** [make] and the copy loop together: a new object with the entries of
    [src]; nothing else changes. *)
Lemma make_then_copy (ord : RangeOrder) (src : loc) (w : World)
    (m : gmap string Value) :
  is_range ord -> maps w !! src = Some m ->
  range_copy ord src (fst (make_map w)) (snd (make_map w)) =
  mkWorld (<[fresh (dom (maps w)) := m]> (maps w)) (signed w).
Proof.
  intros Hord Hsrc. unfold range_copy, make_map. simpl.
  assert (Hne : fresh (dom (maps w)) <> src).
  { intros E. pose proof (fresh_not_allocated w) as Hf. rewrite E in Hf.
    congruence. }
  erewrite foldl_map_assign by (simpl; apply lookup_insert_eq).
  simpl. unfold entries. simpl.
  rewrite lookup_insert_ne by assumption. rewrite Hsrc. simpl.
  rewrite foldl_assign_range by assumption.
  now rewrite insert_insert_eq.
Qed.

Lemma map_assign_at (l : loc) (k : string) (v : Value)
    (m : gmap string Value) (ms : gmap loc (gmap string Value)) (sg : list bytes) :
  map_assign l k v (mkWorld (<[l := m]> ms) sg) =
  mkWorld (<[l := <[k := v]> m]> ms) sg.
Proof.
  unfold map_assign, entries. simpl.
  now rewrite lookup_insert_eq, insert_insert_eq.
Qed.

(** ** C10 and C6: the signing flows and the caller's map *)

Lemma SignUserSignedAction_unfold (ord : RangeOrder) (wallet : Wallet)
    (action : loc) (payloadTypes : list SignatureType) (primaryType : string)
    (isMainnet : bool) (w : World) (m : gmap string Value) :
  is_range ord -> maps w !! action = Some m ->
  let w1 := mkWorld (<[fresh (dom (maps w)) := injected isMainnet m]> (maps w))
              (signed w) in
  SignUserSignedAction ord wallet action payloadTypes primaryType isMainnet w =
  match Msgpack.Marshal ord
          (map_value (user_signed_typed_data primaryType payloadTypes isMainnet m)) with
  | Err _ => (Err ErrMarshal, w1)
  | Ok encodedData => call_SignMessage wallet encodedData w1
  end.
Proof.
  intros Hord Hm w1. unfold SignUserSignedAction.
  pose proof (make_then_copy ord action w m Hord Hm) as Hcopy.
  destruct (make_map w) as [actionCopy w0] eqn:Hmk. simpl in Hcopy.
  assert (HactionCopy : actionCopy = fresh (dom (maps w))).
  { unfold make_map in Hmk. now injection Hmk as <- _. }
  rewrite Hcopy. subst actionCopy.
  rewrite map_assign_at.
  assert (Hw1 :
    (if isMainnet
     then map_assign (fresh (dom (maps w))) "hyperliquidChain" (VString "Mainnet")
            (mkWorld (<[fresh (dom (maps w)) :=
                          <["signatureChainId" := VString "0x66eee"]> m]> (maps w))
               (signed w))
     else map_assign (fresh (dom (maps w))) "hyperliquidChain" (VString "Testnet")
            (mkWorld (<[fresh (dom (maps w)) :=
                          <["signatureChainId" := VString "0x66eee"]> m]> (maps w))
               (signed w))) = w1).
  { destruct isMainnet; rewrite map_assign_at; reflexivity. }
  rewrite Hw1.
  assert (He : entries w1 (fresh (dom (maps w))) = injected isMainnet m).
  { unfold entries, w1. simpl. now rewrite lookup_insert_eq. }
  rewrite He. reflexivity.
Qed.

(** The corrected C6.  [SignUserSignedAction] does not compare the field
    names of the action with the field-type list.  Whatever the fields
    are, the call fails before signing only when the typed-data envelope
    cannot be serialized; otherwise the wallet's [SignMessage] is invoked
    exactly once, on the encoding of the envelope whose message holds
    every field of the action together with signatureChainId and
    hyperliquidChain, and its answer is returned. *)
Theorem SignUserSignedAction_spec (ord : RangeOrder) (wallet : Wallet)
    (action : loc) (payloadTypes : list SignatureType) (primaryType : string)
    (isMainnet : bool) (w : World) (m : gmap string Value) :
  is_range ord -> maps w !! action = Some m ->
  let r := SignUserSignedAction ord wallet action payloadTypes primaryType
             isMainnet w in
  (forall k v, m !! k = Some v -> k <> "signatureChainId" ->
     k <> "hyperliquidChain" -> injected isMainnet m !! k = Some v) /\
  match Msgpack.Marshal ord
          (map_value (user_signed_typed_data primaryType payloadTypes isMainnet m)) with
  | Ok encodedData =>
      fst r = SignMessage wallet encodedData /\
      signed (snd r) = signed w ++ [encodedData]
  | Err _ => fst r = Err ErrMarshal /\ signed (snd r) = signed w
  end.
Proof.
  intros Hord Hm r. split.
  - intros k v Hk H1 H2. unfold injected.
    now rewrite !lookup_insert_ne by congruence.
  - subst r. rewrite (SignUserSignedAction_unfold _ _ _ _ _ _ _ m Hord Hm).
    destruct (Msgpack.Marshal ord _); simpl; auto.
Qed.

(** C6 as stated fails: the action below has the field "extra", which the
    USD-send type list does not name; the call is not rejected and the
    wallet signs. *)
Lemma SignUserSignedAction_signs_undeclared_field :
  fields_declared usd_send_with_extra USDSendSignTypes = false /\
  fst (SignUserSignedAction range_fwd fixed_wallet 1%positive USDSendSignTypes
         "HyperliquidTransaction:UsdSend" true one_action_world)
    = Ok (mkSignature "0x01" "0x02" 27) /\
  length (signed (snd (SignUserSignedAction range_fwd fixed_wallet 1%positive
                         USDSendSignTypes "HyperliquidTransaction:UsdSend" true
                         one_action_world))) = 1%nat.
Proof. repeat split; vm_compute; reflexivity. Qed.

Lemma SignUserSignedAction_spec_witness :
  let r := SignUserSignedAction range_fwd fixed_wallet 1%positive
             USDSendSignTypes "HyperliquidTransaction:UsdSend" true
             one_action_world in
  (forall k v, usd_send_with_extra !! k = Some v -> k <> "signatureChainId" ->
     k <> "hyperliquidChain" -> injected true usd_send_with_extra !! k = Some v) /\
  match Msgpack.Marshal range_fwd
          (map_value (user_signed_typed_data "HyperliquidTransaction:UsdSend"
                        USDSendSignTypes true usd_send_with_extra)) with
  | Ok encodedData =>
      fst r = SignMessage fixed_wallet encodedData /\
      signed (snd r) = signed one_action_world ++ [encodedData]
  | Err _ => fst r = Err ErrMarshal /\ signed (snd r) = signed one_action_world
  end.
Proof.
  apply (SignUserSignedAction_spec range_fwd fixed_wallet 1%positive
           USDSendSignTypes "HyperliquidTransaction:UsdSend" true
           one_action_world usd_send_with_extra).
  - exact is_range_fwd.
  - reflexivity.
Defined.

Lemma AddMultiSigFields_unfold `{CaseTables} (ord : RangeOrder) (action : loc)
    (payloadMultiSigUser outerSigner : string) (w : World)
    (m : gmap string Value) :
  is_range ord -> maps w !! action = Some m ->
  AddMultiSigFields ord action payloadMultiSigUser outerSigner w =
  (fresh (dom (maps w)),
   mkWorld
     (<[fresh (dom (maps w)) :=
          <["outerSigner" := VString (ToLower outerSigner)]>
            (<["payloadMultiSigUser" := VString (ToLower payloadMultiSigUser)]> m)]>
        (maps w))
     (signed w)).
Proof.
  intros Hord Hm. unfold AddMultiSigFields.
  pose proof (make_then_copy ord action w m Hord Hm) as Hcopy.
  destruct (make_map w) as [result w0] eqn:Hmk. simpl in Hcopy.
  assert (Hresult : result = fresh (dom (maps w))).
  { unfold make_map in Hmk. now injection Hmk as <- _. }
  rewrite Hcopy. subst result.
  now rewrite !map_assign_at.
Qed.

(** C10.  Signing never mutates the caller's action map.  After
    [SignUserSignedAction] and after [AddMultiSigFields] the map that the
    argument names holds exactly the entries it held before; the injected
    fields (signatureChainId and hyperliquidChain, payloadMultiSigUser and
    outerSigner) are written to an object that did not exist before the
    call and that starts as a copy of the argument; no other map
    changes. *)
Theorem signing_keeps_the_action_map `{CaseTables} (ord : RangeOrder) (wallet : Wallet)
    (action : loc) (payloadTypes : list SignatureType) (primaryType : string)
    (isMainnet : bool) (payloadMultiSigUser outerSigner : string)
    (w : World) (m : gmap string Value) :
  is_range ord -> maps w !! action = Some m ->
  let copy := fresh (dom (maps w)) in
  let w1 := snd (SignUserSignedAction ord wallet action payloadTypes
                   primaryType isMainnet w) in
  let r2 := AddMultiSigFields ord action payloadMultiSigUser outerSigner w in
  maps w !! copy = None /\
  (maps w1 !! action = Some m /\
   maps w1 = <[copy := injected isMainnet m]> (maps w)) /\
  (fst r2 = copy /\
   maps (snd r2) !! action = Some m /\
   maps (snd r2) =
     <[copy := <["outerSigner" := VString (ToLower outerSigner)]>
                 (<["payloadMultiSigUser" :=
                      VString (ToLower payloadMultiSigUser)]> m)]> (maps w) /\
   signed (snd r2) = signed w).
Proof.
  intros Hord Hm copy w1 r2.
  assert (Hfresh : maps w !! copy = None) by apply fresh_not_allocated.
  assert (Hne : copy <> action) by congruence.
  split; [exact Hfresh|]. split.
  - subst w1. rewrite (SignUserSignedAction_unfold _ _ _ _ _ _ _ m Hord Hm).
    destruct (Msgpack.Marshal ord _); simpl;
      (split; [now rewrite lookup_insert_ne|reflexivity]).
  - subst r2. rewrite (AddMultiSigFields_unfold _ _ _ _ _ m Hord Hm). simpl.
    repeat split. now rewrite lookup_insert_ne.
Qed.

Lemma signing_keeps_the_action_map_witness :
  let w := one_action_world in
  let copy := fresh (dom (maps w)) in
  let w1 := snd (SignUserSignedAction range_rev fixed_wallet 1%positive
                   USDSendSignTypes "HyperliquidTransaction:UsdSend" false w) in
  let r2 := @AddMultiSigFields latin1_tables range_rev 1%positive "0xAB" "0xCD" w in
  maps w !! copy = None /\
  (maps w1 !! 1%positive = Some usd_send_with_extra /\
   maps w1 = <[copy := injected false usd_send_with_extra]> (maps w)) /\
  (fst r2 = copy /\
   maps (snd r2) !! 1%positive = Some usd_send_with_extra /\
   maps (snd r2) =
     <[copy := <["outerSigner" := VString (@ToLower latin1_tables "0xCD")]>
                 (<["payloadMultiSigUser" :=
                      VString (@ToLower latin1_tables "0xAB")]>
                    usd_send_with_extra)]> (maps w) /\
   signed (snd r2) = signed w).
Proof.
  apply (@signing_keeps_the_action_map latin1_tables range_rev fixed_wallet 1%positive
           USDSendSignTypes "HyperliquidTransaction:UsdSend" false
           "0xAB" "0xCD" one_action_world usd_send_with_extra).
  - exact is_range_rev.
  - reflexivity.
Defined.
(** ** The MessagePack encoding can be read back *)

Lemma fold_be_bytes (k : nat) (z acc : Z) :
  fold_left (fun acc x => acc * 256 + Z_of_byte x) (be_bytes k z) acc
  = acc * 2 ^ (8 * Z.of_nat k) + z mod 2 ^ (8 * Z.of_nat k).
Proof.
  revert acc. induction k as [|k IH]; intros acc.
  - simpl. rewrite Z.mod_1_r. lia.
  - cbn [be_bytes fold_left]. rewrite IH, Z_of_byte_of_Z.
    rewrite Z.shiftr_div_pow2 by lia.
    replace (8 * Z.of_nat (S k)) with (8 * Z.of_nat k + 8) by lia.
    rewrite Z.pow_add_r by lia.
    rewrite (Z.rem_mul_r z (2 ^ (8 * Z.of_nat k)) (2 ^ 8)) by lia.
    change (2 ^ 8) with 256. lia.
Qed.

Lemma be_to_Z_be_bytes (k : nat) (z : Z) :
  be_to_Z (be_bytes k z) = z mod 2 ^ (8 * Z.of_nat k).
Proof. unfold be_to_Z. rewrite fold_be_bytes. lia. Qed.

Lemma be_bytes_inj (k : nat) (a b : Z) :
  0 <= a < 2 ^ (8 * Z.of_nat k) -> 0 <= b < 2 ^ (8 * Z.of_nat k) ->
  be_bytes k a = be_bytes k b -> a = b.
Proof.
  intros Ha Hb E. apply (f_equal be_to_Z) in E.
  rewrite !be_to_Z_be_bytes, !Z.mod_small in E; lia.
Qed.

Lemma length_bytes_of_string (s : string) :
  length (bytes_of_string s) = String.length s.
Proof.
  unfold bytes_of_string, list_byte_of_string.
  rewrite length_map. induction s; simpl; congruence.
Qed.

Ltac if_lia :=
  repeat match goal with
  | |- context [if ?c then _ else _] =>
      let H := fresh in
      first [ assert (H : c = true) by lia | assert (H : c = false) by lia ];
      rewrite H; clear H; cbv match
  end.

(** The head byte of an encoding, as a number. *)
Ltac head_byte :=
  repeat match goal with
  | |- context [Z_of_byte ?b] =>
      lazymatch b with
      | byte_of_Z _ => fail
      | _ => let v := eval vm_compute in (Z_of_byte b) in
             change (Z_of_byte b) with v
      end
  end.

Lemma take_bytes_app (n : Z) (a r : bytes) :
  n = Z.of_nat (length a) -> take_bytes n (a ++ r) = Some (a, r).
Proof.
  intros ->. unfold take_bytes. rewrite length_app.
  replace (Z.of_nat (length a) <=? Z.of_nat (length a + length r)) with true by lia.
  rewrite Nat2Z.id. now rewrite take_app_length, drop_app_length.
Qed.

Lemma with_length_be {A : Type} (k : nat) (l : Z) (b : bytes)
    (cont : Z -> Reader A) :
  with_length k (be_bytes k l ++ b) cont = cont (l mod 2 ^ (8 * Z.of_nat k)) b.
Proof.
  unfold with_length.
  rewrite length_app, length_be_bytes.
  replace (k <=? k + length b)%nat with true by lia.
  rewrite (take_app_length' _ _ k) by (symmetry; apply length_be_bytes).
  rewrite (drop_app_length' _ _ k) by (symmetry; apply length_be_bytes).
  now rewrite be_to_Z_be_bytes.
Qed.

Lemma with_length_small {A : Type} (k : nat) (l : Z) (b : bytes)
    (cont : Z -> Reader A) :
  0 <= l < 2 ^ (8 * Z.of_nat k) ->
  with_length k (be_bytes k l ++ b) cont = cont l b.
Proof. intros Hl. now rewrite with_length_be, Z.mod_small. Qed.

Lemma twos_complement_mod (k : nat) (n : Z) :
  (0 < k)%nat ->
  - 2 ^ (8 * Z.of_nat k - 1) <= n < 2 ^ (8 * Z.of_nat k - 1) ->
  twos_complement k (n mod 2 ^ (8 * Z.of_nat k)) = n.
Proof.
  intros Hk Hn. unfold twos_complement.
  replace (8 * Z.of_nat k) with (Z.succ (8 * Z.of_nat k - 1)) by lia.
  rewrite Z.pow_succ_r by lia.
  replace (Z.succ (8 * Z.of_nat k - 1) - 1) with (8 * Z.of_nat k - 1) by lia.
  set (h := 2 ^ (8 * Z.of_nat k - 1)) in *.
  destruct (Z.neg_nonneg_cases n) as [Hneg|Hpos].
  - rewrite <- (Z_mod_plus_full n 1 (2 * h)), Z.mod_small by lia. if_lia. lia.
  - rewrite Z.mod_small by lia. if_lia. reflexivity.
Qed.

(** *** Scalars *)

Lemma read_text_app (s : string) (r : bytes) (n : Z) :
  n = Z.of_nat (String.length s) ->
  read_text n (bytes_of_string s ++ r) = Some (s, r).
Proof.
  intros ->. unfold read_text.
  rewrite take_bytes_app by now rewrite length_bytes_of_string.
  unfold bytes_of_string. now rewrite string_of_list_byte_of_string.
Qed.

Lemma read_string_encode (s : string) (r : bytes) :
  Z.of_nat (String.length s) < 2 ^ 32 ->
  read_string (Msgpack.encode_string s ++ r) = Some (s, r).
Proof.
  intros Hs. unfold Msgpack.encode_string, Msgpack.str_header.
  set (l := Z.of_nat (String.length s)) in *.
  assert (Hl : 0 <= l) by lia.
  destruct (l <? 32) eqn:E1; [|destruct (l <? 256) eqn:E2;
    [|destruct (l <=? 0xffff) eqn:E3]].
  - cbn [app read_string]. rewrite Z_of_byte_of_Z, Z.mod_small by lia.
    if_lia. apply read_text_app. lia.
  - cbn [app read_string]. head_byte. if_lia.
    change (byte_of_Z l :: bytes_of_string s ++ r)
      with (be_bytes 1 l ++ (bytes_of_string s ++ r)).
    rewrite with_length_small by (change (2 ^ (8 * Z.of_nat 1)) with 256; lia).
    now apply read_text_app.
  - cbn [app read_string]. head_byte. if_lia.
    rewrite <- app_assoc.
    rewrite with_length_small by (change (2 ^ (8 * Z.of_nat 2)) with 65536; lia).
    now apply read_text_app.
  - cbn [app read_string]. head_byte. if_lia.
    rewrite <- app_assoc.
    rewrite with_length_small by (change (2 ^ (8 * Z.of_nat 4)) with (2 ^ 32); lia).
    now apply read_text_app.
Qed.

Lemma read_VString (f : nat) (s : string) (r : bytes) :
  Z.of_nat (String.length s) < 2 ^ 32 ->
  read (S f) (Msgpack.encode_string s ++ r) = Some ([([], SStr s)], r).
Proof.
  intros Hs. pose proof (read_string_encode s r Hs) as Hread. revert Hread.
  unfold Msgpack.encode_string, Msgpack.str_header.
  set (l := Z.of_nat (String.length s)) in *.
  assert (Hl : 0 <= l) by lia.
  destruct (l <? 32) eqn:E1; [|destruct (l <? 256) eqn:E2;
    [|destruct (l <=? 0xffff) eqn:E3]]; intros Hread.
  - cbn [app read] in *. rewrite Z_of_byte_of_Z, Z.mod_small by lia.
    if_lia. cbn [orb]. now rewrite Hread.
  - cbn [app read] in *. head_byte. if_lia. cbn [orb]. now rewrite Hread.
  - cbn [app read] in *. head_byte. if_lia. cbn [orb]. now rewrite Hread.
  - cbn [app read] in *. head_byte. if_lia. cbn [orb]. now rewrite Hread.
Qed.

Lemma read_num (f : nat) (k : NumKind) (n : Z) (r : bytes) :
  in_range k n = true ->
  read (S f) (Msgpack.encode_num k n ++ r) = Some ([([], num_scalar k n)], r).
Proof.
  intros Hn. unfold Msgpack.encode_num.
  destruct k; cbn [Msgpack.num_code Msgpack.num_width app read num_scalar];
    head_byte; if_lia; rewrite with_length_be; unfold leaf; cbn [in_range] in Hn;
    repeat f_equal;
    first [ apply twos_complement_mod; [lia|cbn; lia]
          | apply Z.mod_small; cbn; lia ].
Qed.

Lemma read_EncodeUint (f : nat) (n : Z) (r : bytes) :
  in_range Uint64 n = true ->
  read (S f) (Msgpack.EncodeUint n ++ r) = Some ([([], SInt n)], r).
Proof.
  intros Hn. cbn [in_range] in Hn. unfold Msgpack.EncodeUint.
  destruct (n <=? 127) eqn:E1; [|destruct (n <=? 255) eqn:E2;
    [|destruct (n <=? 65535) eqn:E3; [|destruct (n <=? 4294967295) eqn:E4]]].
  - cbn [app read]. rewrite Z_of_byte_of_Z, Z.mod_small by lia. now if_lia.
  - apply (read_num f Uint8). cbn [in_range]. lia.
  - apply (read_num f Uint16). cbn [in_range]. lia.
  - apply (read_num f Uint32). cbn [in_range]. lia.
  - apply (read_num f Uint64). cbn [in_range]. lia.
Qed.

Lemma read_EncodeInt (f : nat) (n : Z) (r : bytes) :
  in_range Int64 n = true ->
  read (S f) (Msgpack.EncodeInt n ++ r) = Some ([([], SInt n)], r).
Proof.
  intros Hn. cbn [in_range] in Hn. unfold Msgpack.EncodeInt.
  destruct (0 <=? n) eqn:E0; [|destruct (-32 <=? n) eqn:E1;
    [|destruct (-128 <=? n) eqn:E2; [|destruct (-32768 <=? n) eqn:E3;
      [|destruct (-2147483648 <=? n) eqn:E4]]]].
  - apply read_EncodeUint. cbn [in_range]. lia.
  - cbn [app read]. rewrite Z_of_byte_of_Z.
    rewrite <- (Z_mod_plus_full n 1 256), Z.mod_small by lia.
    if_lia. unfold leaf. repeat f_equal. lia.
  - apply (read_num f Int8). cbn [in_range]. lia.
  - apply (read_num f Int16). cbn [in_range]. lia.
  - apply (read_num f Int32). cbn [in_range]. lia.
  - apply (read_num f Int64). cbn [in_range]. lia.
Qed.

Lemma read_VBytes (f : nat) (b r : bytes) :
  Z.of_nat (length b) < 2 ^ 32 ->
  read (S f) ((Msgpack.bin_header (Z.of_nat (length b)) ++ b) ++ r)
  = Some ([([], SBin b)], r).
Proof.
  intros Hb. unfold Msgpack.bin_header.
  set (l := Z.of_nat (length b)) in *. assert (Hl : 0 <= l) by lia.
  rewrite <- app_assoc.
  destruct (l <? 256) eqn:E1; [|destruct (l <=? 0xffff) eqn:E2].
  - cbn [app read]. head_byte. if_lia.
    change (byte_of_Z l :: b ++ r) with (be_bytes 1 l ++ (b ++ r)).
    rewrite with_length_small by (change (2 ^ (8 * Z.of_nat 1)) with 256; lia).
    now rewrite take_bytes_app.
  - cbn [app read]. head_byte. if_lia.
    rewrite with_length_small by (change (2 ^ (8 * Z.of_nat 2)) with 65536; lia).
    now rewrite take_bytes_app.
  - cbn [app read]. head_byte. if_lia.
    rewrite with_length_small by (change (2 ^ (8 * Z.of_nat 4)) with (2 ^ 32); lia).
    now rewrite take_bytes_app.
Qed.

(** *** Slices, maps and structs *)

Lemma read_array_header (f n : nat) (body : bytes) :
  Z.of_nat n < 2 ^ 32 ->
  read (S f) (Msgpack.array_header (Z.of_nat n) ++ body)
  = headed (SArray n) (read_many (read f) 0 n) body.
Proof.
  intros Hn. unfold Msgpack.array_header.
  set (l := Z.of_nat n) in *. assert (Hl : 0 <= l) by lia.
  assert (Hto : Z.to_nat l = n) by (subst l; apply Nat2Z.id).
  destruct (l <? 16) eqn:E1; [|destruct (l <=? 0xffff) eqn:E2].
  - cbn [app read]. rewrite Z_of_byte_of_Z, Z.mod_small by lia.
    if_lia. replace (144 + l - 144) with l by lia. now rewrite Hto.
  - cbn [app read]. head_byte. if_lia.
    rewrite with_length_small by (change (2 ^ (8 * Z.of_nat 2)) with 65536; lia).
    now rewrite Hto.
  - cbn [app read]. head_byte. if_lia.
    rewrite with_length_small by (change (2 ^ (8 * Z.of_nat 4)) with (2 ^ 32); lia).
    now rewrite Hto.
Qed.

Lemma read_map_header (f n : nat) (body : bytes) :
  Z.of_nat n < 2 ^ 32 ->
  read (S f) (Msgpack.map_header (Z.of_nat n) ++ body)
  = headed (SMap n) (read_entries (read f) n) body.
Proof.
  intros Hn. unfold Msgpack.map_header.
  set (l := Z.of_nat n) in *. assert (Hl : 0 <= l) by lia.
  assert (Hto : Z.to_nat l = n) by (subst l; apply Nat2Z.id).
  destruct (l <? 16) eqn:E1; [|destruct (l <=? 0xffff) eqn:E2].
  - cbn [app read]. rewrite Z_of_byte_of_Z, Z.mod_small by lia.
    if_lia. replace (128 + l - 128) with l by lia. now rewrite Hto.
  - cbn [app read]. head_byte. if_lia.
    rewrite with_length_small by (change (2 ^ (8 * Z.of_nat 2)) with 65536; lia).
    now rewrite Hto.
  - cbn [app read]. head_byte. if_lia.
    rewrite with_length_small by (change (2 ^ (8 * Z.of_nat 4)) with (2 ^ 32); lia).
    now rewrite Hto.
Qed.

(** Chunks that the reader reads one value each are read one after the
    other, and their fields are numbered in that order. *)
Lemma read_many_chunks (f : nat) (cs : list bytes) (gs : list (list Field))
    (r : bytes) :
  Forall2 (reads f) cs gs ->
  forall i, (length (concat cs ++ r) < f)%nat ->
  read_many (read f) i (length cs) (concat cs ++ r) = Some (at_indices i gs, r).
Proof.
  induction 1 as [|c g cs gs Hc Hcs IH]; intros i Hlen; [reflexivity|].
  cbn [concat length read_many at_indices]. rewrite <- app_assoc.
  cbn [concat] in Hlen. rewrite <- app_assoc in Hlen.
  rewrite (Hc _ Hlen), IH; [reflexivity|].
  rewrite length_app in Hlen. lia.
Qed.

Lemma read_entries_S (rd : Reader (list Field)) (n : nat) (b : bytes) :
  read_entries rd (S n) b =
  match read_entries rd 1 b with
  | Some (g, r) =>
      match read_entries rd n r with
      | Some (gs, r') => Some (g ++ gs, r')
      | None => None
      end
  | None => None
  end.
Proof.
  cbn [read_entries]. destruct (read_string b) as [[key r]|]; [|reflexivity].
  destruct (rd r) as [[fs r']|]; [|reflexivity].
  destruct (read_entries rd n r') as [[gs r'']|]; [|reflexivity].
  now rewrite app_nil_r.
Qed.

Lemma read_entries_chunks (f : nat) (es : list bytes) (gs : list (list Field))
    (r : bytes) :
  Forall2 (reads_entry f) es gs ->
  (length (concat es ++ r) < f)%nat ->
  read_entries (read f) (length es) (concat es ++ r) = Some (concat gs, r).
Proof.
  induction 1 as [|c g es gs Hc Hes IH]; intros Hlen; [reflexivity|].
  cbn [concat length]. rewrite read_entries_S, <- app_assoc.
  cbn [concat] in Hlen. rewrite <- app_assoc in Hlen.
  rewrite (Hc _ Hlen), IH; [reflexivity|].
  rewrite length_app in Hlen. lia.
Qed.

Lemma Permutation_concat_Forall2 {A : Type} (gs hs : list (list A)) :
  Forall2 (@Permutation A) gs hs -> Permutation (concat gs) (concat hs).
Proof.
  induction 1; cbn [concat]; [constructor|]. now apply Permutation_app.
Qed.

Lemma Permutation_concat {A : Type} (gs hs : list (list A)) :
  Permutation gs hs -> Permutation (concat gs) (concat hs).
Proof.
  induction 1 as [|g gs hs Hp IH|g h gs|gs hs ks _ IH1 _ IH2]; cbn [concat].
  - constructor.
  - now apply Permutation_app_head.
  - rewrite !app_assoc. apply Permutation_app_tail, Permutation_app_comm.
  - now rewrite IH1.
Qed.

Lemma Permutation_at_indices (gs hs : list (list Field)) :
  Forall2 (@Permutation Field) gs hs ->
  forall i, Permutation (at_indices i gs) (at_indices i hs).
Proof.
  induction 1 as [|g h gs hs Hg Hgs IH]; intros i; cbn [at_indices];
    [constructor|].
  apply Permutation_app; [now apply Permutation_map|apply IH].
Qed.

(** Induction on values that reaches the elements of slices and maps. *)
Lemma Value_nested_ind (P : Value -> Prop) :
  P VNil -> (forall b, P (VBool b)) -> (forall s, P (VString s)) ->
  (forall n, P (VInt n)) -> (forall n, P (VUint n)) ->
  (forall k n, P (VNum k n)) -> (forall b, P (VBytes b)) ->
  (forall l, Forall P l -> P (VSlice l)) ->
  (forall m, Forall (fun kv => P (snd kv)) m -> P (VMap m)) ->
  (forall m, Forall (fun kv => P (snd kv)) m -> P (VStruct m)) ->
  P VChan ->
  forall v, P v.
Proof.
  intros HNil HBool HString HInt HUint HNum HBytes HSlice HMap HStruct HChan.
  fix IH 1. intros [ |b|s|n|n|k n|b|l|m|m| ].
  - exact HNil.
  - apply HBool.
  - apply HString.
  - apply HInt.
  - apply HUint.
  - apply HNum.
  - apply HBytes.
  - apply HSlice. induction l as [|x l IHl]; constructor; [apply IH|exact IHl].
  - apply HMap. induction m as [|kv m IHm]; constructor; [apply IH|exact IHm].
  - apply HStruct. induction m as [|kv m IHm]; constructor; [apply IH|exact IHm].
  - exact HChan.
Qed.

Lemma encode_VSlice (ord : RangeOrder) (l : list Value) :
  Msgpack.encode ord (VSlice l) =
  let* body := encode_slice ord l in
  Ok (Msgpack.array_header (Z.of_nat (length l)) ++ body).
Proof. reflexivity. Qed.

Lemma encode_VMap (ord : RangeOrder) (m : list (string * Value)) :
  Msgpack.encode ord (VMap m) =
  let* entries := encode_entries ord m in
  Ok (Msgpack.map_header (Z.of_nat (length m)) ++ concat (ord _ entries)).
Proof. reflexivity. Qed.

Lemma encode_VStruct (ord : RangeOrder) (m : list (string * Value)) :
  Msgpack.encode ord (VStruct m) =
  let* entries := encode_entries ord m in
  Ok (Msgpack.map_header (Z.of_nat (length m)) ++ concat entries).
Proof. reflexivity. Qed.

Lemma encode_slice_chunks (ord : RangeOrder) (f : nat) (l : list Value) :
  Forall (fun x => forall b, Msgpack.encode ord x = Ok b ->
            exists g, reads f b g /\ Permutation g (fields x)) l ->
  forall body, encode_slice ord l = Ok body ->
  exists cs gs, body = concat cs /\ length cs = length l /\
                Forall2 (reads f) cs gs /\
                Forall2 (@Permutation Field) gs (List.map fields l).
Proof.
  induction 1 as [|x l Hx Hl IH]; intros body Hb.
  - injection Hb as <-. exists [], []. repeat split; constructor.
  - cbn [encode_slice] in Hb.
    destruct (Msgpack.encode ord x) as [a|] eqn:Ea; [|discriminate].
    cbn [bind] in Hb. fold (encode_slice ord) in Hb.
    destruct (encode_slice ord l) as [b|] eqn:Eb; [|discriminate].
    injection Hb as <-.
    destruct (IH b eq_refl) as (cs & gs & -> & Hlen & Hcs & Hgs).
    destruct (Hx a eq_refl) as (g & Hg & Hp).
    exists (a :: cs), (g :: gs).
    repeat split; [simpl; congruence|now constructor|now constructor].
Qed.

Lemma encode_entries_chunks (ord : RangeOrder) (f : nat)
    (m : list (string * Value)) :
  Forall (fun kv => forall b, Msgpack.encode ord (snd kv) = Ok b ->
            exists g, reads f b g /\ Permutation g (fields (snd kv))) m ->
  Forall (fun kv => Z.of_nat (String.length (fst kv)) < 2 ^ 32) m ->
  forall es, encode_entries ord m = Ok es ->
  exists gs, length es = length m /\
             Forall2 (reads_entry f) es gs /\
             Forall2 (@Permutation Field) gs
               (List.map (fun kv => List.map (under (Key (fst kv)))
                                      (fields (snd kv))) m).
Proof.
  induction 1 as [|[k x] m Hx Hm IH]; intros Hkeys es Hes.
  - injection Hes as <-. exists []. repeat split; constructor.
  - apply Forall_cons in Hkeys as [Hk Hkeys]. cbn [encode_entries] in Hes.
    simpl in Hx, Hk.
    destruct (Msgpack.encode ord x) as [a|] eqn:Ea; [|discriminate].
    cbn [bind] in Hes. fold (encode_entries ord) in Hes.
    destruct (encode_entries ord m) as [b|] eqn:Eb; [|discriminate].
    injection Hes as <-.
    destruct (IH Hkeys b eq_refl) as (gs & Hlen & Hcs & Hgs).
    destruct (Hx a eq_refl) as (g & Hg & Hp).
    exists ((List.map (under (Key k)) g ++ []) :: gs).
    split; [simpl; congruence|]. split; constructor; try assumption.
    + intros r' Hr'. cbn [read_entries]. rewrite <- app_assoc.
      rewrite read_string_encode by exact Hk.
      rewrite (Hg r'); [reflexivity|].
      rewrite <- app_assoc, length_app in Hr'. lia.
    + rewrite app_nil_r. now apply Permutation_map.
Qed.

Lemma header_nonempty (l : Z) :
  (1 <= length (Msgpack.array_header l))%nat /\
  (1 <= length (Msgpack.map_header l))%nat.
Proof.
  unfold Msgpack.array_header, Msgpack.map_header.
  split; repeat match goal with |- context [if ?c then _ else _] => destruct c end;
    simpl; lia.
Qed.

Lemma sized_entries (m : list (string * Value)) :
  (fix all (m : list (string * Value)) : bool :=
     match m with
     | [] => true
     | (k, x) :: r =>
         (Z.of_nat (String.length k) <? 2 ^ 32) && sized x && all r
     end) m = true ->
  Forall (fun kv => Z.of_nat (String.length (fst kv)) < 2 ^ 32) m /\
  Forall (fun kv => sized (snd kv) = true) m.
Proof.
  induction m as [|[k x] m IH]; intros H; [split; constructor|].
  apply andb_true_iff in H as [H H3]. apply andb_true_iff in H as [H1 H2].
  destruct (IH H3) as [IH1 IH2]. split; constructor; simpl; auto. lia.
Qed.

Lemma read_map_body (f n : nat) (es : list bytes) (gs : list (list Field))
    (r : bytes) :
  Z.of_nat n < 2 ^ 32 -> length es = n ->
  Forall2 (reads_entry f) es gs ->
  (length ((Msgpack.map_header (Z.of_nat n) ++ concat es) ++ r) < S f)%nat ->
  read (S f) ((Msgpack.map_header (Z.of_nat n) ++ concat es) ++ r)
  = Some (([], SMap n) :: concat gs, r).
Proof.
  intros Hn Hlen Hes Hf. rewrite <- app_assoc in *.
  rewrite read_map_header by exact Hn. unfold headed. rewrite <- Hlen.
  rewrite (read_entries_chunks f es gs r Hes); [reflexivity|].
  pose proof (proj2 (header_nonempty (Z.of_nat n))).
  rewrite length_app in Hf. lia.
Qed.

(** Every encoding of a value of representable size can be read back:
    the reader finds, from the bytes alone, where the encoding ends and
    every field of the value, those of a map in the order in which they
    were written. *)
Lemma encode_reads (ord : RangeOrder) :
  is_range ord ->
  forall v, sized v = true ->
  forall b f, Msgpack.encode ord v = Ok b ->
  exists g, reads f b g /\ Permutation g (fields v).
Proof.
  intros Hord v. induction v using Value_nested_ind; intros Hsz out f Hb.
  - injection Hb as <-. exists [([], SNil)]. split; [|reflexivity].
    intros r Hf. destruct f as [|f]; [simpl in Hf; lia|]. reflexivity.
  - injection Hb as <-. exists [([], SBool b)]. split; [|reflexivity].
    intros r Hf. destruct f as [|f]; [simpl in Hf; lia|]. now destruct b.
  - injection Hb as <-. exists [([], SStr s)]. split; [|reflexivity].
    intros r Hf. destruct f as [|f]; [simpl in Hf; lia|].
    apply read_VString. simpl in Hsz. lia.
  - injection Hb as <-. exists [([], SInt n)]. split; [|reflexivity].
    intros r Hf. destruct f as [|f]; [simpl in Hf; lia|].
    now apply read_EncodeInt.
  - injection Hb as <-. exists [([], SInt n)]. split; [|reflexivity].
    intros r Hf. destruct f as [|f]; [simpl in Hf; lia|].
    now apply read_EncodeUint.
  - injection Hb as <-. exists [([], num_scalar k n)]. split; [|reflexivity].
    intros r Hf. destruct f as [|f]; [simpl in Hf; lia|].
    now apply read_num.
  - injection Hb as <-. exists [([], SBin b)]. split; [|reflexivity].
    intros r Hf. destruct f as [|f]; [simpl in Hf; lia|].
    apply read_VBytes. simpl in Hsz. lia.
  - rewrite encode_VSlice in Hb.
    destruct (encode_slice ord l) as [body|] eqn:Ebody; [|discriminate].
    injection Hb as <-. cbn [sized] in Hsz.
    apply andb_true_iff in Hsz as [Hn Hall].
    rewrite forallb_forall in Hall.
    destruct (encode_slice_chunks ord (pred f) l) with (body := body)
      as (cs & gs & -> & Hlen & Hcs & Hgs); [|exact Ebody|].
    { apply Forall_forall. intros x Hx out' Hb'. rewrite Forall_forall in H.
      apply (H x Hx); [|exact Hb']. apply Hall. now apply list_elem_of_In. }
    exists (([], SArray (length l)) :: at_indices 0 gs). split.
    + intros r Hf. destruct f as [|f]; [simpl in Hf; lia|].
      cbn [pred] in Hcs. rewrite <- app_assoc in *.
      rewrite read_array_header by lia. unfold headed.
      rewrite <- Hlen, (read_many_chunks f cs gs r Hcs); [reflexivity|].
      pose proof (proj1 (header_nonempty (Z.of_nat (length l)))).
      rewrite length_app in Hf. lia.
    + cbn [fields]. constructor. now apply Permutation_at_indices.
  - rewrite encode_VMap in Hb.
    destruct (encode_entries ord m) as [es|] eqn:Ees; [|discriminate].
    injection Hb as <-. cbn [sized] in Hsz.
    apply andb_true_iff in Hsz as [Hn Hall].
    apply sized_entries in Hall as [Hkeys Hvals].
    destruct (encode_entries_chunks ord (pred f) m) with (es := es)
      as (gs & Hlen & Hcs & Hgs); [|exact Hkeys|exact Ees|].
    { apply Forall_forall. intros x Hx out' Hb'.
      rewrite Forall_forall in H, Hvals.
      apply (H x Hx); [|exact Hb']. now apply Hvals. }
    destruct (Permutation_Forall2 (Permutation_sym (Hord _ es)) Hcs)
      as (gs' & Hperm & Hcs').
    exists (([], SMap (length m)) :: concat gs'). split.
    + intros r Hf. destruct f as [|f]; [simpl in Hf; lia|].
      cbn [pred] in Hcs'. apply read_map_body; [lia| |exact Hcs'|exact Hf].
      rewrite <- Hlen. apply Permutation_length, Hord.
    + cbn [fields]. constructor.
      rewrite <- (Permutation_concat _ _ Hperm).
      now apply Permutation_concat_Forall2.
  - rewrite encode_VStruct in Hb.
    destruct (encode_entries ord m) as [es|] eqn:Ees; [|discriminate].
    injection Hb as <-. cbn [sized] in Hsz.
    apply andb_true_iff in Hsz as [Hn Hall].
    apply sized_entries in Hall as [Hkeys Hvals].
    destruct (encode_entries_chunks ord (pred f) m) with (es := es)
      as (gs & Hlen & Hcs & Hgs); [|exact Hkeys|exact Ees|].
    { apply Forall_forall. intros x Hx out' Hb'.
      rewrite Forall_forall in H, Hvals.
      apply (H x Hx); [|exact Hb']. now apply Hvals. }
    exists (([], SMap (length m)) :: concat gs). split.
    + intros r Hf. destruct f as [|f]; [simpl in Hf; lia|].
      cbn [pred] in Hcs. apply read_map_body; [lia|exact Hlen|exact Hcs|exact Hf].
    + cbn [fields]. constructor. now apply Permutation_concat_Forall2.
  - discriminate.
Qed.

(** Two encodings that start the same byte sequence are the same bytes
    and hold the same fields, whatever the two range orders were: no
    encoding is a proper prefix of another, and none hides a field. *)
Lemma encode_fields (ord ord' : RangeOrder) (v v' : Value)
    (b b' r r' : bytes) :
  is_range ord -> is_range ord' -> sized v = true -> sized v' = true ->
  Msgpack.encode ord v = Ok b -> Msgpack.encode ord' v' = Ok b' ->
  b ++ r = b' ++ r' ->
  b = b' /\ r = r' /\ Permutation (fields v) (fields v').
Proof.
  intros Hord Hord' Hv Hv' Hb Hb' E.
  destruct (encode_reads ord Hord v Hv b (S (length (b ++ r))) Hb)
    as (g & Hg & Hp).
  destruct (encode_reads ord' Hord' v' Hv' b' (S (length (b' ++ r'))) Hb')
    as (g' & Hg' & Hp').
  pose proof (Hg r ltac:(lia)) as H1. pose proof (Hg' r' ltac:(lia)) as H2.
  rewrite E in H1. rewrite H1 in H2. injection H2 as -> ->.
  split; [now apply app_inv_tail in E|]. split; [reflexivity|].
  now rewrite <- Hp, Hp'.
Qed.

Lemma encode_prefix_free (ord ord' : RangeOrder) (v v' : Value)
    (b b' r r' : bytes) :
  is_range ord -> is_range ord' -> sized v = true -> sized v' = true ->
  Msgpack.encode ord v = Ok b -> Msgpack.encode ord' v' = Ok b' ->
  b ++ r = b' ++ r' -> b = b' /\ r = r'.
Proof.
  intros Hord Hord' Hv Hv' Hb Hb' E.
  destruct (encode_fields ord ord' v v' b b' r r') as (H1 & H2 & _); auto.
Qed.
(** ** Addresses *)

Lemma DecodeString_isHex (k : nat) (s : string) :
  isHex s = true -> String.length s = (2 * k)%nat ->
  exists b, DecodeString s = Ok b /\ length b = k.
Proof.
  revert s. induction k as [|k IH]; intros s Hhex Hlen.
  - destruct s; [|discriminate]. now exists [].
  - destruct s as [|a [|b s]]; [simpl in Hlen; lia|simpl in Hlen; lia|].
    cbn [isHex] in Hhex.
    destruct (hex_value a) as [h|] eqn:Ea; [|discriminate].
    destruct (hex_value b) as [l|] eqn:Eb; [|discriminate].
    destruct (IH s Hhex) as (t & Ht & Hk); [simpl in Hlen; lia|].
    exists (byte_of_Z (16 * h + l) :: t).
    cbn [DecodeString]. rewrite Ea, Eb, Ht. split; [reflexivity|].
    simpl. now rewrite Hk.
Qed.

Ltac ascii_cases c :=
  destruct c as [[] [] [] [] [] [] [] []]; simpl in *; try discriminate.

Lemma TrimPrefix0x_lower (s : string) :
  has0xPrefix s = true -> upper_prefix s = false -> TrimPrefix0x s = drop2 s.
Proof.
  intros H1 H2. destruct s as [|c0 [|c1 t]]; simpl in *; try discriminate.
  - ascii_cases c0.
  - ascii_cases c0. ascii_cases c1. reflexivity.
Qed.

Lemma TrimPrefix0x_none (s : string) :
  has0xPrefix s = false -> TrimPrefix0x s = s.
Proof.
  intros H1. destruct s as [|c0 [|c1 t]]; simpl in *; try reflexivity.
  - ascii_cases c0; reflexivity.
  - ascii_cases c0; try reflexivity. ascii_cases c1; reflexivity.
Qed.

Lemma upper_prefix_has0xPrefix (s : string) :
  upper_prefix s = true ->
  has0xPrefix s = true /\ DecodeString (TrimPrefix0x s) = Err ErrHex.
Proof.
  intros H1. destruct s as [|c0 [|c1 t]]; simpl in *; try discriminate.
  - ascii_cases c0.
  - ascii_cases c0. ascii_cases c1. split; reflexivity.
Qed.

(** An address that [IsHexAddress] accepts decodes to twenty bytes,
    unless it carries the upper-case prefix "0X": [IsHexAddress] skips
    that prefix, [strings.TrimPrefix(address, "0x")] does not, and the
    decoder then meets the letter X. *)
Lemma AddressToBytes_valid (address : string) :
  IsHexAddress address = true ->
  if upper_prefix address then AddressToBytes address = Err ErrHex
  else exists b, AddressToBytes address = Ok b /\ length b = 20%nat.
Proof.
  intros Hv. unfold AddressToBytes. rewrite Hv. cbn [negb].
  unfold IsHexAddress in Hv. apply andb_true_iff in Hv as [Hlen Hhex].
  apply Nat.eqb_eq in Hlen.
  destruct (upper_prefix address) eqn:Hu.
  - now apply upper_prefix_has0xPrefix.
  - destruct (has0xPrefix address) eqn:Hp.
    + rewrite (TrimPrefix0x_lower _ Hp Hu). now apply (DecodeString_isHex 20).
    + rewrite (TrimPrefix0x_none _ Hp). now apply (DecodeString_isHex 20).
Qed.

Lemma AddressToBytes_invalid (address : string) :
  IsHexAddress address = false -> AddressToBytes address = Err ErrInvalidAddress.
Proof. intros H. unfold AddressToBytes. now rewrite H. Qed.

Lemma AddressToBytes_nonempty (address : string) (b : bytes) :
  AddressToBytes address = Ok b -> String.eqb address "" = false.
Proof. destruct address; [discriminate|reflexivity]. Qed.

(** ** C2: what [ActionHash] hashes *)

Lemma Marshal_encode (ord : RangeOrder) (v : Value) (b : bytes) :
  Msgpack.Marshal ord v = Ok b <-> Msgpack.encode ord v = Ok b.
Proof.
  unfold Msgpack.Marshal. destruct (Msgpack.encode ord v); split; congruence.
Qed.

Lemma ActionHash_data_spec (ord : RangeOrder) (action : Value)
    (vaultAddress : string) (nonce : Z) (data : bytes) :
  Msgpack.Marshal ord action = Ok data ->
  ActionHash_data ord action vaultAddress nonce =
  let* tag := vault_tag vaultAddress in Ok (data ++ PutUint64 nonce ++ tag).
Proof.
  intros Hd. unfold ActionHash_data, vault_tag. rewrite Hd. cbn [bind].
  destruct (String.eqb vaultAddress "").
  - cbn [bind]. now rewrite <- app_assoc.
  - destruct (AddressToBytes vaultAddress); cbn [bind]; [|reflexivity].
    now rewrite <- !app_assoc.
Qed.

(** When the action serializes, [ActionHash] is Keccak-256 of the
    serialization, the eight big-endian bytes of the nonce and the vault
    tag; the tag is a zero byte for the empty address, and a one byte and
    the twenty decoded bytes for an address that [IsHexAddress] accepts
    without the upper-case prefix; an address that [IsHexAddress] refuses
    gives [ErrInvalidAddress] and no digest. *)
Lemma ActionHash_spec (ord : RangeOrder) (action : Value)
    (vaultAddress : string) (nonce : Z) (data : bytes) :
  Msgpack.Marshal ord action = Ok data ->
  ActionHash ord action vaultAddress nonce =
    (let* tag := vault_tag vaultAddress in
     Ok (Keccak256 (data ++ PutUint64 nonce ++ tag))) /\
  (vaultAddress = "" -> vault_tag vaultAddress = Ok [x00]) /\
  (vaultAddress <> "" -> IsHexAddress vaultAddress = false ->
     vault_tag vaultAddress = Err ErrInvalidAddress) /\
  (IsHexAddress vaultAddress = true -> upper_prefix vaultAddress = false ->
     exists addrBytes, DecodeString (TrimPrefix0x vaultAddress) = Ok addrBytes /\
       length addrBytes = 20%nat /\
       vault_tag vaultAddress = Ok (x01 :: addrBytes)).
Proof.
  intros Hd. split; [|split; [|split]].
  - unfold ActionHash. rewrite (ActionHash_data_spec _ _ _ _ _ Hd).
    now destruct (vault_tag vaultAddress).
  - now intros ->.
  - intros Hne Hbad. unfold vault_tag.
    destruct (String.eqb_spec vaultAddress ""); [contradiction|].
    now rewrite (AddressToBytes_invalid _ Hbad).
  - intros Hok Hup. pose proof (AddressToBytes_valid _ Hok) as Hv.
    rewrite Hup in Hv. destruct Hv as (b & Hb & Hlen).
    exists b. unfold vault_tag.
    rewrite (AddressToBytes_nonempty _ _ Hb), Hb.
    unfold AddressToBytes in Hb. rewrite Hok in Hb. now repeat split.
Qed.

(** C2.  The vault address below consists of the prefix "0X" and forty
    hexadecimal digits.  [IsHexAddress] accepts it, so it is not refused
    as malformed; [AddressToBytes] removes only the prefix "0x", the
    decoder fails on the letter X, and [ActionHash] returns that decoding
    error: neither the digest over the twenty address bytes nor an
    address error.  The same address spelled with "0x" is hashed. *)
Theorem ActionHash_upper_case_prefix :
  IsHexAddress vault_0X = true /\
  ActionHash range_fwd VNil vault_0X 7 = Err ErrHex /\
  ~ AddressError ErrHex /\
  EncodeToString <$> (match ActionHash range_fwd VNil vault_lower 7 with
                      | Ok d => Some d | Err _ => None end)
    = Some "985c157397f5efb3842f88bcfabed91be6197c6b4003b470c5bf29d36c442a55".
Proof.
  split; [reflexivity|]. split; [reflexivity|]. split; [discriminate|].
  vm_compute. reflexivity.
Qed.
(** ** The curve of the examples *)

Lemma fold_eq (c x : Z) :
  Secp.fold c x = x mod 2 ^ 256 + x / 2 ^ 256 * c.
Proof.
  unfold Secp.fold. now rewrite Z.land_ones, Z.shiftr_div_pow2 by lia.
Qed.

Lemma fold_mod (c x : Z) :
  Secp.fold c x mod (2 ^ 256 - c) = x mod (2 ^ 256 - c).
Proof.
  rewrite fold_eq.
  rewrite (Z.div_mod x (2 ^ 256)) at 3 by lia.
  replace (2 ^ 256 * (x / 2 ^ 256) + x mod 2 ^ 256)
    with (x mod 2 ^ 256 + x / 2 ^ 256 * c + x / 2 ^ 256 * (2 ^ 256 - c)) by lia.
  now rewrite Z_mod_plus_full.
Qed.

Lemma fold_bound (c x k : Z) :
  0 <= c -> 0 <= x < 2 ^ 256 * k ->
  0 <= Secp.fold c x <= 2 ^ 256 - 1 + (k - 1) * c.
Proof.
  intros Hc Hx. rewrite fold_eq.
  pose proof (Z.mod_pos_bound x (2 ^ 256) ltac:(lia)) as Hl.
  assert (Hq : 0 <= x / 2 ^ 256 <= k - 1).
  { split; [apply Z.div_pos; lia|].
    enough (x / 2 ^ 256 < k) by lia. apply Z.div_lt_upper_bound; lia. }
  assert (0 <= x / 2 ^ 256 * c <= (k - 1) * c) by nia.
  lia.
Qed.

Lemma reduce_small_spec (c x : Z) :
  0 <= c < 2 ^ 130 -> 0 <= x < 2 ^ 512 ->
  Secp.reduce_small c x = x mod (2 ^ 256 - c).
Proof.
  intros Hc Hx. unfold Secp.reduce_small. cbv zeta.
  pose proof (fold_bound c x (2 ^ 256) ltac:(lia) ltac:(lia)) as H1.
  pose proof (fold_bound c (Secp.fold c x) (2 ^ 131) ltac:(lia) ltac:(lia)) as H2.
  pose proof (fold_bound c (Secp.fold c (Secp.fold c x)) (2 ^ 7)
                ltac:(lia) ltac:(lia)) as H3.
  pose proof (fold_bound c (Secp.fold c (Secp.fold c (Secp.fold c x))) 2
                ltac:(lia) ltac:(lia)) as H4.
  rewrite <- (fold_mod c x), <- (fold_mod c (Secp.fold c x)),
    <- (fold_mod c (Secp.fold c (Secp.fold c x))),
    <- (fold_mod c (Secp.fold c (Secp.fold c (Secp.fold c x)))).
  set (y := Secp.fold c (Secp.fold c (Secp.fold c (Secp.fold c x)))) in *.
  destruct (Z.leb_spec (2 ^ 256 - c) y).
  - rewrite <- (Z_mod_plus_full y (-1) (2 ^ 256 - c)).
    rewrite Z.mod_small; lia.
  - rewrite Z.mod_small; lia.
Qed.

(** The folded reduction is the remainder. *)
Lemma reduce_spec (c x : Z) :
  0 <= c < 2 ^ 130 -> Secp.reduce c x = x mod (2 ^ 256 - c).
Proof.
  intros Hc. unfold Secp.reduce. cbv zeta.
  destruct ((0 <=? x) && (x <? 2 ^ 512)) eqn:E1.
  { apply reduce_small_spec; lia. }
  destruct ((- 2 ^ 512 <? x) && (x <? 0)) eqn:E2; [|reflexivity].
  rewrite reduce_small_spec by lia.
  destruct (Z.eqb_spec ((- x) mod (2 ^ 256 - c)) 0) as [E|E].
  - symmetry. apply Z.mod_opp_l_z in E; [|lia]. now rewrite Z.opp_involutive in E.
  - replace (x mod (2 ^ 256 - c)) with ((- - x) mod (2 ^ 256 - c))
      by now rewrite Z.opp_involutive.
    rewrite (Z.mod_opp_l_nz (- x) (2 ^ 256 - c)); [reflexivity|lia|exact E].
Qed.

Lemma modP_spec (x : Z) : Secp.modP x = x mod Secp.P.
Proof.
  unfold Secp.modP. rewrite reduce_spec by (vm_compute; split; congruence).
  f_equal; lia.
Qed.

Lemma modN_spec (x : Z) : Secp.modN x = x mod Secp.N.
Proof.
  unfold Secp.modN. rewrite reduce_spec by (vm_compute; split; congruence).
  f_equal; lia.
Qed.

(** The base point lies on the curve, and its address is the well-known
    address of the private key 1. *)
Example Secp_base_point :
  Secp.on_curve Secp.Gx Secp.Gy = true /\
  hexutil_Encode (Secp.PubkeyToAddress (Secp.Gx, Secp.Gy))
    = lower key_one_address.
Proof. split; vm_compute; reflexivity. Qed.

(** ** C8: signature verification *)

Example HashMessage_hello :
  EncodeToString (HashMessage (bytes_of_string "hello")) =
  "50b2c43fd39106bafbba0da34fc430e1f91e3c96ea2acee2bc34119f92b37750".
Proof. vm_compute. reflexivity. Qed.

(** The verifier on an address that [IsHexAddress] accepts with the
    upper-case prefix: the hex decoding error of [AddressToBytes], before
    the signature is looked at. *)
Lemma VerifySignature_upper_prefix `{Secp256k1} (address : string)
    (message : bytes) (sig : Signature) :
  IsHexAddress address = true -> upper_prefix address = true ->
  VerifySignature address message sig = Err ErrHex.
Proof.
  intros Hok Hup. unfold VerifySignature. rewrite Hok. cbn [negb].
  pose proof (AddressToBytes_valid _ Hok) as Hv. rewrite Hup in Hv.
  now rewrite Hv.
Qed.

(** The verifier on any other address that [IsHexAddress] accepts: the
    address decodes to twenty bytes, and the result is decided by the
    signature. *)
Lemma VerifySignature_lower_prefix `{Secp256k1} (address : string)
    (message : bytes) (sig : Signature) :
  IsHexAddress address = true -> upper_prefix address = false ->
  exists addrBytes,
    AddressToBytes address = Ok addrBytes /\ length addrBytes = 20%nat /\
    VerifySignature address message sig =
    match hexutil_Decode (sig_R sig), hexutil_Decode (sig_S sig) with
    | Err _, _ => Err ErrInvalidR
    | Ok _, Err _ => Err ErrInvalidS
    | Ok r, Ok s =>
        match Ecrecover (HashMessage message)
                ((r ++ s) ++ [byte_of_Z (sig_V sig)]) with
        | Err _ => Err ErrRecover
        | Ok pubKey =>
            match UnmarshalPubkey pubKey with
            | Err _ => Err ErrUnmarshalPubkey
            | Ok key => Ok (bytes_eqb (PubkeyToAddress key) addrBytes)
            end
        end
    end.
Proof.
  intros Hok Hup. pose proof (AddressToBytes_valid _ Hok) as Hv.
  rewrite Hup in Hv. destruct Hv as (addrBytes & Haddr & Hlen).
  exists addrBytes. split; [exact Haddr|]. split; [exact Hlen|].
  unfold VerifySignature. rewrite Hok, Haddr. cbn [negb bind].
  destruct (hexutil_Decode (sig_R sig)); [|reflexivity].
  destruct (hexutil_Decode (sig_S sig)); reflexivity.
Qed.

(** C8.  [VerifySignature] on an expected address that consists of the
    prefix "0X" and forty hexadecimal digits, such as [vault_0X]:
    [IsHexAddress] accepts the address, so it is not refused as malformed;
    [AddressToBytes] removes only the prefix "0x", the decoder fails on
    the letter X, and the verifier returns that error for every message
    and every signature, a valid one included.  The error is neither an
    address error nor a decode error, and no boolean is returned.

    Everywhere else the verifier does what is asked of it.  An address
    that [IsHexAddress] refuses gives an address error.  For an address
    that it accepts without the upper-case prefix, a malformed R or S text
    and a signature from which no key is recovered each give a decode
    error, and when R and S decode and a key is recovered for the digest
    Keccak-256 of "\x19Ethereum Signed Message:\n", the decimal length of
    the message and the message, the verifier returns a boolean: the byte
    equality of that key's address with the twenty bytes of the expected
    address.  Every error is an address error, a decode error or the hex
    error of the upper-case prefix, and a boolean is returned in the last
    case only. *)
Theorem VerifySignature_upper_case_prefix `{Secp256k1} (address : string)
    (message : bytes) (sig : Signature) :
  let digest :=
    Keccak256
      (bytes_of_string
         (String.append (String (ascii_of_nat 25) "Ethereum Signed Message:")
            (String (ascii_of_nat 10)
               (string_of_N (N.of_nat (length message))))) ++ message) in
  let recovered := fun r s =>
    Ecrecover digest ((r ++ s) ++ [byte_of_Z (sig_V sig)]) in
  (IsHexAddress vault_0X = true /\
   VerifySignature vault_0X message sig = Err ErrHex /\
   ~ AddressError ErrHex /\ ~ DecodeError ErrHex) /\
  (IsHexAddress address = true -> upper_prefix address = true ->
     VerifySignature address message sig = Err ErrHex) /\
  (IsHexAddress address = false ->
     exists e, VerifySignature address message sig = Err e /\ AddressError e) /\
  (IsHexAddress address = true -> upper_prefix address = false ->
     (forall e, hexutil_Decode (sig_R sig) = Err e ->
        exists e', VerifySignature address message sig = Err e' /\
                   DecodeError e') /\
     (forall e, hexutil_Decode (sig_S sig) = Err e ->
        exists e', VerifySignature address message sig = Err e' /\
                   DecodeError e') /\
     (forall r s, hexutil_Decode (sig_R sig) = Ok r ->
        hexutil_Decode (sig_S sig) = Ok s ->
        (forall pubKey key, recovered r s = Ok pubKey ->
           UnmarshalPubkey pubKey <> Ok key) ->
        exists e', VerifySignature address message sig = Err e' /\
                   DecodeError e') /\
     (forall r s pubKey key, hexutil_Decode (sig_R sig) = Ok r ->
        hexutil_Decode (sig_S sig) = Ok s ->
        recovered r s = Ok pubKey -> UnmarshalPubkey pubKey = Ok key ->
        exists addrBytes,
          AddressToBytes address = Ok addrBytes /\
          length addrBytes = 20%nat /\
          VerifySignature address message sig =
            Ok (bytes_eqb (PubkeyToAddress key) addrBytes) /\
          (bytes_eqb (PubkeyToAddress key) addrBytes = true <->
           PubkeyToAddress key = addrBytes))) /\
  (forall e, VerifySignature address message sig = Err e ->
     AddressError e \/ DecodeError e \/
     (e = ErrHex /\ IsHexAddress address = true /\
      upper_prefix address = true)) /\
  (forall ok, VerifySignature address message sig = Ok ok ->
     IsHexAddress address = true /\ upper_prefix address = false /\
     exists addrBytes r s pubKey key,
       AddressToBytes address = Ok addrBytes /\
       hexutil_Decode (sig_R sig) = Ok r /\
       hexutil_Decode (sig_S sig) = Ok s /\
       recovered r s = Ok pubKey /\
       UnmarshalPubkey pubKey = Ok key /\
       ok = bytes_eqb (PubkeyToAddress key) addrBytes).
Proof.
  intros digest recovered.
  change digest with (HashMessage message) in recovered. subst digest recovered.
  cbv beta.
  split; [|split; [|split; [|split; [|split]]]].
  - split; [reflexivity|]. split.
    + now apply VerifySignature_upper_prefix.
    + unfold AddressError, DecodeError. split; [discriminate|].
      intros [?|[?|[?|?]]]; discriminate.
  - apply VerifySignature_upper_prefix.
  - intros Hbad. exists ErrInvalidAddress. split; [|reflexivity].
    unfold VerifySignature. now rewrite Hbad.
  - intros Hok Hup.
    destruct (VerifySignature_lower_prefix address message sig Hok Hup)
      as (addrBytes & Haddr & Hlen & ->).
    unfold DecodeError. split; [|split; [|split]].
    + intros e ->. exists ErrInvalidR. auto.
    + intros e ->. destruct (hexutil_Decode (sig_R sig));
        [exists ErrInvalidS|exists ErrInvalidR]; auto.
    + intros r s -> -> Hrec.
      destruct (Ecrecover _ _) as [pubKey|] eqn:Epk; [|exists ErrRecover; auto].
      destruct (UnmarshalPubkey pubKey) as [key|] eqn:Ekey;
        [|exists ErrUnmarshalPubkey; auto 6].
      exfalso. exact (Hrec pubKey key eq_refl Ekey).
    + intros r s pubKey key -> -> -> ->. exists addrBytes.
      repeat split; try assumption; apply bytes_eqb_eq.
  - intros e He. destruct (IsHexAddress address) eqn:Hok.
    + destruct (upper_prefix address) eqn:Hup.
      * rewrite (VerifySignature_upper_prefix _ _ _ Hok Hup) in He.
        injection He as <-. auto.
      * destruct (VerifySignature_lower_prefix address message sig Hok Hup)
          as (addrBytes & Haddr & Hlen & Hv).
        rewrite Hv in He. unfold DecodeError. right. left. revert He.
        destruct (hexutil_Decode (sig_R sig)); [|intros [= <-]; auto].
        destruct (hexutil_Decode (sig_S sig)); [|intros [= <-]; auto].
        destruct (Ecrecover _ _) as [pubKey|]; [|intros [= <-]; auto].
        destruct (UnmarshalPubkey pubKey); [discriminate|intros [= <-]; auto 6].
    + left. revert He. unfold VerifySignature. rewrite Hok. now intros [= <-].
  - intros ok Hv. destruct (IsHexAddress address) eqn:Hok.
    2:{ revert Hv. unfold VerifySignature. now rewrite Hok. }
    destruct (upper_prefix address) eqn:Hup.
    { now rewrite (VerifySignature_upper_prefix _ _ _ Hok Hup) in Hv. }
    split; [reflexivity|]. split; [reflexivity|].
    destruct (VerifySignature_lower_prefix address message sig Hok Hup)
      as (addrBytes & Haddr & Hlen & Hv').
    rewrite Hv' in Hv. revert Hv.
    destruct (hexutil_Decode (sig_R sig)) as [r|]; [|discriminate].
    destruct (hexutil_Decode (sig_S sig)) as [s|]; [|discriminate].
    destruct (Ecrecover _ _) as [pubKey|] eqn:Epk; [|discriminate].
    destruct (UnmarshalPubkey pubKey) as [key|] eqn:Ekey; [|discriminate].
    intros [= <-]. exists addrBytes, r, s, pubKey, key. now repeat split.
Qed.

Lemma VerifySignature_upper_case_prefix_witness :
  @VerifySignature secp256k1 key_one_address_0X hello (key_one_signature hello)
    = Err ErrHex /\
  (exists e, @VerifySignature secp256k1 "0x12" hello (key_one_signature hello)
               = Err e /\ AddressError e) /\
  (exists e', @VerifySignature secp256k1 key_one_address hello
                (mkSignature "zz" "0x02" 0) = Err e' /\ DecodeError e') /\
  (exists e', @VerifySignature secp256k1 key_one_address hello
                (mkSignature "0x01" "0x2" 0) = Err e' /\ DecodeError e') /\
  (exists e', @VerifySignature secp256k1 key_one_address hello
                (mkSignature "0x01" "0x02" 0) = Err e' /\ DecodeError e') /\
  @VerifySignature secp256k1 key_one_address hello (key_one_signature hello)
    = Ok true.
Proof.
  split; [|split; [|split; [|split; [|split]]]].
  - apply (proj1 (proj2 (@VerifySignature_upper_case_prefix secp256k1
                           key_one_address_0X hello (key_one_signature hello))));
      reflexivity.
  - apply (proj1 (proj2 (proj2 (@VerifySignature_upper_case_prefix secp256k1
                                  "0x12" hello (key_one_signature hello))))).
    reflexivity.
  - apply (proj1 (proj1 (proj2 (proj2 (proj2
             (@VerifySignature_upper_case_prefix secp256k1 key_one_address
                hello (mkSignature "zz" "0x02" 0))))) eq_refl eq_refl) ErrHex).
    reflexivity.
  - apply (proj1 (proj2 (proj1 (proj2 (proj2 (proj2
             (@VerifySignature_upper_case_prefix secp256k1 key_one_address
                hello (mkSignature "0x01" "0x2" 0))))) eq_refl eq_refl)) ErrHex).
    reflexivity.
  - apply (proj1 (proj2 (proj2 (proj1 (proj2 (proj2 (proj2
             (@VerifySignature_upper_case_prefix secp256k1 key_one_address
                hello (mkSignature "0x01" "0x02" 0))))) eq_refl eq_refl)))
             [x01] [x02]); try reflexivity.
    intros pubKey key Hpk. vm_compute in Hpk. discriminate Hpk.
  - destruct (proj2 (proj2 (proj2 (proj1 (proj2 (proj2 (proj2
                (@VerifySignature_upper_case_prefix secp256k1 key_one_address
                   hello (key_one_signature hello))))) eq_refl eq_refl)))
                (be_bytes 32 Secp.Gx)
                (be_bytes 32 ((be_to_Z (HashMessage hello) + Secp.Gx) mod Secp.N))
                (x04 :: be_bytes 32 Secp.Gx ++ be_bytes 32 Secp.Gy)
                (Secp.Gx, Secp.Gy))
      as (addrBytes & Haddr & _ & Hv & _).
    + vm_compute. reflexivity.
    + vm_compute. reflexivity.
    + vm_compute. reflexivity.
    + vm_compute. reflexivity.
    + rewrite Hv. vm_compute in Haddr. injection Haddr as <-.
      vm_compute. reflexivity.
Defined.
(** ** C1: determinism of [ActionHash] *)

Lemma Keccak256_length (data : bytes) : length (Keccak256 data) = 32%nat.
Proof. reflexivity. Qed.

Lemma ActionHash_length (ord : RangeOrder) (action : Value)
    (vaultAddress : string) (nonce : Z) (digest : bytes) :
  ActionHash ord action vaultAddress nonce = Ok digest -> length digest = 32%nat.
Proof.
  unfold ActionHash.
  destruct (ActionHash_data ord action vaultAddress nonce); [|discriminate].
  intros [= <-]. apply Keccak256_length.
Qed.

Lemma range_short (ord : RangeOrder) (A : Type) (l : list A) :
  is_range ord -> (length l <= 1)%nat -> ord A l = l.
Proof.
  intros Hord Hlen. pose proof (Hord A l) as Hp.
  destruct l as [|x [|y l]]; [| |simpl in Hlen; lia].
  - now apply Permutation_nil_r in Hp.
  - now apply Permutation_singleton_r in Hp.
Qed.

Lemma encode_entries_length (ord : RangeOrder) (m : list (string * Value))
    (es : list bytes) :
  encode_entries ord m = Ok es -> length es = length m.
Proof.
  revert es. induction m as [|[k x] m IH]; intros es H.
  - now injection H as <-.
  - cbn [encode_entries] in H.
    destruct (Msgpack.encode ord x); [|discriminate]. cbn [bind] in H.
    fold (encode_entries ord) in H.
    destruct (encode_entries ord m) as [b|]; [|discriminate].
    injection H as <-. simpl. now rewrite (IH b eq_refl).
Qed.

Lemma ordered_entries (m : list (string * Value)) :
  (fix all (m : list (string * Value)) : bool :=
     match m with
     | [] => true
     | (_, x) :: r => ordered x && all r
     end) m = true ->
  Forall (fun kv => ordered (snd kv) = true) m.
Proof.
  induction m as [|[k x] m IH]; intros H; constructor.
  - now apply andb_true_iff in H as [H _].
  - apply IH. now apply andb_true_iff in H as [_ H].
Qed.

Lemma encode_entries_ext (ord1 ord2 : RangeOrder) (m : list (string * Value)) :
  Forall (fun kv => Msgpack.encode ord1 (snd kv) = Msgpack.encode ord2 (snd kv)) m ->
  encode_entries ord1 m = encode_entries ord2 m.
Proof.
  induction 1 as [|[k x] m Hx Hm IH]; [reflexivity|].
  cbn [encode_entries]. simpl in Hx. rewrite Hx.
  fold (encode_entries ord1). fold (encode_entries ord2). now rewrite IH.
Qed.

Lemma encode_slice_ext (ord1 ord2 : RangeOrder) (l : list Value) :
  Forall (fun x => Msgpack.encode ord1 x = Msgpack.encode ord2 x) l ->
  encode_slice ord1 l = encode_slice ord2 l.
Proof.
  induction 1 as [|x l Hx Hl IH]; [reflexivity|].
  cbn [encode_slice]. rewrite Hx.
  fold (encode_slice ord1). fold (encode_slice ord2). now rewrite IH.
Qed.

(** A value without a map of two or more entries has one encoding. *)
Lemma encode_ordered (ord1 ord2 : RangeOrder) :
  is_range ord1 -> is_range ord2 ->
  forall v, ordered v = true -> Msgpack.encode ord1 v = Msgpack.encode ord2 v.
Proof.
  intros H1 H2 v. induction v using Value_nested_ind; intros Ho;
    try reflexivity.
  - rewrite !encode_VSlice. cbn [ordered] in Ho.
    rewrite forallb_forall in Ho.
    rewrite (encode_slice_ext ord1 ord2 l); [reflexivity|].
    apply Forall_forall. intros x Hx. rewrite Forall_forall in H.
    apply (H x Hx). apply Ho. now apply list_elem_of_In.
  - rewrite !encode_VMap. cbn [ordered] in Ho.
    apply andb_true_iff in Ho as [Hlen Hall].
    apply ordered_entries in Hall.
    rewrite (encode_entries_ext ord1 ord2 m).
    + destruct (encode_entries ord2 m) as [es|] eqn:Ees; [|reflexivity].
      cbn [bind]. apply encode_entries_length in Ees.
      rewrite (range_short ord1), (range_short ord2); auto; lia.
    + apply Forall_forall. intros x Hx. rewrite Forall_forall in H, Hall.
      apply (H x Hx). now apply Hall.
  - rewrite !encode_VStruct. cbn [ordered] in Ho.
    apply ordered_entries in Ho.
    rewrite (encode_entries_ext ord1 ord2 m); [reflexivity|].
    apply Forall_forall. intros x Hx. rewrite Forall_forall in H, Ho.
    apply (H x Hx). now apply Ho.
Qed.

Lemma vault_tag_shape (vaultAddress : string) (tag : bytes) :
  vault_tag vaultAddress = Ok tag ->
  (vaultAddress = "" /\ tag = [x00]) \/
  (exists addrBytes, AddressToBytes vaultAddress = Ok addrBytes /\
                     tag = x01 :: addrBytes).
Proof.
  unfold vault_tag. destruct (String.eqb_spec vaultAddress "") as [->|Hne].
  - intros [= <-]. now left.
  - destruct (AddressToBytes vaultAddress) as [b|]; [|discriminate].
    intros [= <-]. right. now exists b.
Qed.

(** The bytes that are hashed determine the serialization, every field
    of the action, the nonce and the vault tag: the three parts cannot run
    into one another, and the serialization hides no field. *)
Lemma ActionHash_data_inj (ord ord' : RangeOrder) (action action' : Value)
    (vaultAddress vaultAddress' : string) (nonce nonce' : Z) (data : bytes) :
  is_range ord -> is_range ord' ->
  sized action = true -> sized action' = true ->
  0 <= nonce < 2 ^ 64 -> 0 <= nonce' < 2 ^ 64 ->
  ActionHash_data ord action vaultAddress nonce = Ok data ->
  ActionHash_data ord' action' vaultAddress' nonce' = Ok data ->
  Msgpack.Marshal ord action = Msgpack.Marshal ord' action' /\
  Permutation (fields action) (fields action') /\
  nonce = nonce' /\
  vault_tag vaultAddress = vault_tag vaultAddress'.
Proof.
  intros Hord Hord' Hs Hs' Hn Hn' H1 H2.
  destruct (Msgpack.Marshal ord action) as [d|] eqn:Ed;
    [|unfold ActionHash_data in H1; rewrite Ed in H1; discriminate].
  destruct (Msgpack.Marshal ord' action') as [d'|] eqn:Ed';
    [|unfold ActionHash_data in H2; rewrite Ed' in H2; discriminate].
  rewrite (ActionHash_data_spec _ _ _ _ _ Ed) in H1.
  rewrite (ActionHash_data_spec _ _ _ _ _ Ed') in H2.
  destruct (vault_tag vaultAddress) as [t|]; [|discriminate].
  destruct (vault_tag vaultAddress') as [t'|]; [|discriminate].
  cbn [bind] in H1, H2. injection H1 as <-. injection H2 as H2.
  apply Marshal_encode in Ed, Ed'.
  destruct (encode_fields ord' ord action' action d' d _ _
              Hord' Hord Hs' Hs Ed' Ed H2) as (-> & Hrest & Hfields).
  assert (Hnt : PutUint64 nonce' = PutUint64 nonce /\ t' = t).
  { apply (app_inj_1 (PutUint64 nonce') (PutUint64 nonce) t' t);
      [|exact Hrest].
    unfold PutUint64. now rewrite !length_be_bytes. }
  destruct Hnt as [Hnn ->]. split; [reflexivity|].
  split; [now symmetry|]. split; [|reflexivity].
  symmetry. apply (be_bytes_inj 8); [exact Hn'|exact Hn|exact Hnn].
Qed.

(** One field of an action changed, a buy order turned into a sell
    order: other bytes are hashed and another digest comes out. *)
Example ActionHash_field_change :
  ~ Permutation (fields struct_action) (fields struct_action_sell) /\
  ActionHash_data range_fwd struct_action "" 1
    <> ActionHash_data range_fwd struct_action_sell "" 1 /\
  ActionHash range_fwd struct_action "" 1
    <> ActionHash range_fwd struct_action_sell "" 1.
Proof.
  split; [|split; vm_compute; discriminate].
  intros Hp.
  assert (Hin : In ([Key "orders"; Index 0%nat; Key "b"], SBool true)
                  (fields struct_action_sell)).
  { apply (Permutation_in _ Hp). vm_compute. tauto. }
  vm_compute in Hin. intuition discriminate.
Qed.

(** The corrected C1.  Every digest has 32 bytes.  For an action in which
    no host-language map has two or more entries (structs, slices and
    scalars, nested at will) the digest is the same under every iteration
    order.  The bytes handed to the hash determine the action's
    serialization and with it every field of the action (each scalar
    with the keys and indices that lead to it, and the length of each
    slice, map and struct), the nonce and the vault tag: a change of any
    single field of the action, of the nonce or of the decoded vault
    bytes changes the bytes that are hashed, whatever the iteration
    orders.  The vault address enters through its decoded bytes only: two
    spellings of one address give the same digest. *)
Theorem ActionHash_deterministic (ord ord' : RangeOrder)
    (action action' : Value) (vaultAddress vaultAddress' : string)
    (nonce nonce' : Z) :
  is_range ord -> is_range ord' ->
  (forall digest, ActionHash ord action vaultAddress nonce = Ok digest ->
     length digest = 32%nat) /\
  (ordered action = true ->
     ActionHash ord action vaultAddress nonce
       = ActionHash ord' action vaultAddress nonce) /\
  (sized action = true -> sized action' = true ->
   0 <= nonce < 2 ^ 64 -> 0 <= nonce' < 2 ^ 64 ->
   (forall data,
      ActionHash_data ord action vaultAddress nonce = Ok data ->
      ActionHash_data ord' action' vaultAddress' nonce' = Ok data ->
      Msgpack.Marshal ord action = Msgpack.Marshal ord' action' /\
      Permutation (fields action) (fields action') /\
      nonce = nonce' /\
      vault_tag vaultAddress = vault_tag vaultAddress') /\
   (~ Permutation (fields action) (fields action') \/ nonce <> nonce' \/
    vault_tag vaultAddress <> vault_tag vaultAddress' ->
    forall data,
      ActionHash_data ord action vaultAddress nonce = Ok data ->
      ActionHash_data ord' action' vaultAddress' nonce' <> Ok data)) /\
  (forall addrBytes,
     AddressToBytes vaultAddress = Ok addrBytes ->
     AddressToBytes vaultAddress' = Ok addrBytes ->
     ActionHash ord action vaultAddress nonce
       = ActionHash ord action vaultAddress' nonce).
Proof.
  intros Hord Hord'. split; [|split; [|split]].
  - intros digest. apply ActionHash_length.
  - intros Ho. unfold ActionHash, ActionHash_data, Msgpack.Marshal.
    now rewrite (encode_ordered ord ord' Hord Hord' action Ho).
  - intros Hs Hs' Hn Hn'.
    assert (Hinj : forall data,
              ActionHash_data ord action vaultAddress nonce = Ok data ->
              ActionHash_data ord' action' vaultAddress' nonce' = Ok data ->
              Msgpack.Marshal ord action = Msgpack.Marshal ord' action' /\
              Permutation (fields action) (fields action') /\
              nonce = nonce' /\
              vault_tag vaultAddress = vault_tag vaultAddress').
    { intros data H1 H2.
      exact (ActionHash_data_inj ord ord' action action' vaultAddress
               vaultAddress' nonce nonce' data Hord Hord' Hs Hs' Hn Hn' H1 H2). }
    split; [exact Hinj|].
    intros Hdiff data H1 H2. destruct (Hinj data H1 H2) as (_ & Hf & Hnn & Ht).
    destruct Hdiff as [Hd|[Hd|Hd]]; contradiction.
  - intros addrBytes Hv Hv'. unfold ActionHash, ActionHash_data.
    rewrite (AddressToBytes_nonempty _ _ Hv), (AddressToBytes_nonempty _ _ Hv').
    now rewrite Hv, Hv'.
Qed.

(** C1 as stated fails twice.  The same map action, vault and nonce give
    two different byte sequences and two different digests when the map
    is ranged over in two orders; and two different vault address texts
    (upper and lower case digits, or no prefix) give the same digest. *)
Lemma ActionHash_not_deterministic :
  (ActionHash_data range_fwd two_entry_map "" 1
     <> ActionHash_data range_rev two_entry_map "" 1 /\
   ActionHash range_fwd two_entry_map "" 1
     <> ActionHash range_rev two_entry_map "" 1) /\
  (vault_upper <> vault_lower /\
   ActionHash range_fwd two_entry_map vault_upper 1
     = ActionHash range_fwd two_entry_map vault_lower 1 /\
   vault_bare <> vault_lower /\
   ActionHash range_fwd two_entry_map vault_bare 1
     = ActionHash range_fwd two_entry_map vault_lower 1).
Proof.
  split; [split|split; [|split; [|split]]].
  - vm_compute. discriminate.
  - vm_compute. discriminate.
  - discriminate.
  - vm_compute. reflexivity.
  - discriminate.
  - vm_compute. reflexivity.
Qed.

Lemma ActionHash_deterministic_witness :
  (forall digest, ActionHash range_fwd struct_action vault_upper 1 = Ok digest ->
     length digest = 32%nat) /\
  ActionHash range_fwd struct_action vault_upper 1
    = ActionHash range_rev struct_action vault_upper 1 /\
  (Msgpack.Marshal range_fwd struct_action = Msgpack.Marshal range_rev struct_action /\
   Permutation (fields struct_action) (fields struct_action) /\
   1 = 1 /\ vault_tag vault_upper = vault_tag vault_lower) /\
  (forall data,
     ActionHash_data range_fwd struct_action vault_upper 1 = Ok data ->
     ActionHash_data range_rev struct_action_sell vault_lower 1 <> Ok data) /\
  ActionHash range_fwd struct_action vault_upper 1
    = ActionHash range_fwd struct_action vault_lower 1.
Proof.
  pose proof (ActionHash_deterministic range_fwd range_rev struct_action
                struct_action vault_upper vault_lower 1 1
                is_range_fwd is_range_rev) as (H1 & H2 & H3 & H4).
  pose proof (ActionHash_deterministic range_fwd range_rev struct_action
                struct_action_sell vault_upper vault_lower 1 1
                is_range_fwd is_range_rev) as (_ & _ & H5 & _).
  split; [exact H1|]. split; [apply H2; reflexivity|]. split; [|split].
  - destruct (ActionHash_data range_fwd struct_action vault_upper 1)
      as [data|] eqn:E; [|vm_compute in E; discriminate E].
    apply (proj1 (H3 eq_refl eq_refl ltac:(lia) ltac:(lia)) data eq_refl).
    rewrite <- E. vm_compute. reflexivity.
  - apply (proj2 (H5 eq_refl eq_refl ltac:(lia) ltac:(lia))).
    left. exact (proj1 ActionHash_field_change).
  - destruct (AddressToBytes vault_upper) as [b|] eqn:E;
      [|vm_compute in E; discriminate E].
    apply (H4 b eq_refl). rewrite <- E. vm_compute. reflexivity.
Defined.
(* ===================================================================== *)
(** * Part III: the rest of the package                                   *)
(* ===================================================================== *)

(** ** Rounding and scaling at the limits of [math.Pow10] *)

Lemma Pow10_table :
  forallb (fun n => positive_finite (F64.Pow10 n)) in_range_places = true.
Proof. vm_compute. reflexivity. Qed.

(** Within the tables the power is a positive number. *)
Lemma Pow10_positive (n : Z) :
  -323 <= n <= 308 -> positive_finite (F64.Pow10 n) = true.
Proof.
  intros Hn. pose proof Pow10_table as H.
  rewrite forallb_forall in H. apply H.
  unfold in_range_places. apply in_map_iff. exists (Z.to_nat (n + 323)).
  split; [lia|]. apply in_seq. lia.
Qed.

Lemma Pow10_above (n : Z) : 308 < n -> F64.Pow10 n = S754_infinity false.
Proof.
  intros H. unfold F64.Pow10.
  replace ((0 <=? n) && (n <=? 308)) with false by lia.
  replace ((-323 <=? n) && (n <=? 0)) with false by lia.
  now replace (0 <? n) with true by lia.
Qed.

Lemma Pow10_below (n : Z) : n < -323 -> F64.Pow10 n = F64.zero.
Proof.
  intros H. unfold F64.Pow10.
  replace ((0 <=? n) && (n <=? 308)) with false by lia.
  replace ((-323 <=? n) && (n <=? 0)) with false by lia.
  now replace (0 <? n) with false by lia.
Qed.

(** X1.  [RoundFloat64] on the special values.  A NaN stays a NaN.  When
    [places] lies outside the range -323..308 of [math.Pow10] the scale is
    0 or +Inf and the result is NaN for every input, finite numbers
    included.  Within that range an infinity and a zero (of either sign)
    are returned unchanged. *)
Theorem RoundFloat64_special_values (x : float64) (places : Z) :
  (F64.IsNaN x = true -> F64.IsNaN (RoundFloat64 x places) = true) /\
  (places < -323 \/ 308 < places ->
     F64.IsNaN (RoundFloat64 x places) = true) /\
  (-323 <= places <= 308 ->
   F64.IsInf x = true \/ F64.eqb x F64.zero = true ->
     RoundFloat64 x places = x).
Proof.
  unfold RoundFloat64. split; [|split].
  - destruct x; try discriminate. intros _. reflexivity.
  - intros [H|H].
    + rewrite (Pow10_below _ H). now destruct x as [[]|[]| |[] m e].
    + rewrite (Pow10_above _ H). now destruct x as [[]|[]| |[] m e].
  - intros H Hx. pose proof (Pow10_positive _ H) as Hp.
    destruct (F64.Pow10 places) as [| | |[] m e]; try discriminate.
    destruct x as [[]|[]| |s mx ex]; try reflexivity;
      destruct Hx as [Hx|Hx]; try discriminate Hx.
    now destruct s.
Qed.

Lemma RoundFloat64_special_values_witness :
  F64.IsNaN (RoundFloat64 S754_nan 2) = true /\
  F64.IsNaN (RoundFloat64 f_1_5 400) = true /\
  RoundFloat64 (S754_infinity true) 2 = S754_infinity true.
Proof.
  split; [|split].
  - apply (proj1 (RoundFloat64_special_values S754_nan 2)). reflexivity.
  - apply (proj1 (proj2 (RoundFloat64_special_values f_1_5 400))). right. lia.
  - apply (proj2 (proj2 (RoundFloat64_special_values (S754_infinity true) 2)));
      [lia|]. left. reflexivity.
Defined.

(** A finite input can round to an infinity: the scaled product
    overflows. *)
Example RoundFloat64_overflows :
  RoundFloat64 (F64.lit 1 300) 10 = S754_infinity false.
Proof. vm_compute. reflexivity. Qed.

(** X2.  [FloatToInt] when [places] lies outside the range of
    [math.Pow10].  Above 308 the scale is +Inf and every call fails: with
    the invalid-float error for NaN and the infinities, with the overflow
    error for every finite number, zero included.  Below -323 the scale
    is 0, and every finite number converts to 0 without an error. *)
Theorem FloatToInt_places_out_of_range (x : float64) (places : Z) :
  (308 < places ->
     FloatToInt x places =
       Err (if F64.IsNaN x || F64.IsInf x then ErrInvalidFloat
            else ErrIntegerOverflow)) /\
  (places < -323 ->
     FloatToInt x places =
       if F64.IsNaN x || F64.IsInf x then Err ErrInvalidFloat else Ok 0).
Proof.
  unfold FloatToInt. split; intros H.
  - rewrite (Pow10_above _ H). now destruct x as [[]|[]| |[] m e].
  - rewrite (Pow10_below _ H). now destruct x as [[]|[]| |[] m e].
Qed.

Lemma FloatToInt_places_out_of_range_witness :
  FloatToInt f_1_5 309 = Err ErrIntegerOverflow /\
  FloatToInt f_1_5 (-324) = Ok 0.
Proof.
  split.
  - apply (proj1 (FloatToInt_places_out_of_range f_1_5 309)). lia.
  - apply (proj2 (FloatToInt_places_out_of_range f_1_5 (-324))). lia.
Defined.

(** ** The decimal cache as the converters leave it *)

Lemma cache_store_miss (c : Cache) (x : float64) (d : Decimal) :
  cache_lookup c x = None -> cache_store c x d = c ++ [(x, d)].
Proof.
  induction c as [|[k dk] c IH]; cbn [cache_lookup cache_store]; [reflexivity|].
  destruct (F64.eqb k x); [discriminate|]. intros H. now rewrite IH.
Qed.


Lemma cache_lookup_snoc (c : Cache) (x : float64) (d : Decimal) :
  cache_lookup c x = None -> F64.eqb x x = true ->
  cache_lookup (c ++ [(x, d)]) x = Some d.
Proof.
  induction c as [|[k dk] c IH]; cbn [cache_lookup app].
  - now intros _ ->.
  - destruct (F64.eqb k x); [discriminate|exact IH].
Qed.

(** A NaN never converts: its text is not a decimal. *)
Lemma convert_NaN (places : Z) : exists e, convert S754_nan places = Err e.
Proof.
  unfold convert, Sprintf_f.
  destruct ((0 <=? places) && (places <=? 1000000)).
  - exists ErrCreateDecimal. vm_compute. reflexivity.
  - exists ErrParseFloat. vm_compute. reflexivity.
Qed.

Lemma convert_not_NaN (x : float64) (places : Z) (d : Decimal) :
  convert x places = Ok d -> F64.IsNaN x = false.
Proof.
  destruct x; try reflexivity. intros H.
  destruct (convert_NaN places) as [e He]. congruence.
Qed.

Lemma eqb_refl_not_NaN (x : float64) : F64.IsNaN x = false -> F64.eqb x x = true.
Proof.
  destruct x as [s|s| |s m e]; try reflexivity; [now destruct s|discriminate|].
  intros _. unfold F64.eqb, SFeqb, SFcompare.
  rewrite Z.compare_refl, Pos.compare_cont_refl.
  now destruct s; rewrite ?Pos.compare_cont_refl.
Qed.









(** X4.  A successful [FloatToDecimal] is remembered.  If the call
    succeeds while the cache has fewer than 1000 entries and |x| is below
    1000000, the cache it leaves answers [x] with the decimal returned,
    and every later call for [x] returns that decimal and leaves the
    cache alone, at any [places]. *)
Theorem FloatToDecimal_remembers (x : float64) (places places' : Z)
    (cache : Cache) (d : Decimal) :
  fst (FloatToDecimal x places cache) = Ok d ->
  (length cache < 1000)%nat ->
  F64.ltb (F64.abs x) (F64.of_Z 1000000) = true ->
  let cache' := snd (FloatToDecimal x places cache) in
  cache_lookup cache' x = Some d /\
  FloatToDecimal x places' cache' = (Ok d, cache').
Proof.
  intros Hd Hlen Hx cache'.
  assert (Hl : cache_lookup cache' x = Some d).
  { subst cache'. revert Hd. unfold FloatToDecimal.
    destruct (cache_lookup cache x) as [d0|] eqn:El.
    - now intros [= <-].
    - destruct (convert x places) as [d0|e] eqn:Ec; [|discriminate].
      replace ((length cache <? 1000)%nat) with true by lia.
      rewrite Hx. cbn [andb fst snd]. intros [= <-].
      rewrite (cache_store_miss _ _ _ El).
      apply cache_lookup_snoc; [exact El|].
      apply eqb_refl_not_NaN. exact (convert_not_NaN _ _ _ Ec). }
  split; [exact Hl|]. now apply FloatToDecimal_hit.
Qed.

Lemma FloatToDecimal_remembers_witness :
  let cache' := snd (FloatToDecimal f_2_5 1 []) in
  cache_lookup cache' f_2_5 = Some (mkDecimal 25 (-1)) /\
  FloatToDecimal f_2_5 0 cache' = (Ok (mkDecimal 25 (-1)), cache').
Proof.
  apply (FloatToDecimal_remembers f_2_5 1 0 [] (mkDecimal 25 (-1))).
  - reflexivity.
  - simpl. lia.
  - reflexivity.
Defined.

(** ** Conversions on a cache that the wire converter filled *)

Lemma FloatToWire_agree (x : float64) (c1 c2 : Cache) :
  cache_sound DefaultDecimalPlaces c1 -> cache_sound DefaultDecimalPlaces c2 ->
  fst (FloatToWire x c1) = fst (FloatToWire x c2) /\
  cache_sound DefaultDecimalPlaces (snd (FloatToWire x c1)) /\
  cache_sound DefaultDecimalPlaces (snd (FloatToWire x c2)).
Proof.
  intros H1 H2.
  destruct (FloatToWire_transparent x c1 H1) as [E1 S1].
  destruct (FloatToWire_transparent x c2 H2) as [E2 S2].
  split; [congruence|]. now split.
Qed.

Lemma OrderTypeToWire_agree (t : OrderType) (c1 c2 : Cache) :
  cache_sound DefaultDecimalPlaces c1 -> cache_sound DefaultDecimalPlaces c2 ->
  fst (OrderTypeToWire t c1) = fst (OrderTypeToWire t c2) /\
  cache_sound DefaultDecimalPlaces (snd (OrderTypeToWire t c1)) /\
  cache_sound DefaultDecimalPlaces (snd (OrderTypeToWire t c2)).
Proof.
  intros H1 H2. unfold OrderTypeToWire.
  destruct (Limit t); [now split|].
  destruct (Trigger t) as [tr|]; [|now split].
  unfold mbind', ret.
  destruct (FloatToWire_agree (TriggerPx tr) c1 c2 H1 H2) as (E & S1 & S2).
  destruct (FloatToWire (TriggerPx tr) c1) as [[p1|e1] c1'],
           (FloatToWire (TriggerPx tr) c2) as [[p2|e2] c2'];
    simpl in *; try discriminate; (simpl; split; [congruence|now split]).
Qed.

Lemma OrderRequestToOrderWire_agree (o : OrderRequest) (asset : Z)
    (c1 c2 : Cache) :
  cache_sound DefaultDecimalPlaces c1 -> cache_sound DefaultDecimalPlaces c2 ->
  fst (OrderRequestToOrderWire o asset c1)
    = fst (OrderRequestToOrderWire o asset c2) /\
  cache_sound DefaultDecimalPlaces (snd (OrderRequestToOrderWire o asset c1)) /\
  cache_sound DefaultDecimalPlaces (snd (OrderRequestToOrderWire o asset c2)).
Proof.
  intros H1 H2. unfold OrderRequestToOrderWire.
  destruct (Validate o); [now split|].
  unfold mbind', ret.
  destruct (OrderTypeToWire_agree (OrderType_ o) c1 c2 H1 H2) as (E & S1 & S2).
  destruct (OrderTypeToWire (OrderType_ o) c1) as [[t1|e1] c1'],
           (OrderTypeToWire (OrderType_ o) c2) as [[t2|e2] c2'];
    simpl in E, S1, S2; try discriminate;
    [|(simpl; split; [congruence|now split])].
  injection E as ->.
  destruct (FloatToWire_agree (LimitPrice o) c1' c2' S1 S2) as (E & S1' & S2').
  destruct (FloatToWire (LimitPrice o) c1') as [[p1|e1] c1''],
           (FloatToWire (LimitPrice o) c2') as [[p2|e2] c2''];
    simpl in E, S1', S2'; try discriminate;
    [|(simpl; split; [congruence|now split])].
  injection E as ->.
  destruct (FloatToWire_agree (Size o) c1'' c2'' S1' S2') as (E & S1'' & S2'').
  destruct (FloatToWire (Size o) c1'') as [[s1|e1] c1'''],
           (FloatToWire (Size o) c2'') as [[s2|e2] c2'''];
    simpl in E, S1'', S2''; try discriminate;
    (simpl; split; [congruence|now split]).
Qed.

Lemma batch_loop_agree (orders : list OrderRequest) (assetMap : gmap string Z)
    (acc : list OrderWire) (c1 c2 : Cache) :
  cache_sound DefaultDecimalPlaces c1 -> cache_sound DefaultDecimalPlaces c2 ->
  fst (batch_loop orders assetMap acc c1)
    = fst (batch_loop orders assetMap acc c2) /\
  cache_sound DefaultDecimalPlaces (snd (batch_loop orders assetMap acc c1)) /\
  cache_sound DefaultDecimalPlaces (snd (batch_loop orders assetMap acc c2)).
Proof.
  revert acc c1 c2. induction orders as [|o orders IH]; intros acc c1 c2 H1 H2;
    cbn [batch_loop]; [now split|].
  destruct (assetMap !! Coin o) as [asset|]; [|now split].
  destruct (OrderRequestToOrderWire_agree o asset c1 c2 H1 H2) as (E & S1 & S2).
  destruct (OrderRequestToOrderWire o asset c1) as [[w1|e1] c1'],
           (OrderRequestToOrderWire o asset c2) as [[w2|e2] c2'];
    simpl in E, S1, S2; try discriminate.
  - injection E as ->. now apply IH.
  - injection E as ->. now split.
Qed.

(** X5.  The order conversions do not depend on what the cache has seen.
    On a cache in which every answer is the one computed at the eight
    places that [FloatToWire] uses (a cache that only these functions have
    filled), [OrderRequestToOrderWire], [BatchOrdersToWire] and
    [ModifyRequestToWire] return what they return on an empty cache, and
    they leave such a cache. *)
Theorem order_conversion_ignores_cache_history (cache : Cache) :
  cache_sound DefaultDecimalPlaces cache ->
  (forall o asset,
     fst (OrderRequestToOrderWire o asset cache)
       = fst (OrderRequestToOrderWire o asset []) /\
     cache_sound DefaultDecimalPlaces
       (snd (OrderRequestToOrderWire o asset cache))) /\
  (forall orders assetMap,
     fst (BatchOrdersToWire orders assetMap cache)
       = fst (BatchOrdersToWire orders assetMap []) /\
     cache_sound DefaultDecimalPlaces
       (snd (BatchOrdersToWire orders assetMap cache))) /\
  (forall req assetMap,
     fst (ModifyRequestToWire req assetMap cache)
       = fst (ModifyRequestToWire req assetMap []) /\
     cache_sound DefaultDecimalPlaces
       (snd (ModifyRequestToWire req assetMap cache))).
Proof.
  intros Hc. pose proof (cache_sound_empty DefaultDecimalPlaces) as H0.
  split; [|split].
  - intros o asset.
    destruct (OrderRequestToOrderWire_agree o asset cache [] Hc H0) as (E & S & _).
    now split.
  - intros orders assetMap. unfold BatchOrdersToWire.
    destruct (length orders =? 0)%nat; [now split|].
    destruct (batch_loop_agree orders assetMap [] cache [] Hc H0) as (E & S & _).
    now split.
  - intros req assetMap. unfold ModifyRequestToWire.
    destruct (ModifyRequest_Validate req); [now split|].
    destruct (assetMap !! Coin (Order req)) as [asset|]; [|now split].
    destruct (OrderRequestToOrderWire_agree (Order req) asset cache [] Hc H0)
      as (E & S & _).
    destruct (OrderRequestToOrderWire (Order req) asset cache) as [[w1|e1] c1'],
             (OrderRequestToOrderWire (Order req) asset []) as [[w2|e2] c2'];
      simpl in E, S; try discriminate.
    + injection E as ->. now destruct (OrderID req <=? 0).
    + injection E as ->. now split.
Qed.

Lemma order_conversion_ignores_cache_history_witness :
  fst (OrderRequestToOrderWire trigger_order 4 (snd (FloatToWire f_1_25 [])))
    = fst (OrderRequestToOrderWire trigger_order 4 []) /\
  fst (BatchOrdersToWire [trigger_order] eth_is_4 (snd (FloatToWire f_1_25 [])))
    = fst (BatchOrdersToWire [trigger_order] eth_is_4 []).
Proof.
  assert (Hc : cache_sound DefaultDecimalPlaces (snd (FloatToWire f_1_25 []))).
  { apply FloatToWire_transparent, cache_sound_empty. }
  split.
  - apply (proj1 (order_conversion_ignores_cache_history _ Hc)).
  - apply (proj1 (proj2 (order_conversion_ignores_cache_history _ Hc))).
Defined.
(** ** Orders: what a returned wire guarantees *)

Lemma FloatToWire_ok (x : float64) (c c' : Cache) (s : string) :
  FloatToWire x c = (Ok s, c') -> F64.IsNaN x = false /\ F64.IsInf x = false.
Proof.
  unfold FloatToWire. destruct (F64.IsNaN x) eqn:E1; [discriminate|].
  destruct (F64.IsInf x) eqn:E2; [discriminate|]. now split.
Qed.

Lemma positive_finite_spec (x : float64) :
  F64.leb x F64.zero = false -> F64.IsNaN x = false -> F64.IsInf x = false ->
  positive_finite x = true.
Proof. now destruct x as [[]|[]| |[] m e]. Qed.

(** [Validate] alone lets a NaN through: [NaN <= 0] is false. *)
Example Validate_accepts_NaN :
  Validate (CreateLimitOrder "ETH" true S754_nan S754_nan "Gtc" false None)
  = None.
Proof. reflexivity. Qed.

Lemma OrderRequestToOrderWire_inv (o : OrderRequest) (asset : Z)
    (cache cache' : Cache) (wire : OrderWire) :
  OrderRequestToOrderWire o asset cache = (Ok wire, cache') ->
  Validate o = None /\
  exists c1 c2,
    OrderTypeToWire (OrderType_ o) cache = (Ok (wire_Type wire), c1) /\
    FloatToWire (LimitPrice o) c1 = (Ok (wire_Price wire), c2) /\
    FloatToWire (Size o) c2 = (Ok (wire_Size wire), cache') /\
    wire = mkOrderWire asset (IsBuy o) (wire_Price wire) (wire_Size wire)
             (ReduceOnly o) (wire_Type wire) (Cloid o).
Proof.
  unfold OrderRequestToOrderWire.
  destruct (Validate o); [discriminate|]. unfold mbind', ret.
  destruct (OrderTypeToWire (OrderType_ o) cache) as [[t|e] c1] eqn:Et;
    [|discriminate].
  destruct (FloatToWire (LimitPrice o) c1) as [[p|e] c2] eqn:Ep; [|discriminate].
  destruct (FloatToWire (Size o) c2) as [[s|e] c3] eqn:Es; [|discriminate].
  intros [= <- <-]. split; [reflexivity|]. exists c1, c2. now repeat split.
Qed.

(** X6.  What a wire order guarantees.  When [OrderRequestToOrderWire]
    returns a wire, the size and the limit price of the request are
    positive finite numbers (a NaN, which [Validate] lets through, and an
    infinity are refused by the conversion); asset, side, reduce-only flag
    and client id are those of the call; price and size are the texts
    that [FloatToWire] gives, converted in this order; and the wire type
    has exactly one arm: the limit arm of the request when it has one,
    otherwise its trigger arm, with a positive finite trigger price
    converted before the limit price. *)
Theorem OrderRequestToOrderWire_ok (o : OrderRequest) (asset : Z)
    (cache cache' : Cache) (wire : OrderWire) :
  OrderRequestToOrderWire o asset cache = (Ok wire, cache') ->
  positive_finite (Size o) = true /\
  positive_finite (LimitPrice o) = true /\
  wire_Asset wire = asset /\ wire_IsBuy wire = IsBuy o /\
  wire_ReduceOnly wire = ReduceOnly o /\ wire_Cloid wire = Cloid o /\
  (exists c1 c2,
     FloatToWire (LimitPrice o) c1 = (Ok (wire_Price wire), c2) /\
     FloatToWire (Size o) c2 = (Ok (wire_Size wire), cache')) /\
  match Limit (OrderType_ o), Trigger (OrderType_ o) with
  | Some l, _ => wire_Type wire = mkOrderTypeWire (Some l) None
  | None, Some t =>
      positive_finite (TriggerPx t) = true /\
      exists px c1,
        FloatToWire (TriggerPx t) cache = (Ok px, c1) /\
        wire_Type wire =
          mkOrderTypeWire None (Some (mkTriggerWire px (IsMarket t) (TPSL t)))
  | None, None => False
  end.
Proof.
  intros H. apply OrderRequestToOrderWire_inv in H
    as (Hv & c1 & c2 & Ht & Hp & Hs & ->).
  cbn [wire_Asset wire_IsBuy wire_ReduceOnly wire_Cloid wire_Price wire_Size
       wire_Type] in *.
  destruct (FloatToWire_ok _ _ _ _ Hp) as [Hp1 Hp2].
  destruct (FloatToWire_ok _ _ _ _ Hs) as [Hs1 Hs2].
  unfold Validate in Hv.
  destruct (F64.leb (Size o) F64.zero) eqn:E1; [discriminate|].
  destruct (F64.leb (LimitPrice o) F64.zero) eqn:E2; [discriminate|].
  split; [now apply positive_finite_spec|].
  split; [now apply positive_finite_spec|].
  do 4 (split; [reflexivity|]).
  split; [now exists c1, c2|].
  unfold OrderTypeToWire in Ht.
  destruct (Limit (OrderType_ o)) as [l|].
  - unfold ret in Ht. now injection Ht as <- _.
  - destruct (Trigger (OrderType_ o)) as [t|]; [|discriminate].
    destruct (F64.leb (TriggerPx t) F64.zero) eqn:E3; [discriminate|].
    unfold mbind', ret in Ht.
    destruct (FloatToWire (TriggerPx t) cache) as [[px|e] c0] eqn:Ex;
      [|discriminate].
    injection Ht as <- <-.
    destruct (FloatToWire_ok _ _ _ _ Ex) as [Hx1 Hx2].
    split; [now apply positive_finite_spec|]. now exists px, c0.
Qed.

Lemma OrderRequestToOrderWire_ok_witness :
  positive_finite (Size trigger_order) = true /\
  wire_Asset trigger_wire = 4 /\
  exists px c1,
    FloatToWire (F64.of_Z 3) [] = (Ok px, c1) /\
    wire_Type trigger_wire =
      mkOrderTypeWire None (Some (mkTriggerWire px true "tp")).
Proof.
  pose proof (OrderRequestToOrderWire_ok trigger_order 4 []
                (snd (OrderRequestToOrderWire trigger_order 4 []))
                trigger_wire eq_refl) as (H1 & _ & H3 & _ & _ & _ & _ & H8).
  split; [exact H1|]. split; [exact H3|]. exact (proj2 H8).
Defined.

(** ** Orders in batches *)





(** ** Modifications *)

Lemma Validate_by_cloid (cloid : string) (order : OrderRequest) :
  ModifyRequest_Validate (CreateModifyRequestByCloid cloid order)
  = option_map Cause (Validate order).
Proof. reflexivity. Qed.

(** X8.  A modification needs a positive order id.  [ModifyRequestToWire]
    fails for every request whose OrderID is zero or negative, so for
    every request that [CreateModifyRequestByCloid] builds: such a request
    passes [ModifyRequest.Validate], and when its coin is known and its
    order converts, the order is converted first (the cache already holds
    the result) and the call then fails as not implemented. *)
Theorem ModifyRequestToWire_needs_order_id (req : ModifyRequest)
    (assetMap : gmap string Z) (cache : Cache) :
  (OrderID req <= 0 ->
     exists e, fst (ModifyRequestToWire req assetMap cache) = Failed e) /\
  (forall cloid order,
     req = CreateModifyRequestByCloid cloid order ->
     (exists e, fst (ModifyRequestToWire req assetMap cache) = Failed e) /\
     forall asset wireOrder cache',
       assetMap !! Coin order = Some asset ->
       OrderRequestToOrderWire order asset cache = (Ok wireOrder, cache') ->
       ModifyRequestToWire req assetMap cache
         = (Failed ErrCloidNotImplemented, cache')).
Proof.
  assert (H0 : OrderID req <= 0 ->
    exists e, fst (ModifyRequestToWire req assetMap cache) = Failed e).
  { intros Hid. unfold ModifyRequestToWire.
    destruct (ModifyRequest_Validate req); [now eexists|].
    destruct (assetMap !! Coin (Order req)) as [asset|]; [|now eexists].
    destruct (OrderRequestToOrderWire (Order req) asset cache) as [[wo|e] c1];
      [|now eexists].
    replace (OrderID req <=? 0) with true by lia. now eexists. }
  split; [exact H0|].
  intros cloid order ->. split; [apply H0; simpl; lia|].
  intros asset wireOrder cache' Ha Ho. unfold ModifyRequestToWire.
  rewrite Validate_by_cloid.
  apply OrderRequestToOrderWire_inv in Ho as Hinv. destruct Hinv as [Hv _].
  rewrite Hv. cbn [option_map CreateModifyRequestByCloid Order OrderID].
  now rewrite Ha, Ho.
Qed.

Lemma ModifyRequestToWire_needs_order_id_witness :
  (exists e,
     fst (ModifyRequestToWire (mkModifyRequest (-1) None trigger_order)
            eth_is_4 []) = Failed e) /\
  ModifyRequestToWire (CreateModifyRequestByCloid "c1" trigger_order)
    eth_is_4 []
  = (Failed ErrCloidNotImplemented,
     snd (OrderRequestToOrderWire trigger_order 4 [])).
Proof.
  split.
  - apply (proj1 (ModifyRequestToWire_needs_order_id
                    (mkModifyRequest (-1) None trigger_order) eth_is_4 [])).
    simpl. lia.
  - apply (proj2 (proj2 (ModifyRequestToWire_needs_order_id
                           (CreateModifyRequestByCloid "c1" trigger_order)
                           eth_is_4 []) "c1" trigger_order eq_refl)
             4 trigger_wire); reflexivity.
Defined.

(** X9.  When a modification converts.  [ModifyRequestToWire] returns a
    wire exactly when the OrderID is positive, the coin of the order is in
    the asset map and the order converts with that asset; the wire then
    carries the OrderID unchanged and the converted order. *)
Theorem ModifyRequestToWire_done (req : ModifyRequest)
    (assetMap : gmap string Z) (cache cache' : Cache) (wire : ModifyWire) :
  ModifyRequestToWire req assetMap cache = (Done wire, cache') <->
  0 < OrderID req /\ wire_OrderID wire = OrderID req /\
  exists asset,
    assetMap !! Coin (Order req) = Some asset /\
    OrderRequestToOrderWire (Order req) asset cache
      = (Ok (wire_Order wire), cache').
Proof.
  unfold ModifyRequestToWire. split.
  - destruct (ModifyRequest_Validate req); [discriminate|].
    destruct (assetMap !! Coin (Order req)) as [asset|]; [|discriminate].
    destruct (OrderRequestToOrderWire (Order req) asset cache)
      as [[wo|e] c1] eqn:Eo; [|discriminate].
    destruct (OrderID req <=? 0) eqn:Eid; [discriminate|].
    intros [= <- <-]. split; [lia|]. split; [reflexivity|]. now exists asset.
  - intros (Hid & Hw & asset & Ha & Ho).
    assert (Hv : ModifyRequest_Validate req = None).
    { unfold ModifyRequest_Validate.
      replace (OrderID req =? 0) with false by lia. cbn [andb].
      apply OrderRequestToOrderWire_inv in Ho as [Hv _]. now rewrite Hv. }
    rewrite Hv, Ha, Ho. replace (OrderID req <=? 0) with false by lia.
    destruct wire as [oid wo]. simpl in Hw. now subst oid.
Qed.

Lemma ModifyRequestToWire_done_witness :
  ModifyRequestToWire (CreateModifyRequest 7 trigger_order) eth_is_4 []
  = (Done (mkModifyWire 7 trigger_wire),
     snd (OrderRequestToOrderWire trigger_order 4 [])).
Proof.
  apply (proj2 (ModifyRequestToWire_done (CreateModifyRequest 7 trigger_order)
                  eth_is_4 [] _ (mkModifyWire 7 trigger_wire))).
  split; [simpl; lia|]. split; [reflexivity|].
  exists 4. split; reflexivity.
Defined.
(** ** Hexadecimal text, both ways *)

Lemma length_EncodeToString (b : bytes) :
  String.length (EncodeToString b) = (2 * length b)%nat.
Proof. induction b as [|x b IH]; simpl; [reflexivity|]. rewrite IH. lia. Qed.

Lemma isHex_EncodeToString (b : bytes) : isHex (EncodeToString b) = true.
Proof.
  induction b as [|x b IH]; [reflexivity|].
  destruct (hex_digits_of_byte x) as (H1 & H2 & _).
  cbn [EncodeToString isHex]. now rewrite H1, H2.
Qed.

Lemma lower_EncodeToString (b : bytes) :
  lower (EncodeToString b) = EncodeToString b.
Proof.
  induction b as [|x b IH]; [reflexivity|].
  cbn [EncodeToString lower]. rewrite IH. now destruct x.
Qed.

Lemma has0xPrefix_EncodeToString (b : bytes) :
  has0xPrefix (EncodeToString b) = false.
Proof. destruct b as [|x b]; [reflexivity|]. now destruct x. Qed.

Lemma TrimPrefix0x_EncodeToString (b : bytes) :
  TrimPrefix0x (EncodeToString b) = EncodeToString b.
Proof. apply TrimPrefix0x_none, has0xPrefix_EncodeToString. Qed.

Lemma hex_value_lower (c : ascii) (h : Z) :
  hex_value c = Some h ->
  hex_digit h = lower_ascii c /\ hex_value (lower_ascii c) = Some h.
Proof.
  destruct c as [[] [] [] [] [] [] [] []]; vm_compute; intros [= <-]; now split.
Qed.

Lemma hex_value_byte (h l : Z) (a b : ascii) :
  hex_value a = Some h -> hex_value b = Some l ->
  Z_of_byte (byte_of_Z (16 * h + l)) / 16 = h /\
  Z_of_byte (byte_of_Z (16 * h + l)) mod 16 = l.
Proof.
  intros Ha Hb.
  assert (0 <= h < 16 /\ 0 <= l < 16) as [Hh Hl].
  { unfold hex_value in Ha, Hb. split.
    - repeat match type of Ha with
             | (if ?c then _ else _) = _ => destruct c eqn:?
             end; try discriminate; injection Ha as <-; lia.
    - repeat match type of Hb with
             | (if ?c then _ else _) = _ => destruct c eqn:?
             end; try discriminate; injection Hb as <-; lia. }
  rewrite Z_of_byte_of_Z, Z.mod_small by lia. split.
  - rewrite Z.mul_comm, Z.div_add_l by lia. rewrite Z.div_small; lia.
  - rewrite Z.mul_comm, Z.add_comm, Z.mod_add by lia. apply Z.mod_small; lia.
Qed.

Lemma EncodeToString_DecodeString_pairs (s : string) :
  (forall b, DecodeString s = Ok b -> EncodeToString b = lower s) /\
  (forall c b, DecodeString (String c s) = Ok b ->
     EncodeToString b = lower (String c s)).
Proof.
  induction s as [|a s [IH1 IH2]].
  - split; [now intros b [= <-]|discriminate].
  - split; [apply IH2|]. intros c b Hb. cbn [DecodeString] in Hb.
    destruct (hex_value c) as [h|] eqn:Ec; [|discriminate].
    destruct (hex_value a) as [l|] eqn:Ea; [|discriminate].
    destruct (DecodeString s) as [t|] eqn:Et; [|discriminate].
    injection Hb as <-. cbn [EncodeToString lower].
    destruct (hex_value_byte h l c a Ec Ea) as [-> ->].
    destruct (hex_value_lower c h Ec) as [-> _].
    destruct (hex_value_lower a l Ea) as [-> _].
    now rewrite (IH1 t).
Qed.

(** Encoding undoes decoding up to the case of the digits. *)
Lemma EncodeToString_DecodeString (s : string) (b : bytes) :
  DecodeString s = Ok b -> EncodeToString b = lower s.
Proof. apply EncodeToString_DecodeString_pairs. Qed.

Lemma hex_value_lower_ascii (c : ascii) :
  hex_value (lower_ascii c) = hex_value c.
Proof. destruct c as [[] [] [] [] [] [] [] []]; reflexivity. Qed.

Lemma DecodeString_lower_pairs (s : string) :
  DecodeString (lower s) = DecodeString s /\
  (forall c, DecodeString (lower (String c s)) = DecodeString (String c s)).
Proof.
  induction s as [|a s [IH1 IH2]]; [now split|].
  split; [apply IH2|]. intros c. cbn [lower DecodeString].
  rewrite !hex_value_lower_ascii. cbn [lower] in IH1. now rewrite IH1.
Qed.

Lemma DecodeString_lower (s : string) :
  DecodeString (lower s) = DecodeString s.
Proof. apply DecodeString_lower_pairs. Qed.

Lemma length_lower (s : string) : String.length (lower s) = String.length s.
Proof. induction s; simpl; congruence. Qed.

Lemma isHex_lower (s : string) : isHex (lower s) = isHex s.
Proof.
  induction s as [|c s IH]; [reflexivity|]. cbn [lower isHex].
  rewrite hex_value_lower_ascii, IH. reflexivity.
Qed.

Lemma has0xPrefix_lower (s : string) : has0xPrefix (lower s) = has0xPrefix s.
Proof.
  destruct s as [|c0 [|c1 t]]; try reflexivity.
  - now destruct c0 as [[] [] [] [] [] [] [] []].
  - destruct c0 as [[] [] [] [] [] [] [] []]; try reflexivity.
    now destruct c1 as [[] [] [] [] [] [] [] []].
Qed.

Lemma drop2_lower (s : string) : drop2 (lower s) = lower (drop2 s).
Proof. now destruct s as [|c0 [|c1 t]]. Qed.

(** Lower-casing byte by byte neither makes nor breaks an address. *)
Lemma IsHexAddress_lower (s : string) :
  IsHexAddress (lower s) = IsHexAddress s.
Proof.
  unfold IsHexAddress. rewrite has0xPrefix_lower.
  destruct (has0xPrefix s).
  - now rewrite drop2_lower, length_lower, isHex_lower.
  - now rewrite length_lower, isHex_lower.
Qed.

Lemma TrimPrefix0x_after_lower (s : string) :
  has0xPrefix s = true -> TrimPrefix0x (lower s) = lower (drop2 s).
Proof.
  destruct s as [|c0 [|c1 t]]; try discriminate.
  - now destruct c0 as [[] [] [] [] [] [] [] []].
  - destruct c0 as [[] [] [] [] [] [] [] []]; try discriminate.
    now destruct c1 as [[] [] [] [] [] [] [] []].
Qed.

Lemma TrimPrefix0x_after_lower_none (s : string) :
  has0xPrefix s = false -> TrimPrefix0x (lower s) = lower s.
Proof.
  intros H. apply TrimPrefix0x_none. now rewrite has0xPrefix_lower.
Qed.

(** After lower-casing byte by byte, every address that [IsHexAddress]
    accepts decodes, the one with the prefix "0X" too. *)
Lemma AddressToBytes_lower (a : string) :
  IsHexAddress a = true ->
  exists b, AddressToBytes (lower a) = Ok b /\ length b = 20%nat /\
            (upper_prefix a = false -> AddressToBytes a = Ok b).
Proof.
  intros Hv. unfold AddressToBytes at 1. rewrite IsHexAddress_lower, Hv.
  cbn [negb]. pose proof Hv as Hv'. unfold IsHexAddress in Hv'.
  apply andb_true_iff in Hv' as [Hlen Hhex]. apply Nat.eqb_eq in Hlen.
  destruct (has0xPrefix a) eqn:Hp.
  - rewrite (TrimPrefix0x_after_lower _ Hp), DecodeString_lower.
    destruct (DecodeString_isHex 20 _ Hhex Hlen) as (b & Hb & Hl).
    exists b. split; [exact Hb|]. split; [exact Hl|].
    intros Hu. unfold AddressToBytes. rewrite Hv. cbn [negb].
    now rewrite (TrimPrefix0x_lower _ Hp Hu).
  - rewrite (TrimPrefix0x_after_lower_none _ Hp), DecodeString_lower.
    destruct (DecodeString_isHex 20 _ Hhex Hlen) as (b & Hb & Hl).
    exists b. split; [exact Hb|]. split; [exact Hl|].
    intros _. unfold AddressToBytes. rewrite Hv. cbn [negb].
    now rewrite (TrimPrefix0x_none _ Hp).
Qed.

Lemma IsHexAddress_EncodeToString (b : bytes) :
  length b = 20%nat -> IsHexAddress (EncodeToString b) = true.
Proof.
  intros H. unfold IsHexAddress. rewrite has0xPrefix_EncodeToString.
  rewrite length_EncodeToString, isHex_EncodeToString, H. reflexivity.
Qed.

Lemma IsHexAddress_hexutil_Encode (b : bytes) :
  length b = 20%nat -> IsHexAddress (hexutil_Encode b) = true.
Proof.
  intros H. unfold IsHexAddress.
  change (hexutil_Encode b) with (String "0" (String "x" (EncodeToString b))).
  change (has0xPrefix (String "0" (String "x" (EncodeToString b)))) with true.
  change (drop2 (String "0" (String "x" (EncodeToString b))))
    with (EncodeToString b).
  cbv iota.
  now rewrite length_EncodeToString, isHex_EncodeToString, H.
Qed.

(** Hexadecimal text and addresses are ASCII, so [strings.ToLower] takes
    its byte-wise path on them and leaves the case tables alone. *)
Lemma isHex_isASCII (s : string) : isHex s = true -> isASCII s = true.
Proof.
  induction s as [|c s IH]; [reflexivity|]. cbn [isHex isASCII].
  destruct (hex_value c) eqn:Ec; [|discriminate]. intros Hs.
  rewrite (IH Hs), andb_true_r.
  destruct c as [[] [] [] [] [] [] [] []]; try reflexivity; discriminate Ec.
Qed.

Lemma IsHexAddress_isASCII (a : string) :
  IsHexAddress a = true -> isASCII a = true.
Proof.
  unfold IsHexAddress. intros Hv. apply andb_true_iff in Hv as [_ Hhex].
  destruct (has0xPrefix a) eqn:Hp; [|now apply isHex_isASCII].
  destruct a as [|c0 [|c1 t]]; [discriminate| |].
  - destruct c0 as [[] [] [] [] [] [] [] []]; discriminate.
  - cbn [drop2] in Hhex.
    cbn [isASCII]. rewrite (isHex_isASCII _ Hhex), andb_true_r.
    destruct c0 as [[] [] [] [] [] [] [] []]; try discriminate.
    destruct c1 as [[] [] [] [] [] [] [] []]; try discriminate; reflexivity.
Qed.

Lemma ToLower_isASCII `{CaseTables} (s : string) :
  isASCII s = true -> ToLower s = lower s.
Proof. intros Hs. unfold ToLower. now rewrite Hs. Qed.

Lemma ToLower_address `{CaseTables} (a : string) :
  IsHexAddress a = true -> ToLower a = lower a.
Proof. intros Hv. apply ToLower_isASCII, IsHexAddress_isASCII, Hv. Qed.

Lemma TrimPrefix0x_cases (a : string) :
  TrimPrefix0x a = a \/
  exists c0 c1, a = String c0 (String c1 (TrimPrefix0x a)).
Proof.
  destruct (has0xPrefix a) eqn:Hp; [|left; now apply TrimPrefix0x_none].
  destruct a as [|c0 [|c1 t]]; [discriminate| |].
  { destruct c0 as [[] [] [] [] [] [] [] []]; discriminate. }
  destruct (upper_prefix (String c0 (String c1 t))) eqn:Hu.
  - left. cbn [upper_prefix] in Hu.
    destruct c0 as [[] [] [] [] [] [] [] []]; try discriminate.
    destruct c1 as [[] [] [] [] [] [] [] []]; try discriminate. reflexivity.
  - right. exists c0, c1. now rewrite (TrimPrefix0x_lower _ Hp Hu).
Qed.

Lemma isASCII_TrimPrefix0x (a : string) :
  isASCII a = true -> isASCII (TrimPrefix0x a) = true.
Proof.
  intros Ha. destruct (TrimPrefix0x_cases a) as [->|(c0 & c1 & E)];
    [exact Ha|].
  rewrite E in Ha. cbn [isASCII] in Ha.
  apply andb_true_iff in Ha as [_ Ha]. now apply andb_true_iff in Ha as [_ Ha].
Qed.

(** X10.  [AddressToBytes] and the hexadecimal encoders are inverse to
    each other.  The text that [hexutil.Encode] or [hex.EncodeToString]
    gives for twenty bytes decodes to these bytes.  Whenever
    [AddressToBytes] returns bytes, there are twenty of them, their
    encoding is the address without its prefix in lower case, and the
    lower-cased address decodes to the same bytes. *)
Theorem AddressToBytes_round_trip `{CaseTables} :
  (forall b : bytes, length b = 20%nat ->
     AddressToBytes (hexutil_Encode b) = Ok b /\
     AddressToBytes (EncodeToString b) = Ok b) /\
  (forall (a : string) (b : bytes), AddressToBytes a = Ok b ->
     length b = 20%nat /\
     EncodeToString b = ToLower (TrimPrefix0x a) /\
     AddressToBytes (ToLower a) = Ok b).
Proof.
  split.
  - intros b Hb. split.
    + unfold AddressToBytes. rewrite (IsHexAddress_hexutil_Encode b Hb).
      cbn [negb].
      change (TrimPrefix0x (hexutil_Encode b)) with (EncodeToString b).
      apply DecodeString_EncodeToString.
    + unfold AddressToBytes. rewrite (IsHexAddress_EncodeToString b Hb).
      cbn [negb]. rewrite TrimPrefix0x_EncodeToString.
      apply DecodeString_EncodeToString.
  - intros a b Hab.
    assert (Hv : IsHexAddress a = true).
    { unfold AddressToBytes in Hab. now destruct (IsHexAddress a). }
    pose proof (AddressToBytes_valid a Hv) as Hval.
    destruct (upper_prefix a) eqn:Hu; [congruence|].
    destruct Hval as (b' & Hb' & Hlen).
    assert (b' = b) by congruence. subst b'.
    split; [exact Hlen|]. split.
    + rewrite ToLower_isASCII
        by now apply isASCII_TrimPrefix0x, IsHexAddress_isASCII.
      apply EncodeToString_DecodeString.
      unfold AddressToBytes in Hab. now rewrite Hv in Hab.
    + rewrite (ToLower_address a Hv).
      destruct (AddressToBytes_lower a Hv) as (b2 & H2 & _ & H3).
      rewrite H2. f_equal. specialize (H3 Hu). congruence.
Qed.

Lemma AddressToBytes_round_trip_witness :
  AddressToBytes (hexutil_Encode (repeat x2a 20)) = Ok (repeat x2a 20) /\
  EncodeToString (vault_bytes)
    = @ToLower latin1_tables (TrimPrefix0x vault_upper) /\
  AddressToBytes (@ToLower latin1_tables vault_upper) = Ok (vault_bytes).
Proof.
  split.
  - apply (proj1 (@AddressToBytes_round_trip latin1_tables) (repeat x2a 20)). reflexivity.
  - apply (proj2 (@AddressToBytes_round_trip latin1_tables) vault_upper (vault_bytes)).
    reflexivity.
Defined.

(** X11.  [GenerateRandomCloid] returns the hexadecimal text of the bytes
    that the random source filled in: two lower-case hexadecimal digits
    for each byte (32 for the 16 bytes read), which decode back to these
    bytes, so different random bytes give different identifiers; an error
    of the random source is returned as it is. *)
Theorem GenerateRandomCloid_spec `{CaseTables} (rand_Read : nat -> result bytes) :
  match rand_Read 16%nat with
  | Err e => GenerateRandomCloid rand_Read = Err e
  | Ok randBytes =>
      exists cloid,
        GenerateRandomCloid rand_Read = Ok cloid /\
        String.length cloid = (2 * length randBytes)%nat /\
        isHex cloid = true /\ ToLower cloid = cloid /\
        DecodeString cloid = Ok randBytes
  end.
Proof.
  unfold GenerateRandomCloid. destruct (rand_Read 16%nat) as [b|e]; [|reflexivity].
  exists (EncodeToString b). split; [reflexivity|].
  split; [apply length_EncodeToString|]. split; [apply isHex_EncodeToString|].
  split; [|apply DecodeString_EncodeToString].
  rewrite ToLower_isASCII by apply isHex_isASCII, isHex_EncodeToString.
  apply lower_EncodeToString.
Qed.
(** ** Serialization of typed data *)

Lemma encodable_entries (m : list (string * Value)) :
  (fix all (m : list (string * Value)) : bool :=
     match m with
     | [] => true
     | (_, x) :: r => encodable x && all r
     end) m = true <->
  Forall (fun kv => encodable (snd kv) = true) m.
Proof.
  induction m as [|[k x] m IH]; [split; [constructor|reflexivity]|].
  rewrite andb_true_iff, IH, Forall_cons. reflexivity.
Qed.

Lemma encode_entries_total (ord : RangeOrder) (m : list (string * Value)) :
  Forall (fun kv => exists b, Msgpack.encode ord (snd kv) = Ok b) m ->
  exists es, encode_entries ord m = Ok es.
Proof.
  induction 1 as [|[k x] m [a Ha] Hm [es IH]]; [now exists []|].
  cbn [encode_entries]. simpl in Ha. rewrite Ha. cbn [bind].
  fold (encode_entries ord). rewrite IH. now eexists.
Qed.

Lemma encode_slice_total (ord : RangeOrder) (l : list Value) :
  Forall (fun x => exists b, Msgpack.encode ord x = Ok b) l ->
  exists body, encode_slice ord l = Ok body.
Proof.
  induction 1 as [|x l [a Ha] Hl [body IH]]; [now exists []|].
  cbn [encode_slice]. rewrite Ha. cbn [bind].
  fold (encode_slice ord). rewrite IH. now eexists.
Qed.

(** A value without a channel always serializes. *)
Lemma encode_encodable (ord : RangeOrder) (v : Value) :
  encodable v = true -> exists b, Msgpack.encode ord v = Ok b.
Proof.
  induction v as [ |b|s|n|n|k n|b|l IH|m IH|m IH| ] using Value_nested_ind;
    intros He.
  - now exists [xc0].
  - now exists [if b then xc3 else xc2].
  - now exists (Msgpack.encode_string s).
  - now exists (Msgpack.EncodeInt n).
  - now exists (Msgpack.EncodeUint n).
  - now exists (Msgpack.encode_num k n).
  - now exists (Msgpack.bin_header (Z.of_nat (length b)) ++ b).
  - rewrite encode_VSlice. cbn [encodable] in He.
    destruct (encode_slice_total ord l) as [body Hb].
    { rewrite forallb_forall in He. rewrite Forall_forall in IH |- *.
      intros x Hx. apply IH; [exact Hx|]. apply He.
      now apply list_elem_of_In. }
    rewrite Hb. now eexists.
  - rewrite encode_VMap. cbn [encodable] in He. apply encodable_entries in He.
    destruct (encode_entries_total ord m) as [es Hes].
    { rewrite Forall_forall in IH, He |- *. intros kv Hkv. now apply IH, He. }
    rewrite Hes. now eexists.
  - rewrite encode_VStruct. cbn [encodable] in He. apply encodable_entries in He.
    destruct (encode_entries_total ord m) as [es Hes].
    { rewrite Forall_forall in IH, He |- *. intros kv Hkv. now apply IH, He. }
    rewrite Hes. now eexists.
  - discriminate.
Qed.

Lemma Marshal_encodable (ord : RangeOrder) (v : Value) :
  encodable v = true -> exists b, Msgpack.Marshal ord v = Ok b.
Proof.
  intros He. destruct (encode_encodable ord v He) as [b Hb].
  exists b. unfold Msgpack.Marshal. now rewrite Hb.
Qed.

Lemma encodable_map_value (m : gmap string Value) :
  all_encodable m -> encodable (map_value m) = true.
Proof.
  intros H. unfold map_value. cbn [encodable]. apply encodable_entries.
  apply map_Forall_to_list in H. rewrite Forall_forall in H |- *.
  intros [k v] Hkv. exact (H (k, v) Hkv).
Qed.

Lemma encodable_SignatureTypesToMap (types : list SignatureType) :
  encodable (SignatureTypesToMap types) = true.
Proof.
  unfold SignatureTypesToMap. cbn [encodable].
  induction types as [|t types IH]; [reflexivity|]. cbn. exact IH.
Qed.

Lemma typed_data_encodable (domain : EIP712Domain) (primaryType : string)
    (message : gmap string Value) (types : gmap string (list SignatureType)) :
  all_encodable message ->
  encodable (map_value (createEIP712TypedData domain primaryType message types))
  = true.
Proof.
  intros Hm. apply encodable_map_value. unfold createEIP712TypedData.
  cbv zeta. unfold all_encodable.
  apply map_Forall_insert_2;
    [|apply map_Forall_insert_2;
       [|apply map_Forall_insert_2; [|apply map_Forall_singleton]]].
  - apply encodable_map_value. unfold ToMap, all_encodable.
    apply map_Forall_insert_2;
      [|apply map_Forall_insert_2;
         [|apply map_Forall_insert_2; [|apply map_Forall_singleton]]];
      reflexivity.
  - reflexivity.
  - apply encodable_map_value. unfold all_encodable.
    apply map_Forall_insert_2; [apply encodable_SignatureTypesToMap|].
    intros k v Hkv. rewrite lookup_fmap in Hkv.
    destruct (types !! k); [|discriminate]. injection Hkv as <-.
    apply encodable_SignatureTypesToMap.
  - now apply encodable_map_value.
Qed.

Lemma agent_encodable (hash : bytes) (isMainnet : bool) :
  all_encodable (ConstructPhantomAgent hash isMainnet).
Proof.
  unfold ConstructPhantomAgent, all_encodable. cbv zeta.
  apply map_Forall_insert_2; [reflexivity|]. now apply map_Forall_singleton.
Qed.

(** The call of [SignL1Action], by the outcome of [ActionHash]. *)
Lemma SignL1Action_result (ord : RangeOrder) (wallet : Wallet) (action : Value)
    (vaultAddress : string) (nonce : Z) (isMainnet : bool) (w : World) :
  match ActionHash ord action vaultAddress nonce with
  | Err e =>
      SignL1Action ord wallet action vaultAddress nonce isMainnet w = (Err e, w)
  | Ok hash =>
      exists encodedData,
        Msgpack.Marshal ord (map_value (agent_typed_data hash isMainnet))
          = Ok encodedData /\
        SignL1Action ord wallet action vaultAddress nonce isMainnet w
          = (SignMessage wallet encodedData,
             mkWorld (maps w) (signed w ++ [encodedData]))
  end.
Proof.
  unfold SignL1Action.
  destruct (ActionHash ord action vaultAddress nonce) as [hash|e]; [|reflexivity].
  cbv zeta. fold (agent_typed_data hash isMainnet).
  destruct (Marshal_encodable ord (map_value (agent_typed_data hash isMainnet)))
    as [enc Henc].
  { unfold agent_typed_data. apply typed_data_encodable.
    apply agent_encodable. }
  exists enc. split; [exact Henc|]. now rewrite Henc.
Qed.

(** X12.  [SignL1Action] fails only where [ActionHash] or the wallet
    fails.  When the action hash cannot be computed the call returns that
    error and the wallet is not called.  Otherwise the typed data of the
    phantom agent always serializes, the wallet's [SignMessage] is called
    exactly once, on that serialization, and its answer is returned; the
    buffer signed depends on the action, the vault address and the nonce
    through the digest only. *)
Theorem SignL1Action_spec (ord : RangeOrder) (wallet : Wallet) (action : Value)
    (vaultAddress : string) (nonce : Z) (isMainnet : bool) (w : World) :
  match ActionHash ord action vaultAddress nonce with
  | Err e =>
      SignL1Action ord wallet action vaultAddress nonce isMainnet w = (Err e, w)
  | Ok hash =>
      exists encodedData,
        Msgpack.Marshal ord (map_value (agent_typed_data hash isMainnet))
          = Ok encodedData /\
        SignL1Action ord wallet action vaultAddress nonce isMainnet w
          = (SignMessage wallet encodedData,
             mkWorld (maps w) (signed w ++ [encodedData]))
  end.
Proof.
  exact (SignL1Action_result ord wallet action vaultAddress nonce isMainnet w).
Qed.

(** ** Multi-signature flows *)

Lemma ActionHash_upper_prefix (ord : RangeOrder) (action : Value)
    (vaultAddress : string) (nonce : Z) :
  IsHexAddress vaultAddress = true -> upper_prefix vaultAddress = true ->
  ActionHash ord action vaultAddress nonce
  = Err (match Msgpack.Marshal ord action with
         | Ok _ => ErrHex
         | Err _ => ErrMarshal
         end).
Proof.
  intros Hv Hu. unfold ActionHash, ActionHash_data.
  destruct (Msgpack.Marshal ord action) as [data|e] eqn:Em.
  - cbn [bind].
    assert (Hne : String.eqb vaultAddress "" = false)
      by (destruct vaultAddress; [discriminate|reflexivity]).
    rewrite Hne. pose proof (AddressToBytes_valid _ Hv) as Ha.
    rewrite Hu in Ha. now rewrite Ha.
  - unfold Msgpack.Marshal in Em.
    destruct (Msgpack.encode ord action); [discriminate|].
    now injection Em as <-.
Qed.

(** X13.  [SignMultiSigL1ActionPayload].  A payload user or outer signer
    that is not an address, or a non-empty vault address that is not one,
    is refused with the address error and nothing happens.  Otherwise the
    call is [SignL1Action] on the three-element list of the two
    lower-cased addresses and the action.  A vault address with the
    upper-case prefix "0X" passes the address test and the call then
    fails with another error, without calling the wallet.  The result
    does not depend on the letter case of the two addresses. *)
Theorem SignMultiSigL1ActionPayload_spec `{CaseTables} (ord : RangeOrder) (wallet : Wallet)
    (action : Value) (isMainnet : bool) (vaultAddress : string) (timestamp : Z)
    (payloadMultiSigUser outerSigner : string) (w : World) :
  let r := SignMultiSigL1ActionPayload ord wallet action isMainnet vaultAddress
             timestamp payloadMultiSigUser outerSigner w in
  (IsHexAddress payloadMultiSigUser = false \/
   IsHexAddress outerSigner = false \/
   (vaultAddress <> "" /\ IsHexAddress vaultAddress = false) ->
     r = (Err ErrInvalidAddress, w)) /\
  (IsHexAddress payloadMultiSigUser = true ->
   IsHexAddress outerSigner = true ->
   vaultAddress = "" \/ IsHexAddress vaultAddress = true ->
     r = SignL1Action ord wallet
           (VSlice [ VString (ToLower payloadMultiSigUser);
                     VString (ToLower outerSigner); action ])
           vaultAddress timestamp isMainnet w /\
     (upper_prefix vaultAddress = true ->
        exists e, e <> ErrInvalidAddress /\ r = (Err e, w)) /\
     (forall payloadMultiSigUser' outerSigner',
        IsHexAddress payloadMultiSigUser' = true ->
        IsHexAddress outerSigner' = true ->
        ToLower payloadMultiSigUser' = ToLower payloadMultiSigUser ->
        ToLower outerSigner' = ToLower outerSigner ->
        SignMultiSigL1ActionPayload ord wallet action isMainnet vaultAddress
          timestamp payloadMultiSigUser' outerSigner' w = r)).
Proof.
  intros r. subst r. unfold SignMultiSigL1ActionPayload. split.
  - intros [Hbad|[Hbad|[Hne Hbad]]].
    + now rewrite Hbad.
    + rewrite Hbad. now destruct (IsHexAddress payloadMultiSigUser).
    + rewrite Hbad. apply String.eqb_neq in Hne. rewrite Hne.
      now destruct (IsHexAddress payloadMultiSigUser), (IsHexAddress outerSigner).
  - intros Hp Ho Hv. rewrite Hp, Ho. cbn [negb].
    assert (Hc : negb (String.eqb vaultAddress "") &&
                 negb (IsHexAddress vaultAddress) = false).
    { destruct Hv as [-> | ->]; [reflexivity|apply andb_false_r]. }
    rewrite Hc. split; [reflexivity|]. split.
    + intros Hu.
      assert (Hv' : IsHexAddress vaultAddress = true).
      { destruct Hv as [-> | Hv]; [discriminate|exact Hv]. }
      pose proof (SignL1Action_result ord wallet
        (VSlice [ VString (ToLower payloadMultiSigUser);
                  VString (ToLower outerSigner); action ])
        vaultAddress timestamp isMainnet w) as Hs.
      rewrite (ActionHash_upper_prefix _ _ _ _ Hv' Hu) in Hs.
      eexists. split; [|exact Hs]. now destruct (Msgpack.Marshal ord _).
    + intros p' o' Hp' Ho' Ep Eo. rewrite Hp', Ho'. cbn [negb].
      now rewrite Ep, Eo.
Qed.

Lemma SignMultiSigL1ActionPayload_spec_witness :
  @SignMultiSigL1ActionPayload latin1_tables range_fwd fixed_wallet VNil true
    "" 7 "nobody" vault_lower (mkWorld ∅ [])
  = (Err ErrInvalidAddress, mkWorld ∅ []) /\
  @SignMultiSigL1ActionPayload latin1_tables range_fwd fixed_wallet VNil true
    "" 7 vault_lower vault_bare (mkWorld ∅ [])
  = @SignMultiSigL1ActionPayload latin1_tables range_fwd fixed_wallet VNil true
      "" 7 vault_upper vault_bare (mkWorld ∅ []).
Proof.
  split.
  - apply (proj1 (@SignMultiSigL1ActionPayload_spec latin1_tables range_fwd fixed_wallet VNil
                    true "" 7 "nobody" vault_lower (mkWorld ∅ []))).
    left. reflexivity.
  - apply (proj2 (@SignMultiSigL1ActionPayload_spec latin1_tables range_fwd fixed_wallet VNil
                    true "" 7 vault_upper vault_bare (mkWorld ∅ [])));
      try reflexivity. left. reflexivity.
Defined.

Lemma SignUserSignedAction_result (ord : RangeOrder) (wallet : Wallet)
    (action : loc) (payloadTypes : list SignatureType) (primaryType : string)
    (isMainnet : bool) (w : World) (m : gmap string Value) :
  is_range ord -> maps w !! action = Some m ->
  let r := SignUserSignedAction ord wallet action payloadTypes primaryType
             isMainnet w in
  maps (snd r) = <[fresh (dom (maps w)) := injected isMainnet m]> (maps w) /\
  match Msgpack.Marshal ord
          (map_value (user_signed_typed_data primaryType payloadTypes isMainnet m)) with
  | Ok encodedData =>
      fst r = SignMessage wallet encodedData /\
      signed (snd r) = signed w ++ [encodedData]
  | Err _ => fst r = Err ErrMarshal /\ signed (snd r) = signed w
  end.
Proof.
  intros Hord Hm r. subst r.
  rewrite (SignUserSignedAction_unfold _ _ _ _ _ _ _ m Hord Hm).
  destruct (Msgpack.Marshal ord _); simpl; auto.
Qed.

Lemma lookup_after_fresh (w : World) (l : loc) (m x : gmap string Value) :
  maps w !! l = Some m ->
  (<[fresh (dom (maps w)) := x]> (maps w)) !! l = Some m.
Proof.
  intros H. rewrite lookup_insert_ne; [exact H|].
  intros E. pose proof (fresh_not_allocated w) as Hf. rewrite E in Hf. congruence.
Qed.

(** X14.  [SignMultiSigUserSignedActionPayload].  The caller's action map
    is never changed.  A payload user or outer signer that is not an
    address is refused with the address error and nothing happens.  With
    two addresses, a type list without a field named hyperliquidChain
    gives the signature-chain error and the wallet is not called;
    otherwise the wallet is called exactly once, on the serialization of
    the typed data whose message is the action with the two lower-cased
    addresses (and the two chain fields) and whose field types are the
    enriched list, and its answer is returned. *)
Theorem SignMultiSigUserSignedActionPayload_spec `{CaseTables}
    (ord : RangeOrder)
    (wallet : Wallet) (action : loc) (isMainnet : bool)
    (signTypes : list SignatureType) (txType : string)
    (payloadMultiSigUser outerSigner : string) (w : World)
    (m : gmap string Value) :
  is_range ord -> maps w !! action = Some m ->
  let r := SignMultiSigUserSignedActionPayload ord wallet action isMainnet
             signTypes txType payloadMultiSigUser outerSigner w in
  maps (snd r) !! action = Some m /\
  (IsHexAddress payloadMultiSigUser = false \/ IsHexAddress outerSigner = false ->
     r = (Err ErrInvalidAddress, w)) /\
  (IsHexAddress payloadMultiSigUser = true -> IsHexAddress outerSigner = true ->
     if existsb is_chain signTypes then
       match Msgpack.Marshal ord
               (map_value (user_signed_typed_data txType
                             (flat_map splice_one signTypes) isMainnet
                             (with_multisig_fields payloadMultiSigUser
                                outerSigner m))) with
       | Ok encodedData =>
           fst r = SignMessage wallet encodedData /\
           signed (snd r) = signed w ++ [encodedData]
       | Err _ => fst r = Err ErrMarshal /\ signed (snd r) = signed w
       end
     else fst r = Err ErrInvalidSignatureChain /\ signed (snd r) = signed w).
Proof.
  intros Hord Hm r. subst r. unfold SignMultiSigUserSignedActionPayload.
  destruct (IsHexAddress payloadMultiSigUser) eqn:Hp; cbn [negb];
    [|split; [exact Hm|split; [reflexivity|discriminate]]].
  destruct (IsHexAddress outerSigner) eqn:Ho; cbn [negb];
    [|split; [exact Hm|split; [reflexivity|discriminate]]].
  rewrite (AddMultiSigFields_unfold _ _ _ _ _ m Hord Hm).
  fold (with_multisig_fields payloadMultiSigUser outerSigner m).
  set (env := with_multisig_fields payloadMultiSigUser outerSigner m).
  set (w1 := mkWorld (<[fresh (dom (maps w)) := env]> (maps w)) (signed w)).
  assert (H1 : maps w1 !! action = Some m) by now apply lookup_after_fresh.
  assert (Henv : maps w1 !! fresh (dom (maps w)) = Some env)
    by apply lookup_insert_eq.
  rewrite AddMultiSigTypes_spec.
  destruct (existsb is_chain signTypes).
  - pose proof (SignUserSignedAction_result ord wallet (fresh (dom (maps w)))
        (flat_map splice_one signTypes) txType isMainnet w1 env Hord Henv)
      as [Hmaps Hres].
    split; [|split; [intros [?|?]; discriminate|intros _ _; exact Hres]].
    rewrite Hmaps. now apply lookup_after_fresh.
  - split; [exact H1|]. split; [intros [?|?]; discriminate|]. now intros _ _.
Qed.

Lemma SignMultiSigUserSignedActionPayload_spec_witness :
  let r := @SignMultiSigUserSignedActionPayload latin1_tables range_rev
             fixed_wallet 1%positive true [mkSignatureType "amount" "string"]
             "HyperliquidTransaction:UsdSend" vault_upper vault_lower
             tagged_action_world in
  maps (snd r) !! 1%positive = Some tagged_action /\
  fst r = Err ErrInvalidSignatureChain /\ signed (snd r) = [].
Proof.
  pose proof (@SignMultiSigUserSignedActionPayload_spec latin1_tables range_rev fixed_wallet
                1%positive true [mkSignatureType "amount" "string"]
                "HyperliquidTransaction:UsdSend" vault_upper vault_lower
                tagged_action_world tagged_action is_range_rev eq_refl)
    as (H1 & _ & H3).
  split; [exact H1|]. exact (H3 eq_refl eq_refl).
Defined.

Lemma foldl_assign_skip (dst : loc) (l : list (string * Value)) (w : World) :
  foldl (fun w kv =>
           if negb (String.eqb (fst kv) "type")
           then map_assign dst (fst kv) (snd kv) w
           else w) w l
  = foldl (fun w kv => map_assign dst (fst kv) (snd kv) w) w
      (List.filter (fun kv => negb (String.eqb (fst kv) "type")) l).
Proof.
  revert w. induction l as [|[k v] l IH]; intros w; [reflexivity|].
  cbn [foldl List.filter fst snd].
  destruct (negb (String.eqb k "type")); [apply IH|apply IH].
Qed.

Lemma NoDup_fst_filter (f : string * Value -> bool) (l : list (string * Value)) :
  NoDup (l.*1) -> NoDup ((List.filter f l).*1).
Proof.
  induction l as [|kv l IH]; [easy|]. cbn [fmap list_fmap List.filter].
  rewrite NoDup_cons. intros [Hk Hnd]. destruct (f kv); [|now apply IH].
  cbn [fmap list_fmap]. apply NoDup_cons. split; [|now apply IH].
  intros Hin. apply Hk. apply list_elem_of_fmap in Hin as (kv' & -> & Hkv').
  apply list_elem_of_fmap. exists kv'. split; [reflexivity|].
  apply list_elem_of_In in Hkv'. apply filter_In in Hkv' as [Hkv' _].
  now apply list_elem_of_In.
Qed.

(** The copy loop that leaves out the entry "type", whatever the order. *)
Lemma foldl_assign_without_type (ord : RangeOrder) (m : gmap string Value) :
  is_range ord ->
  foldl assign ∅
    (List.filter (fun kv => negb (String.eqb (fst kv) "type"))
       (ord _ (map_to_list m)))
  = delete "type" m.
Proof.
  intros Hord. pose proof (Hord _ (map_to_list m)) as Hp.
  set (l := List.filter _ _).
  assert (Hnd : NoDup (l.*1)).
  { apply NoDup_fst_filter. rewrite Hp. apply NoDup_fst_map_to_list. }
  rewrite foldl_assign_fresh; [|exact Hnd|intros; apply lookup_empty].
  rewrite (right_id_L ∅ (∪)). apply map_eq. intros k. apply option_eq. intros v.
  rewrite <- elem_of_list_to_map by exact Hnd.
  rewrite lookup_delete_Some. subst l.
  rewrite list_elem_of_In, filter_In, <- list_elem_of_In, Hp, elem_of_map_to_list.
  cbn [fst]. rewrite negb_true_iff, String.eqb_neq. split.
  - intros [H1 H2]. split; [congruence|exact H1].
  - intros [H1 H2]. split; [exact H2|congruence].
Qed.

Lemma make_then_copy_without_type (ord : RangeOrder) (src : loc) (w : World)
    (m : gmap string Value) :
  is_range ord -> maps w !! src = Some m ->
  range_copy_without_type ord src (fst (make_map w)) (snd (make_map w)) =
  mkWorld (<[fresh (dom (maps w)) := delete "type" m]> (maps w)) (signed w).
Proof.
  intros Hord Hsrc. unfold range_copy_without_type, make_map. simpl.
  rewrite foldl_assign_skip.
  erewrite foldl_map_assign by (simpl; apply lookup_insert_eq).
  simpl. unfold entries. simpl.
  rewrite (lookup_after_fresh w src m ∅ Hsrc). simpl.
  rewrite foldl_assign_without_type by assumption.
  now rewrite insert_insert_eq.
Qed.

Lemma multisig_envelope_encodable (h : bytes) (nonce : Z) (isMainnet : bool) :
  all_encodable (injected isMainnet (multisig_envelope h nonce)).
Proof.
  unfold injected, multisig_envelope, all_encodable.
  apply map_Forall_insert_2; [reflexivity|].
  apply map_Forall_insert_2; [reflexivity|].
  apply map_Forall_insert_2; [reflexivity|]. now apply map_Forall_singleton.
Qed.

(** X15.  [SignMultiSigAction] signs the action without its type tag.  The
    caller's action map is never changed.  A non-empty vault address that
    is not an address is refused and nothing happens.  Otherwise the
    digest is [ActionHash] of the entries other than "type": when it
    fails the wallet is not called; when it succeeds the envelope of the
    digest in hexadecimal and the nonce always serializes and the wallet
    is called exactly once on it.  Two actions that differ in the entry
    "type" only are signed alike. *)
Theorem SignMultiSigAction_spec (ord : RangeOrder) (wallet : Wallet)
    (action : loc) (isMainnet : bool) (vaultAddress : string) (nonce : Z)
    (w : World) (m : gmap string Value) :
  is_range ord -> maps w !! action = Some m ->
  let r := SignMultiSigAction ord wallet action isMainnet vaultAddress nonce w in
  maps (snd r) !! action = Some m /\
  (vaultAddress <> "" -> IsHexAddress vaultAddress = false ->
     r = (Err ErrInvalidAddress, w)) /\
  (vaultAddress = "" \/ IsHexAddress vaultAddress = true ->
     match ActionHash ord (map_value (delete "type" m)) vaultAddress nonce with
     | Err e => fst r = Err e /\ signed (snd r) = signed w
     | Ok multiSigActionHash =>
         exists encodedData,
           Msgpack.Marshal ord
             (map_value (user_signed_typed_data
                           "HyperliquidTransaction:SendMultiSig"
                           MultiSigEnvelopeSignTypes isMainnet
                           (multisig_envelope multiSigActionHash nonce)))
             = Ok encodedData /\
           fst r = SignMessage wallet encodedData /\
           signed (snd r) = signed w ++ [encodedData]
     end).
Proof.
  intros Hord Hm r. subst r. unfold SignMultiSigAction.
  destruct (negb (String.eqb vaultAddress "") && negb (IsHexAddress vaultAddress))
    eqn:Hc.
  { split; [exact Hm|]. split; [reflexivity|].
    apply andb_true_iff in Hc as [H1 H2].
    apply negb_true_iff in H1, H2. apply String.eqb_neq in H1.
    intros [?|?]; [contradiction|congruence]. }
  pose proof (make_then_copy_without_type ord action w m Hord Hm) as Hcopy.
  destruct (make_map w) as [l1 w0] eqn:Hmk. simpl in Hcopy.
  assert (Hl1 : l1 = fresh (dom (maps w))).
  { unfold make_map in Hmk. now injection Hmk as <- _. }
  rewrite Hcopy. subst l1. clear Hmk Hcopy w0.
  set (w1 := mkWorld (<[fresh (dom (maps w)) := delete "type" m]> (maps w))
               (signed w)).
  assert (H1 : maps w1 !! action = Some m) by now apply lookup_after_fresh.
  assert (He : entries w1 (fresh (dom (maps w))) = delete "type" m).
  { unfold entries, w1. simpl. now rewrite lookup_insert_eq. }
  rewrite He.
  assert (Hvalid : forall P : Prop,
            (vaultAddress <> "" -> IsHexAddress vaultAddress = false -> P)).
  { intros P Hne Hbad. apply String.eqb_neq in Hne.
    rewrite Hne, Hbad in Hc. discriminate. }
  destruct (ActionHash ord (map_value (delete "type" m)) vaultAddress nonce)
    as [h|e].
  2:{ split; [exact H1|]. split; [apply Hvalid|]. now intros _. }
  unfold make_map. cbv zeta.
  set (l2 := fresh (dom (maps w1))).
  rewrite !map_assign_at.
  set (env := <["nonce" := VUint64 nonce]>
                (<["multiSigActionHash" := VString (hexutil_Encode h)]> ∅)).
  assert (Eenv : env = multisig_envelope h nonce).
  { unfold env, multisig_envelope. rewrite <- (insert_empty "nonce").
    now apply insert_insert_ne. }
  set (w3 := mkWorld (<[l2 := env]> (maps w1)) (signed w1)).
  assert (H3 : maps w3 !! action = Some m) by now apply lookup_after_fresh.
  assert (Henv : maps w3 !! l2 = Some env) by apply lookup_insert_eq.
  pose proof (SignUserSignedAction_result ord wallet l2 MultiSigEnvelopeSignTypes
      "HyperliquidTransaction:SendMultiSig" isMainnet w3 env Hord Henv)
    as [Hmaps Hres].
  split; [|split; [apply Hvalid|intros _]].
  - rewrite Hmaps. now apply lookup_after_fresh.
  - rewrite Eenv in Hres.
    destruct (Marshal_encodable ord
                (map_value (user_signed_typed_data
                   "HyperliquidTransaction:SendMultiSig"
                   MultiSigEnvelopeSignTypes isMainnet (multisig_envelope h nonce))))
      as [enc Henc].
    { apply typed_data_encodable, multisig_envelope_encodable. }
    exists enc. split; [exact Henc|]. rewrite Henc in Hres. exact Hres.
Qed.

Lemma SignMultiSigAction_spec_witness :
  let r := SignMultiSigAction range_rev fixed_wallet 1%positive true "" 7
             tagged_action_world in
  maps (snd r) !! 1%positive = Some tagged_action /\
  match ActionHash range_rev (map_value (delete "type" tagged_action)) "" 7 with
  | Err e => fst r = Err e /\ signed (snd r) = []
  | Ok multiSigActionHash =>
      exists encodedData,
        Msgpack.Marshal range_rev
          (map_value (user_signed_typed_data
                        "HyperliquidTransaction:SendMultiSig"
                        MultiSigEnvelopeSignTypes true
                        (multisig_envelope multiSigActionHash 7)))
          = Ok encodedData /\
        fst r = SignMessage fixed_wallet encodedData /\
        signed (snd r) = [] ++ [encodedData]
  end.
Proof.
  pose proof (SignMultiSigAction_spec range_rev fixed_wallet 1%positive true ""
                7 tagged_action_world tagged_action is_range_rev eq_refl)
    as (H1 & _ & H3).
  split; [exact H1|]. apply H3. left. reflexivity.
Defined.
(** ** The typed signers and the action constructors *)

Ltac scheme f :=
  intros ord wallet action isMainnet w; unfold f, address_refused, string_at;
  cbv zeta; cbn [List.find];
  repeat match goal with
         | |- context [present ?m ?k] =>
             destruct (present m k) eqn:?; cbn [negb]; try reflexivity
         end;
  repeat match goal with
         | |- context [?m !! ?k] => destruct (m !! k) as [[]|]
         end;
  cbn [andb negb]; reflexivity.

Lemma SignUSDTransferAction_scheme :
  checks_then_signs SignUSDTransferAction
    ["destination"; "amount"; "time"]
    (Some "destination") USDSendSignTypes
    "HyperliquidTransaction:UsdSend".
Proof. scheme SignUSDTransferAction. Qed.

Lemma SignSpotTransferAction_scheme :
  checks_then_signs SignSpotTransferAction
    ["destination"; "token"; "amount"; "time"]
    (Some "destination") SpotTransferSignTypes
    "HyperliquidTransaction:SpotSend".
Proof. scheme SignSpotTransferAction. Qed.

Lemma SignWithdrawFromBridgeAction_scheme :
  checks_then_signs SignWithdrawFromBridgeAction
    ["destination"; "amount"; "time"]
    (Some "destination") WithdrawSignTypes
    "HyperliquidTransaction:Withdraw".
Proof. scheme SignWithdrawFromBridgeAction. Qed.

Lemma SignUSDClassTransferAction_scheme :
  checks_then_signs SignUSDClassTransferAction
    ["amount"; "toPerp"; "nonce"]
    None USDClassTransferSignTypes
    "HyperliquidTransaction:UsdClassTransfer".
Proof. scheme SignUSDClassTransferAction. Qed.


Lemma SignAgentAction_scheme :
  checks_then_signs SignAgentAction
    ["agentAddress"; "agentName"; "nonce"]
    (Some "agentAddress") AgentSignTypes
    "HyperliquidTransaction:ApproveAgent".
Proof. scheme SignAgentAction. Qed.

Lemma SignApproveBuilderFeeAction_scheme :
  checks_then_signs SignApproveBuilderFeeAction
    ["maxFeeRate"; "builder"; "nonce"]
    (Some "builder") BuilderFeeSignTypes
    "HyperliquidTransaction:ApproveBuilderFee".
Proof. scheme SignApproveBuilderFeeAction. Qed.


Ltac literal_lookups :=
  repeat first
    [ rewrite lookup_insert_eq
    | rewrite lookup_insert_ne by done
    | rewrite lookup_singleton_eq
    | rewrite lookup_singleton_ne by done ];
  cbv beta iota; cbn [negb].

Ltac constructed E scheme_lemma :=
  rewrite scheme_lemma, E;
  unfold CreateUSDTransferAction, CreateSpotTransferAction,
    CreateWithdrawAction, CreateUSDClassTransferAction, CreateAgentAction,
    CreateApproveBuilderFeeAction, address_refused;
  cbn [List.find]; unfold present;
  repeat literal_lookups.

(** X17.  Actions built by the constructors of actions.go pass the field
    checks of their signers.  For a map that holds what the constructor
    returns, the signer never reports a missing field: it refuses exactly
    when the lower-cased address is not an address, and is the call of
    [SignUserSignedAction] otherwise (always, for a class transfer, which
    has no address).  Lower-casing keeps an address an address, so the
    prefix "0X" is accepted here and signed as "0x". *)
Theorem constructed_actions_pass_the_field_checks `{CaseTables}
    (ord : RangeOrder)
    (wallet : Wallet) (action : loc) (isMainnet : bool) (w : World) :
  (forall destination amount timestamp,
     entries w action = CreateUSDTransferAction destination amount timestamp ->
     SignUSDTransferAction ord wallet action isMainnet w =
       if IsHexAddress (ToLower destination)
       then lift_call (SignUserSignedAction ord wallet action USDSendSignTypes
                         "HyperliquidTransaction:UsdSend" isMainnet w)
       else (Failed (Cause ErrInvalidAddress), w)) /\
  (forall destination token amount timestamp,
     entries w action
       = CreateSpotTransferAction destination token amount timestamp ->
     SignSpotTransferAction ord wallet action isMainnet w =
       if IsHexAddress (ToLower destination)
       then lift_call (SignUserSignedAction ord wallet action
                         SpotTransferSignTypes
                         "HyperliquidTransaction:SpotSend" isMainnet w)
       else (Failed (Cause ErrInvalidAddress), w)) /\
  (forall destination amount timestamp,
     entries w action = CreateWithdrawAction destination amount timestamp ->
     SignWithdrawFromBridgeAction ord wallet action isMainnet w =
       if IsHexAddress (ToLower destination)
       then lift_call (SignUserSignedAction ord wallet action WithdrawSignTypes
                         "HyperliquidTransaction:Withdraw" isMainnet w)
       else (Failed (Cause ErrInvalidAddress), w)) /\
  (forall amount toPerp nonce,
     entries w action = CreateUSDClassTransferAction amount toPerp nonce ->
     SignUSDClassTransferAction ord wallet action isMainnet w =
       lift_call (SignUserSignedAction ord wallet action
                    USDClassTransferSignTypes
                    "HyperliquidTransaction:UsdClassTransfer" isMainnet w)) /\
  (forall agentAddress agentName nonce,
     entries w action = CreateAgentAction agentAddress agentName nonce ->
     SignAgentAction ord wallet action isMainnet w =
       if IsHexAddress (ToLower agentAddress)
       then lift_call (SignUserSignedAction ord wallet action AgentSignTypes
                         "HyperliquidTransaction:ApproveAgent" isMainnet w)
       else (Failed (Cause ErrInvalidAddress), w)) /\
  (forall maxFeeRate builder nonce,
     entries w action = CreateApproveBuilderFeeAction maxFeeRate builder nonce ->
     SignApproveBuilderFeeAction ord wallet action isMainnet w =
       if IsHexAddress (ToLower builder)
       then lift_call (SignUserSignedAction ord wallet action
                         BuilderFeeSignTypes
                         "HyperliquidTransaction:ApproveBuilderFee" isMainnet w)
       else (Failed (Cause ErrInvalidAddress), w)) /\
  (forall address, IsHexAddress address = true ->
     IsHexAddress (ToLower address) = true).
Proof.
  split; [|split; [|split; [|split; [|split; [|split]]]]].
  - intros d a t E. constructed E SignUSDTransferAction_scheme.
    destruct (IsHexAddress _); reflexivity.
  - intros d k a t E. constructed E SignSpotTransferAction_scheme.
    destruct (IsHexAddress _); reflexivity.
  - intros d a t E. constructed E SignWithdrawFromBridgeAction_scheme.
    destruct (IsHexAddress _); reflexivity.
  - intros a p n E. constructed E SignUSDClassTransferAction_scheme.
    reflexivity.
  - intros d a n E. constructed E SignAgentAction_scheme.
    destruct (IsHexAddress _); reflexivity.
  - intros f b n E. constructed E SignApproveBuilderFeeAction_scheme.
    destruct (IsHexAddress _); reflexivity.
  - intros a Ha. now rewrite (ToLower_address a Ha), IsHexAddress_lower.
Qed.

Lemma constructed_actions_pass_the_field_checks_witness :
  SignUSDTransferAction range_fwd fixed_wallet 1%positive true
    (@usd_transfer_world latin1_tables)
  = lift_call (SignUserSignedAction range_fwd fixed_wallet 1%positive
                 USDSendSignTypes "HyperliquidTransaction:UsdSend" true
                 (@usd_transfer_world latin1_tables)) /\
  IsHexAddress (@ToLower latin1_tables vault_0X) = true.
Proof.
  pose proof (@constructed_actions_pass_the_field_checks latin1_tables
                range_fwd fixed_wallet 1%positive true
                (@usd_transfer_world latin1_tables))
    as (H1 & _ & _ & _ & _ & _ & H7).
  split; [exact (H1 vault_0X "1" 5 eq_refl)|]. apply H7. reflexivity.
Defined.

(** A transfer whose destination is a number, not a string, passes the
    address check and is signed. *)
Example SignUSDTransferAction_number_as_destination :
  fst (SignUSDTransferAction range_fwd fixed_wallet 1%positive true
         (mkWorld {[ 1%positive :=
                       {[ "destination" := VUint64 1; "amount" := VString "1";
                          "time" := VUint64 5 ]} ]} []))
  = Done (mkSignature "0x01" "0x02" 27).
Proof. vm_compute. reflexivity. Qed.
